(** * pewpi-shared: token store, session coordinator, machine registry, event bus

    A shallow embedding of the services of the pewpi-shared library
    (TokenService, AuthService, MachinesAdapter, IntegrationListener
    and, further down, WalletUnified) together with the properties
    their specification states about them and further properties of
    the code.

    Conventions of the embedding.
    - A JS [Map] or plain object used as a dictionary is a [gmap]; the
      listener table, whose iteration order [off] depends on, is an
      association list in insertion order.
    - A method that can [throw] returns a [Result]; every [throw] of the
      modelled code happens before the first mutation, so a [Throw]
      carries no state.
    - [Date.now()] is the explicit argument [now] (milliseconds, [Z]).
      Identifiers built from [Date.now()] and [Math.random()] are
      environment inputs and are passed in as arguments.
    - Property lookup [obj[key]] on a plain object finds an own
      property or, failing that, a member of [Object.prototype]. *)

From stdpp Require Import gmap strings list fin_maps sorting.

Open Scope Z_scope.

(** Outcome of a method call: a returned value or a raised [Error]. *)
Inductive Result (A : Type) : Type :=
| Return (a : A)
| Throw (message : string).
Arguments Return {A} a.
Arguments Throw {A} message.

(** The state a call leaves behind; a call that throws leaves the state
    as it was. *)
Definition state_of {S A} (s : S) (r : Result (S * A)) : S :=
  match r with
  | Return (s', _) => s'
  | Throw _ => s
  end.

(** Loosely typed JS objects (token payloads, event data, machine
    contexts) are string-keyed maps. *)
Abbreviation Obj := (gmap string string).

(** * TokenService (adapter.js, lines 330-526) *)
Module TokenService.

Record Token := mkToken {
  id : string;
  type : string;
  value : string;
  payload : Obj;
  createdAt : Z;
  expiresAt : Z;
  valid : bool
}.

Record t := mk {
  tokens : gmap string Token;
  initialized : bool
}.

(** What [createToken] hands back to its caller. *)
Record Issued := mkIssued {
  issued_id : string;
  issued_value : string;
  issued_type : string;
  issued_expiresAt : Z
}.

(** What [getToken] hands back to its caller. *)
Record Details := mkDetails {
  d_id : string;
  d_type : string;
  d_payload : Obj;
  d_createdAt : Z;
  d_expiresAt : Z;
  d_valid : bool
}.

Definition not_initialized : string := "[TokenService] Not initialized".

Definition new : t := {| tokens := ∅; initialized := false |}.

Definition initialize (s : t) : t * bool :=
  if initialized s then (s, true)
  else ({| tokens := ∅; initialized := true |}, true).

(** [token.valid = false] on the record stored under [tokenId]. *)
Definition invalidate (tok : Token) : Token :=
  {| id := id tok; type := type tok; value := value tok;
     payload := payload tok; createdAt := createdAt tok;
     expiresAt := expiresAt tok; valid := false |}.

(** [tokenId] and [tokenValue] are the results of [_generateTokenId()]
    and [_generateTokenValue()]. *)
Definition createToken (now : Z) (tokenId tokenValue : string)
    (type : string) (payload : Obj) (expiresIn : Z) (s : t)
    : Result (t * Issued) :=
  if negb (initialized s) then Throw not_initialized
  else
    let token :=
      {| id := tokenId;
         type := if decide (type = "") then "generic" else type;
         value := tokenValue;
         payload := payload;
         createdAt := now;
         expiresAt := now + expiresIn;
         valid := true |} in
    Return ({| tokens := <[tokenId := token]> (tokens s);
               initialized := initialized s |},
            mkIssued tokenId tokenValue
              (TokenService.type token) (expiresAt token)).

Definition validateToken (now : Z) (tokenId : string) (s : t)
    : Result (t * bool) :=
  if negb (initialized s) then Throw not_initialized
  else
    match tokens s !! tokenId with
    | None => Return (s, false)
    | Some token =>
        if now >? expiresAt token then
          Return ({| tokens := <[tokenId := invalidate token]> (tokens s);
                     initialized := initialized s |}, false)
        else Return (s, valid token)
    end.

Definition getToken (now : Z) (tokenId : string) (s : t)
    : Result (t * option Details) :=
  if negb (initialized s) then Throw not_initialized
  else
    match tokens s !! tokenId with
    | None => Return (s, None)
    | Some token =>
        match validateToken now tokenId s with
        | Throw m => Throw m
        | Return (s', v) =>
            Return (s', Some (mkDetails (id token) (type token)
                                (payload token) (createdAt token)
                                (expiresAt token) v))
        end
    end.

Definition revokeToken (tokenId : string) (s : t) : Result (t * bool) :=
  if negb (initialized s) then Throw not_initialized
  else
    match tokens s !! tokenId with
    | None => Return (s, false)
    | Some token =>
        Return ({| tokens := <[tokenId := invalidate token]> (tokens s);
                   initialized := initialized s |}, true)
    end.

Definition expired (now : Z) (tok : Token) : bool := now >? expiresAt tok.

Definition cleanupExpiredTokens (now : Z) (s : t) : Result (t * nat) :=
  if negb (initialized s) then Throw not_initialized
  else
    let kept := filter (λ kv, expired now kv.2 = false) (tokens s) in
    Return ({| tokens := kept; initialized := initialized s |},
            (size (tokens s) - size kept)%nat).

(** A later call on the store, used to state what survives arbitrary
    further use. *)
Inductive Call :=
| CreateToken (now : Z) (tokenId tokenValue type : string)
    (payload : Obj) (expiresIn : Z)
| ValidateToken (now : Z) (tokenId : string)
| GetToken (now : Z) (tokenId : string)
| RevokeToken (tokenId : string)
| CleanupExpiredTokens (now : Z).

Definition call (c : Call) (s : t) : t :=
  match c with
  | CreateToken now i v ty p e => state_of s (createToken now i v ty p e s)
  | ValidateToken now i => state_of s (validateToken now i s)
  | GetToken now i => state_of s (getToken now i s)
  | RevokeToken i => state_of s (revokeToken i s)
  | CleanupExpiredTokens now => state_of s (cleanupExpiredTokens now s)
  end.

Definition calls (cs : list Call) (s : t) : t :=
  foldl (λ s c, call c s) s cs.

(** The call stores a newly created token under [tokenId]. *)
Definition mints (tokenId : string) (c : Call) : Prop :=
  match c with
  | CreateToken _ i _ _ _ _ => i = tokenId
  | _ => False
  end.

(** The token under [tokenId], if there is one, has [valid = false]. *)
Definition dead (tokenId : string) (s : t) : Prop :=
  ∀ token, tokens s !! tokenId = Some token → valid token = false.

(** The object returned by [getStatus]; the method has no
    initialization check. *)
Record Status := mkStatus {
  status_initialized : bool;
  totalTokens : nat;
  validTokens : nat
}.

(** [t.valid && Date.now() <= t.expiresAt] *)
Definition live (now : Z) (tok : Token) : Prop :=
  valid tok = true ∧ now ≤ expiresAt tok.

Definition getStatus (now : Z) (s : t) : Status :=
  {| status_initialized := initialized s;
     totalTokens := size (tokens s);
     validTokens := size (filter (λ kv, live now kv.2) (tokens s)) |}.

End TokenService.

(** * AuthService (lines 6-288 of the auth module) *)
Module AuthService.

(** A user object. [ref] is the identity of the JS object: [===] on
    two user objects compares [ref], never the fields. *)
Record User := mkUser {
  ref : nat;
  id : string;
  identifier : string;
  authMethod : string;
  authenticatedAt : Z
}.

Record Session := mkSession {
  user : User;
  tokenId : string;
  createdAt : Z
}.

(** [tokenService] is the reference to the shared token store ([None]
    is [null]); [localStorage] is [None] where the environment has no
    such object, and otherwise holds the ["pewpi_session"] slot;
    [nextRef] is the next fresh object identity. *)
Record t := mk {
  initialized : bool;
  currentUser : option User;
  sessions : gmap string Session;
  tokenService : option TokenService.t;
  localStorage : option (option string);
  nextRef : nat
}.

Inductive AuthResult :=
| AuthOk (user : User) (sessionToken : TokenService.Issued)
| AuthFailed (error : string).

Definition not_initialized : string := "[AuthService] Not initialized".

(** [error.message] of the TypeError raised by a method call on
    [null] (V8 wording). *)
Definition null_store (method : string) : string :=
  "Cannot read properties of null (reading '" +:+ method +:+ "')".

(** The shape check of [_validateCredentials]; [String.length] counts
    the code units of the credential. *)
Definition _validateCredentials (identifier credential method : string)
    : bool :=
  if bool_decide (identifier = "") || bool_decide (credential = "")
  then false
  else if bool_decide (method = "wallet") then
    bool_decide (32 ≤ String.length credential)%nat
  else if bool_decide (method = "token") then
    String.prefix "tok_" credential
  else
    bool_decide (8 ≤ String.length credential)%nat.

Definition _persistSession (tokenId : string) (s : t) : t :=
  {| initialized := initialized s; currentUser := currentUser s;
     sessions := sessions s; tokenService := tokenService s;
     localStorage :=
       match localStorage s with
       | Some _ => Some (Some tokenId)
       | None => None
       end;
     nextRef := nextRef s |}.

(** [userId], [tokenId] and [tokenValue] are the results of
    [_generateUserId()], [_generateTokenId()] and
    [_generateTokenValue()]. Everything after the credential check
    runs inside [try]: an error of the token store becomes a failed
    result carrying its message. *)
Definition authenticate (now : Z) (userId tokenId tokenValue : string)
    (identifier credential method : string) (s : t)
    : Result (t * AuthResult) :=
  if negb (initialized s) then Throw not_initialized
  else if negb (_validateCredentials identifier credential method) then
    Return (s, AuthFailed "Invalid credentials")
  else
    let user :=
      {| ref := nextRef s; id := userId; identifier := identifier;
         authMethod := method; authenticatedAt := now |} in
    match tokenService s with
    | None => Return (s, AuthFailed (null_store "createToken"))
    | Some store =>
        let payload : Obj :=
          <["userId" := userId]>
            (<["identifier" := identifier]> ({["method" := method]})) in
        match TokenService.createToken now tokenId tokenValue
                "session" payload 86400000 store with
        | Throw m => Return (s, AuthFailed m)
        | Return (store', sessionToken) =>
            let key := TokenService.issued_id sessionToken in
            let s' :=
              {| initialized := initialized s;
                 currentUser := Some user;
                 sessions :=
                   <[key := {| user := user; tokenId := key;
                               createdAt := now |}]> (sessions s);
                 tokenService := Some store';
                 localStorage := localStorage s;
                 nextRef := S (nextRef s) |} in
            Return (_persistSession key s', AuthOk user sessionToken)
        end
    end.

Definition validateSession (now : Z) (tokenId : string) (s : t)
    : Result (t * bool) :=
  if negb (initialized s) then Throw not_initialized
  else
    match sessions s !! tokenId with
    | None => Return (s, false)
    | Some _ =>
        match tokenService s with
        | None => Throw (null_store "validateToken")
        | Some store =>
            match TokenService.validateToken now tokenId store with
            | Throw m => Throw m
            | Return (store', v) =>
                Return ({| initialized := initialized s;
                           currentUser := currentUser s;
                           sessions := sessions s;
                           tokenService := Some store';
                           localStorage := localStorage s;
                           nextRef := nextRef s |}, v)
            end
        end
    end.

Definition getCurrentUser (s : t) : Result (option User) :=
  if negb (initialized s) then Throw not_initialized
  else Return (currentUser s).

(** [session.user === this.currentUser]. *)
Definition same_user (current : option User) (session : Session) : bool :=
  match current with
  | Some u => bool_decide (ref (user session) = ref u)
  | None => false
  end.

(** One round of the [for ... of this.sessions.entries()] loop of
    [logout], on a store that does not throw. *)
Definition logout_round (current : option User)
    (acc : TokenService.t * gmap string Session)
    (entry : string * Session) : TokenService.t * gmap string Session :=
  if same_user current entry.2 then
    (state_of acc.1 (TokenService.revokeToken entry.1 acc.1),
     delete entry.1 acc.2)
  else acc.

Definition _clearPersistedSession (s : t) : t :=
  {| initialized := initialized s; currentUser := currentUser s;
     sessions := sessions s; tokenService := tokenService s;
     localStorage :=
       match localStorage s with
       | Some _ => Some None
       | None => None
       end;
     nextRef := nextRef s |}.

(** [logout]: the loop runs inside [try]; the first [revokeToken]
    that throws (store missing or not initialized) is caught, nothing
    has been changed by then, and [false] is returned. *)
Definition logout (s : t) : Result (t * bool) :=
  if negb (initialized s) then Throw not_initialized
  else
    let entries := map_to_list (sessions s) in
    let usable :=
      match tokenService s with
      | Some store => TokenService.initialized store
      | None => false
      end in
    if existsb (λ e, same_user (currentUser s) e.2) entries
       && negb usable
    then Return (s, false)
    else
      let store0 := default TokenService.new (tokenService s) in
      let '(store', sessions') :=
        foldl (logout_round (currentUser s)) (store0, sessions s) entries in
      Return (_clearPersistedSession
                {| initialized := initialized s;
                   currentUser := None;
                   sessions := sessions';
                   tokenService :=
                     match tokenService s with
                     | Some _ => Some store'
                     | None => None
                     end;
                   localStorage := localStorage s;
                   nextRef := nextRef s |}, true).

End AuthService.

(** * MachinesAdapter (adapter.js, lines 6-313)

    The registry keeps its machines in [Map]s, but the [states] of a
    machine and the [on] table of a state are plain objects taken
    from the configuration, and the code indexes them as [obj[key]].
    Such a lookup finds an own property of the object and, failing
    that, a member of [Object.prototype]. An inherited member is a
    function (for ["__proto__"] the prototype object itself): it is
    truthy and has no [on], no [target] and no [actions]. So a state
    named like such a member counts as declared, with no table, and
    an event named like one is accepted by every table, with target
    [undefined].

    Configurations are taken to be object literals or parsed JSON,
    with state names and targets that are strings, on an engine whose
    [Object.prototype] is as shipped.

    What an action does is up to the caller of the registry.
    [transition] describes the call for actions that only change the
    context they are given, run to its end before anything else
    touches the registry, with contexts kept by value. A transition
    without actions has no [await] and changes no context, so for it
    nothing is assumed; the properties of transitions are stated for
    that case. *)
Module MachinesAdapter.

(** An entry of a transition's [actions]: a callable, invoked as
    [action(machine.context, eventData)], which leaves the context it
    was given in some new state and either returns or throws; a
    string, which is only logged; anything else, which is skipped. *)
Inductive Action :=
| ActionFunction (run : Obj → Obj → Obj * bool)
| ActionString (tag : string)
| ActionOther.

(** The value stored under an event name in a state's [on] table:
    a state name, or an object with a [target] and optional
    [actions] (a single action is the one-element list). *)
Inductive Transition :=
| Target (state : string)
| WithActions (target : string) (actions : option (list Action)).

(** The [on] table of a state, as the properties that define it, in
    order. As in an object literal, a key that is defined again keeps
    its place and takes the later value. *)
Record StateConfig := mkStateConfig {
  on : option (list (string * Transition))
}.

(** The state a machine is in: the name of a state, or [undefined]. *)
Inductive StateName :=
| State (name : string)
| Undefined.

Record Machine := mkMachine {
  id : string;
  name : string;
  initialState : string;
  currentState : StateName;
  states : gmap string StateConfig;
  context : Obj;
  createdAt : Z
}.

Record Config := mkConfig {
  config_name : option string;
  config_initialState : string;
  config_states : option (gmap string StateConfig);
  config_context : option Obj
}.

Record TransitionRecord := mkRecord {
  r_machineId : string;
  r_from : StateName;
  r_to : StateName;
  r_event : string;
  r_eventData : Obj;
  r_timestamp : Z
}.

Record t := mk {
  initialized : bool;
  machines : gmap string Machine;
  current : gmap string StateName;       (* this.states *)
  transitions : gmap string (list TransitionRecord)
}.

(** The object returned by [getMachine]. *)
Record Snapshot := mkSnapshot {
  s_id : string;
  s_name : string;
  s_currentState : StateName;
  s_context : Obj;
  s_availableTransitions : list string
}.

Inductive TransitionResult :=
| Failed (currentState : StateName) (error : string)
| Moved (previousState currentState : StateName) (event : string).

Definition not_initialized : string := "[MachinesAdapter] Not initialized".
Definition machine_not_found (machineId : string) : string :=
  "[MachinesAdapter] Machine not found: " +:+ machineId.
Definition invalid_state (state : string) : string :=
  "[MachinesAdapter] Invalid state: " +:+ state.

Definition new : t :=
  {| initialized := false; machines := ∅; current := ∅; transitions := ∅ |}.

Definition initialize (a : t) : t * bool :=
  if initialized a then (a, true)
  else ({| initialized := true; machines := ∅; current := ∅;
           transitions := ∅ |}, true).

(** ** Property lookup on a plain object *)

(** The names of the members of [Object.prototype]. *)
Definition prototype_members : list string :=
  ["constructor"; "__defineGetter__"; "__defineSetter__"; "hasOwnProperty";
   "__lookupGetter__"; "__lookupSetter__"; "isPrototypeOf";
   "propertyIsEnumerable"; "toString"; "valueOf"; "__proto__";
   "toLocaleString"].

Definition inherited (key : string) : bool :=
  bool_decide (key ∈ prototype_members).

(** What [obj[key]] finds, when it finds something. *)
Inductive Found (V : Type) : Type :=
| Own (value : V)
| Inherited.
Arguments Own {V} value.
Arguments Inherited {V}.

(** [obj[key]] on an object with the given own properties. *)
Definition property {V} (own : gmap string V) (key : string)
    : option (Found V) :=
  match own !! key with
  | Some value => Some (Own value)
  | None => if inherited key then Some Inherited else None
  end.

(** The key under which a state is looked up, and the text it has in
    a message: [undefined] reads ["undefined"]. *)
Definition key_of (state : StateName) : string :=
  match state with
  | State name => name
  | Undefined => "undefined"
  end.

(** The own properties of an [on] table: of the values defined for a
    key the last one counts. *)
Definition own (table : list (string * Transition))
    : gmap string Transition :=
  list_to_map (reverse table).

(** ** [Object.keys]

    The keys that are array indices come first, in ascending order,
    then the other keys in the order of their creation. *)

Definition digit (c : Ascii.ascii) : option N :=
  let n := Ascii.N_of_ascii c in
  if ((48 <=? n) && (n <=? 57))%N then Some (n - 48)%N else None.

Fixpoint digits (acc : N) (s : string) : option N :=
  match s with
  | EmptyString => Some acc
  | String c rest =>
      match digit c with
      | Some d => digits (10 * acc + d)%N rest
      | None => None
      end
  end.

(** The number a key stands for, if the key is the canonical decimal
    form of an integer from 0 to 2^32 - 2. *)
Definition array_index (key : string) : option N :=
  match key with
  | EmptyString => None
  | String c rest =>
      if bool_decide (digit c = Some 0%N) && negb (bool_decide (rest = ""))
      then None
      else
        match digits 0 key with
        | Some n => if (n <=? 4294967294)%N then Some n else None
        | None => None
        end
  end.

Fixpoint first_occurrences (keys : list string) : list string :=
  match keys with
  | [] => []
  | key :: rest => key :: filter (λ k, k ≠ key) (first_occurrences rest)
  end.

(** The order of the keys that are array indices. *)
Definition by_index (a b : N * string) : Prop := (a.1 ≤ b.1)%N.

#[global] Instance by_index_dec (a b : N * string)
    : Decision (by_index a b) := decide (a.1 ≤ b.1)%N.

Definition own_keys {V} (props : list (string * V)) : list string :=
  let keys := first_occurrences props.*1 in
  (merge_sort by_index
     (omap (λ key, (λ n, (n, key)) <$> array_index key) keys)).*2
  ++ filter (λ key, array_index key = None) keys.

(** ** The methods *)

(** [Object.keys(stateConfig.on)] of the current state. *)
Definition _getAvailableTransitions (machineId : string) (a : t)
    : list string :=
  match machines a !! machineId with
  | None => []
  | Some machine =>
      match property (states machine) (key_of (currentState machine)) with
      | Some (Own {| on := Some table |}) => own_keys table
      | _ => []
      end
  end.

Definition getMachine (machineId : string) (a : t)
    : Result (option Snapshot) :=
  if negb (initialized a) then Throw not_initialized
  else
    match machines a !! machineId with
    | None => Return None
    | Some machine =>
        Return (Some (mkSnapshot (id machine) (name machine)
                        (currentState machine) (context machine)
                        (_getAvailableTransitions machineId a)))
    end.

(** [x || fallback] on an optional string: absent and empty are both
    falsy. *)
Definition or_string (x : option string) (fallback : string) : string :=
  match x with
  | Some s => if decide (s = "") then fallback else s
  | None => fallback
  end.

Definition registerMachine (now : Z) (machineId : string) (config : Config)
    (a : t) : Result (t * option Snapshot) :=
  if negb (initialized a) then Throw not_initialized
  else
    let machine :=
      {| id := machineId;
         name := or_string (config_name config) machineId;
         initialState := config_initialState config;
         currentState := State (config_initialState config);
         states := default ∅ (config_states config);
         context := default ∅ (config_context config);
         createdAt := now |} in
    let a' :=
      {| initialized := initialized a;
         machines := <[machineId := machine]> (machines a);
         current := <[machineId := currentState machine]> (current a);
         transitions := transitions a |} in
    match getMachine machineId a' with
    | Throw m => Throw m
    | Return snapshot => Return (a', snapshot)
    end.

(** [_executeActions]: actions run in order on the machine's context;
    an action that throws is caught and the loop goes on with the
    context as that action left it. *)
Fixpoint _executeActions (context : Obj) (actions : list Action)
    (eventData : Obj) : Obj :=
  match actions with
  | [] => context
  | ActionFunction run :: rest =>
      _executeActions (run context eventData).1 rest eventData
  | _ :: rest => _executeActions context rest eventData
  end.

(** [stateConfig.on && stateConfig.on[event]] where it is truthy, for
    the [stateConfig] that [machine.states[currentState]] found. An
    own entry that is the empty string is falsy. *)
Definition allowed (stateConfig : Found StateConfig) (event : string)
    : option (Found Transition) :=
  match stateConfig with
  | Inherited => None
  | Own config =>
      match on config with
      | None => None
      | Some table =>
          match property (own table) event with
          | Some (Own (Target "")) => None
          | found => found
          end
      end
  end.

(** [typeof transition === 'string' ? transition : transition.target] *)
Definition target_of (transition : Found Transition) : StateName :=
  match transition with
  | Own (Target state) => State state
  | Own (WithActions target _) => State target
  | Inherited => Undefined
  end.

(** The actions run for a transition: those of an entry that is an
    object with truthy [actions]. *)
Definition actions_of (transition : Found Transition)
    : option (list Action) :=
  match transition with
  | Own (WithActions _ (Some actions)) => Some actions
  | _ => None
  end.

Definition with_context (machine : Machine) (context : Obj) : Machine :=
  {| id := id machine; name := name machine;
     initialState := initialState machine;
     currentState := currentState machine;
     states := states machine; context := context;
     createdAt := createdAt machine |}.

Definition with_state (machine : Machine) (state : StateName) : Machine :=
  {| id := id machine; name := name machine;
     initialState := initialState machine;
     currentState := state;
     states := states machine; context := context machine;
     createdAt := createdAt machine |}.

Definition transition (now : Z) (machineId event : string) (eventData : Obj)
    (a : t) : Result (t * TransitionResult) :=
  if negb (initialized a) then Throw not_initialized
  else
    match machines a !! machineId with
    | None => Throw (machine_not_found machineId)
    | Some machine =>
        let currentState := currentState machine in
        match property (states machine) (key_of currentState) with
        | None => Throw (invalid_state (key_of currentState))
        | Some stateConfig =>
            match allowed stateConfig event with
            | None => Return (a, Failed currentState "Invalid transition")
            | Some transition =>
                let targetState := target_of transition in
                let machine1 :=
                  match actions_of transition with
                  | Some actions =>
                      with_context machine
                        (_executeActions (context machine) actions eventData)
                  | None => machine
                  end in
                let previousState := MachinesAdapter.currentState machine1 in
                let machine2 := with_state machine1 targetState in
                let record :=
                  mkRecord machineId previousState targetState event
                    eventData now in
                Return
                  ({| initialized := initialized a;
                      machines := <[machineId := machine2]> (machines a);
                      current := <[machineId := targetState]> (current a);
                      transitions :=
                        <[machineId :=
                            default [] (transitions a !! machineId)
                              ++ [record]]> (transitions a) |},
                   Moved previousState targetState event)
            end
        end
    end.

Definition getCurrentState (machineId : string) (a : t)
    : Result (option StateName) :=
  if negb (initialized a) then Throw not_initialized
  else Return (currentState <$> machines a !! machineId).

Definition getContext (machineId : string) (a : t) : Result (option Obj) :=
  if negb (initialized a) then Throw not_initialized
  else Return (context <$> machines a !! machineId).

(** [{...machine.context, ...contextUpdates}]. *)
Definition updateContext (machineId : string) (contextUpdates : Obj) (a : t)
    : Result (t * bool) :=
  if negb (initialized a) then Throw not_initialized
  else
    match machines a !! machineId with
    | None => Return (a, false)
    | Some machine =>
        Return ({| initialized := initialized a;
                   machines :=
                     <[machineId :=
                         with_context machine
                           (contextUpdates ∪ context machine)]> (machines a);
                   current := current a;
                   transitions := transitions a |}, true)
    end.

(** [history.slice(start)]: a negative [start] counts from the end,
    and either way it is clamped to the array. *)
Definition slice {A} (start : Z) (history : list A) : list A :=
  let len := Z.of_nat (length history) in
  let from := if start <? 0 then Z.max (len + start) 0
              else Z.min start len in
  drop (Z.to_nat from) history.

Definition getTransitionHistory (machineId : string) (limit : Z) (a : t)
    : Result (list TransitionRecord) :=
  if negb (initialized a) then Throw not_initialized
  else Return (slice (- limit) (default [] (transitions a !! machineId))).

Definition removeMachine (machineId : string) (a : t) : Result (t * bool) :=
  if negb (initialized a) then Throw not_initialized
  else
    match machines a !! machineId with
    | Some _ =>
        Return ({| initialized := initialized a;
                   machines := delete machineId (machines a);
                   current := delete machineId (current a);
                   transitions := delete machineId (transitions a) |}, true)
    | None => Return (a, false)
    end.

(** The object returned by [getStatus]; the method has no
    initialization check. [machineStates] is a plain object filled by
    assignment: [machineStates["__proto__"] = state] goes to the
    setter of [Object.prototype], which ignores a value that is not
    an object, so a machine of that name is not listed. *)
Record Status := mkStatus {
  status_initialized : bool;
  totalMachines : nat;
  machineStates : gmap string StateName
}.

Definition getStatus (a : t) : Status :=
  {| status_initialized := initialized a;
     totalMachines := size (machines a);
     machineStates := delete "__proto__" (currentState <$> machines a) |}.

(** A call that changes the registry, used to state what holds after
    arbitrary use. *)
Inductive Call :=
| CallRegisterMachine (now : Z) (machineId : string) (config : Config)
| CallTransition (now : Z) (machineId event : string) (eventData : Obj)
| CallUpdateContext (machineId : string) (contextUpdates : Obj)
| CallRemoveMachine (machineId : string).

Definition call (c : Call) (a : t) : t :=
  match c with
  | CallRegisterMachine now machineId config =>
      state_of a (registerMachine now machineId config a)
  | CallTransition now machineId event eventData =>
      state_of a (transition now machineId event eventData a)
  | CallUpdateContext machineId contextUpdates =>
      state_of a (updateContext machineId contextUpdates a)
  | CallRemoveMachine machineId => state_of a (removeMachine machineId a)
  end.

Definition calls (cs : list Call) (a : t) : t :=
  foldl (λ a c, call c a) a cs.

(** The three maps of the registry agree: [this.states] holds the
    current state of exactly the registered machines, a machine is
    stored under its own id, history is kept only for registered
    machines, and every record is filed under the machine it names. *)
Record coherent (a : t) : Prop := {
  coherent_states :
    ∀ machineId, current a !! machineId
                   = currentState <$> machines a !! machineId;
  coherent_ids :
    ∀ machineId machine,
      machines a !! machineId = Some machine → id machine = machineId;
  coherent_history :
    ∀ machineId history,
      transitions a !! machineId = Some history →
      is_Some (machines a !! machineId) ∧
      Forall (λ record, r_machineId record = machineId) history
}.

(** An entry without truthy [actions]: the transition it allows runs
    no [await]. *)
Definition immediate (transition : Transition) : bool :=
  match transition with
  | WithActions _ (Some _) => false
  | _ => true
  end.

(** States none of whose tables carries actions. *)
Definition action_free (states : gmap string StateConfig) : bool :=
  forallb (λ state : string * StateConfig,
             forallb (λ entry : string * Transition, immediate entry.2)
               (default [] (on state.2)))
    (map_to_list states).

(** A call that registers no machine with actions. *)
Definition registers_no_actions (c : Call) : bool :=
  match c with
  | CallRegisterMachine _ _ config =>
      action_free (default ∅ (config_states config))
  | _ => true
  end.

End MachinesAdapter.

(** A state name is written for the state of that name. *)
Coercion MachinesAdapter.State : string >-> MachinesAdapter.StateName.


(** * IntegrationListener (lines 441-695 of the listener module)

    The bus is asynchronous: [emit], [_processQueue] and [_processEvent]
    suspend at every [await], and other code (further [emit], [on] and
    [off] calls) runs in between. The embedding makes the suspended
    activation of [_processQueue] part of the state ([frame]) and
    resumes it one step at a time ([tick]); calls made from outside and
    calls made by a running handler are the same [Call]s. Steps are
    finer than the suspension points of the code (the activation can be
    overtaken between any two of them), so every interleaving the code
    admits is an interleaving of steps. In particular the synchronous
    part of an [emit] that starts the drain is that [emit] followed by
    the resumptions up to the first handler call.

    An [emit] is observed as returned where it has nothing left to do:
    when its [_processQueue] call returns at once, or, for the [emit]
    that started the drain, when the drain ends.

    [_generateListenerId()] and [_generateEventId()] are taken to return
    identifiers that were not returned before: the n-th listener
    registered has id n and the n-th event emitted has id n, so ids
    also tell the order of registration and of emission. The fields
    [registeredAt] and [timestamp] are never read and are left out.
    [clearListeners] is not one of the [Call]s that the steps
    interleave; without it the array stored under an event type is
    never replaced by another array. *)
Module IntegrationListener.

Record Event := mkEvent {
  event_type : string;
  event_data : Obj;
  event_id : nat
}.

(** The [options] argument of [on]. *)
Record Options := mkOptions {
  options_once : option bool;
  options_priority : option Z
}.

#[local] Set Warnings "-register-all".

(** A call on the bus. A handler is known by what it does to the bus
    when invoked with an event: the calls it makes, in order, and
    whether it then throws ([true]) or returns. *)
Inductive Call :=
| Emit (eventType : string) (eventData : Obj)
| On (eventType : string) (handler : Event → list Call * bool)
    (options : Options)
| Off (listenerId : nat).

Definition Handler : Type := Event → list Call * bool.

Record Listener := mkListener {
  id : nat;
  eventType : string;
  handler : Handler;
  once : bool;          (* options.once *)
  priority : Z          (* options.priority *)
}.

(** What an observer of the bus sees: a handler being invoked for an
    event, and the [emit] call that queued an event returning. *)
Inductive Obs :=
| Invoked (listenerId eventId : nat)
| Returned (eventId : nat).

(** Where the one activation of [_processQueue] stands. *)
Inductive Frame :=
| Idle
    (* no activation *)
| AtWhile
    (* line 571, about to test [eventQueue.length > 0] *)
| ForOf (event : Event) (index : nat) (toRemove : list nat)
    (* line 595, about to take element [index] of the array *)
| InHandler (event : Event) (index : nat) (toRemove : list nat)
    (listener : Listener) (pending : list Call) (raises : bool).
    (* line 597, inside [listener.handler(event.data, event)] *)

Record t := mk {
  initialized : bool;
  listeners : list (string * list Listener);
  eventQueue : list Event;
  processing : bool;
  frame : Frame;
  owner : nat;           (* the event whose [emit] awaits the activation *)
  nextListener : nat;
  nextEvent : nat;
  trace : list Obs       (* oldest first *)
}.

Definition not_initialized : string :=
  "[IntegrationListener] Not initialized".

Definition new : t :=
  {| initialized := false; listeners := []; eventQueue := [];
     processing := false; frame := Idle; owner := 0%nat;
     nextListener := 0%nat; nextEvent := 0%nat; trace := [] |}.

Definition initialize (s : t) : t * bool :=
  if initialized s then (s, true)
  else ({| initialized := true; listeners := []; eventQueue := [];
           processing := processing s; frame := frame s; owner := owner s;
           nextListener := nextListener s; nextEvent := nextEvent s;
           trace := trace s |}, true).

(** ** The listener table, a [Map] in insertion order *)

Fixpoint get {V} (key : string) (entries : list (string * V)) : option V :=
  match entries with
  | [] => None
  | (k, v) :: rest => if decide (k = key) then Some v else get key rest
  end.

Fixpoint alter {V} (f : V → V) (key : string) (entries : list (string * V))
    : list (string * V) :=
  match entries with
  | [] => []
  | (k, v) :: rest =>
      if decide (k = key) then (k, f v) :: rest
      else (k, v) :: alter f key rest
  end.

(** ** [Array.prototype.sort]

    The sort is stable (ECMAScript 2019). For a comparator that is a
    consistent ordering the result of a stable sort is determined, so
    it is computed here by insertion: an element goes in front of the
    first element it does not have to follow. *)
Fixpoint insert_by {A} (compare : A → A → Z) (x : A) (l : list A) : list A :=
  match l with
  | [] => [x]
  | y :: rest =>
      if compare x y <=? 0 then x :: l else y :: insert_by compare x rest
  end.

Definition sort {A} (compare : A → A → Z) (l : list A) : list A :=
  foldr (insert_by compare) [] l.

(** [(a, b) => b.options.priority - a.options.priority] *)
Definition by_priority (a b : Listener) : Z := priority b - priority a.

(** ** Field updates *)

Definition set_listeners (entries : list (string * list Listener)) (s : t)
    : t :=
  {| initialized := initialized s; listeners := entries;
     eventQueue := eventQueue s; processing := processing s;
     frame := frame s; owner := owner s; nextListener := nextListener s;
     nextEvent := nextEvent s; trace := trace s |}.

Definition set_eventQueue (queue : list Event) (s : t) : t :=
  {| initialized := initialized s; listeners := listeners s;
     eventQueue := queue; processing := processing s;
     frame := frame s; owner := owner s; nextListener := nextListener s;
     nextEvent := nextEvent s; trace := trace s |}.

Definition set_frame (f : Frame) (s : t) : t :=
  {| initialized := initialized s; listeners := listeners s;
     eventQueue := eventQueue s; processing := processing s;
     frame := f; owner := owner s; nextListener := nextListener s;
     nextEvent := nextEvent s; trace := trace s |}.

Definition observe (o : Obs) (s : t) : t :=
  {| initialized := initialized s; listeners := listeners s;
     eventQueue := eventQueue s; processing := processing s;
     frame := frame s; owner := owner s; nextListener := nextListener s;
     nextEvent := nextEvent s; trace := trace s ++ [o] |}.

(** ** The methods *)

Definition on (eventType : string) (handler : Handler) (options : Options)
    (s : t) : Result (t * nat) :=
  if negb (initialized s) then Throw not_initialized
  else
    let listenerId := nextListener s in
    let listener :=
      {| id := listenerId; eventType := eventType; handler := handler;
         once := default false (options_once options);
         priority := default 0 (options_priority options) |} in
    let entries :=
      match get eventType (listeners s) with
      | Some _ => listeners s
      | None => listeners s ++ [(eventType, [])]
      end in
    let entries :=
      alter (λ array, sort by_priority (array ++ [listener]))
        eventType entries in
    Return ({| initialized := initialized s; listeners := entries;
               eventQueue := eventQueue s; processing := processing s;
               frame := frame s; owner := owner s;
               nextListener := S (nextListener s);
               nextEvent := nextEvent s; trace := trace s |},
            listenerId).

(** The loop of [off] over the entries of the table: the first array
    that holds a listener with this id loses it. *)
Fixpoint off_entries (listenerId : nat)
    (entries : list (string * list Listener))
    : option (list (string * list Listener)) :=
  match entries with
  | [] => None
  | (eventType, array) :: rest =>
      match list_find (λ l, id l = listenerId) array with
      | Some (index, _) => Some ((eventType, delete index array) :: rest)
      | None => cons (eventType, array) <$> off_entries listenerId rest
      end
  end.

Definition off (listenerId : nat) (s : t) : Result (t * bool) :=
  if negb (initialized s) then Throw not_initialized
  else
    match off_entries listenerId (listeners s) with
    | Some entries => Return (set_listeners entries s, true)
    | None => Return (s, false)
    end.

(** [_processQueue], called by the [emit] of event [caller]: either it
    returns at once, and so does that [emit], or it becomes the
    activation and that [emit] waits for it. *)
Definition _processQueue (caller : nat) (s : t) : t :=
  if processing s || bool_decide (eventQueue s = []) then
    observe (Returned caller) s
  else
    {| initialized := initialized s; listeners := listeners s;
       eventQueue := eventQueue s; processing := true;
       frame := AtWhile; owner := caller; nextListener := nextListener s;
       nextEvent := nextEvent s; trace := trace s |}.

Definition emit (eventType : string) (eventData : Obj) (s : t) : Result t :=
  if negb (initialized s) then Throw not_initialized
  else
    let event := mkEvent eventType eventData (nextEvent s) in
    Return (_processQueue (event_id event)
              {| initialized := initialized s; listeners := listeners s;
                 eventQueue := eventQueue s ++ [event];
                 processing := processing s; frame := frame s;
                 owner := owner s; nextListener := nextListener s;
                 nextEvent := S (nextEvent s); trace := trace s |}).

Definition getListeners (eventType : string) (s : t)
    : Result (list Listener) :=
  if negb (initialized s) then Throw not_initialized
  else Return (default [] (get eventType (listeners s))).

(** The state a call leaves behind; a call that throws leaves the
    state as it was. *)
Definition perform (c : Call) (s : t) : t :=
  match c with
  | Emit eventType eventData =>
      match emit eventType eventData s with Return s' => s' | Throw _ => s end
  | On eventType handler options =>
      match on eventType handler options s with
      | Return (s', _) => s'
      | Throw _ => s
      end
  | Off listenerId =>
      match off listenerId s with Return (s', _) => s' | Throw _ => s end
  end.

(** The activation of [_processQueue] (with the [_processEvent] it
    awaits) moves on to its next suspension point. *)
Definition tick (s : t) : t :=
  match frame s with
  | Idle => s
  | AtWhile =>
      match eventQueue s with
      | [] =>
          observe (Returned (owner s))
            {| initialized := initialized s; listeners := listeners s;
               eventQueue := eventQueue s; processing := false;
               frame := Idle; owner := owner s;
               nextListener := nextListener s; nextEvent := nextEvent s;
               trace := trace s |}
      | event :: rest =>
          let s := set_eventQueue rest s in
          match get (event_type event) (listeners s) with
          | None | Some [] => s
          | Some _ => set_frame (ForOf event 0 []) s
          end
      end
  | ForOf event index toRemove =>
      match default [] (get (event_type event) (listeners s)) !! index with
      | Some listener =>
          let '(calls, raises) := handler listener event in
          observe (Invoked (id listener) (event_id event))
            (set_frame (InHandler event index toRemove listener calls raises)
               s)
      | None =>
          foldl (λ s listenerId, perform (Off listenerId) s)
            (set_frame AtWhile s) toRemove
      end
  | InHandler event index toRemove listener (c :: pending) raises =>
      perform c
        (set_frame (InHandler event index toRemove listener pending raises)
           s)
  | InHandler event index toRemove listener [] raises =>
      let toRemove :=
        if raises then toRemove
        else if once listener then toRemove ++ [id listener]
        else toRemove in
      set_frame (ForOf event (S index) toRemove) s
  end.

(** One thing that happens next: a call from outside the bus, or the
    activation being resumed. *)
Inductive Step :=
| Outside (c : Call)
| Resume.

Definition step (x : Step) (s : t) : t :=
  match x with
  | Outside c => perform c s
  | Resume => tick s
  end.

Definition run (xs : list Step) (s : t) : t :=
  foldl (λ s x, step x s) s xs.

(** The bus after the constructor and [initialize()]. *)
Definition fresh : t := (initialize new).1.

(** The events for which handlers were invoked, oldest first. *)
Definition invoked (tr : list Obs) : list (nat * nat) :=
  omap (λ o, match o with
             | Invoked l e => Some (l, e)
             | Returned _ => None
             end) tr.

(** ** Vocabulary for the properties of the bus *)

(** [a] is dispatched before [b]: higher priority first, and among
    equal priorities the one registered first. *)
Definition before (a b : Listener) : Prop :=
  priority b < priority a ∨ (priority a = priority b ∧ (id a < id b)%nat).

(** The event the activation is dispatching, if any. *)
Definition current (f : Frame) : list nat :=
  match f with
  | Idle | AtWhile => []
  | ForOf event _ _ | InHandler event _ _ _ _ _ => [event_id event]
  end.

(** The events emitted and not yet fully dispatched, oldest first. *)
Definition pending (s : t) : list nat :=
  current (frame s) ++ (event_id <$> eventQueue s).

(** Handlers have run for events in the order of emission, and what
    is still pending was emitted later than all of them. *)
Definition fifo (s : t) : Prop :=
  StronglySorted le ((invoked (trace s)).*2 ++ pending s ++ [nextEvent s]).

(** Every array of the table is in dispatch order and holds only
    listeners registered so far. *)
Definition sorted_table (n : nat) (entries : list (string * list Listener))
    : Prop :=
  Forall (λ entry : string * list Listener,
            StronglySorted before entry.2 ∧
            Forall (λ l, (id l < n)%nat) entry.2) entries.

(** The state of a bus that has been initialized and used. *)
Record consistent (s : t) : Prop := {
  consistent_initialized : initialized s = true;
  consistent_fifo : fifo s;
  consistent_processing : processing s = false ↔ frame s = Idle;
  consistent_sorted : sorted_table (nextListener s) (listeners s)
}.

(** The activation is resumed [n] times with nothing else happening
    in between. *)
Definition resumed (n : nat) (s : t) : t := run (replicate n Resume) s.

Definition is_emit (c : Call) : Prop :=
  match c with
  | Emit _ _ => True
  | _ => False
  end.

(** How many times the activation has to be resumed to run the
    [for ... of] loop of [_processEvent] over [array] and be back at
    the [while] test: per listener one step into the handler, one per
    call the handler makes and one out of it, and a last step that
    finds the array exhausted. *)
Definition loop_ticks (event : Event) (array : list Listener) : nat :=
  S (sum_list ((λ l, 2 + length (handler l event).1)%nat <$> array)).

(** The same, from the [while] test that takes the event off the
    queue. *)
Definition dispatch_ticks (event : Event) (array : list Listener) : nat :=
  match array with
  | [] => 1%nat
  | _ => S (loop_ticks event array)
  end.

(** What it means, in a state [s] and for the observations [g] made
    since some earlier moment, that the [emit] of event [e] returned
    only after [e] and everything emitted before it was dispatched:
    once that return has been observed, nothing as old as [e] is
    pending, and no handler is invoked for anything as old as [e]
    from then on. *)
Definition settled (e : nat) (s : t) (g : list Obs) : Prop :=
  (Returned e ∈ g → ∀ p, p ∈ pending s → (e < p)%nat) ∧
  (∀ pre post, g = pre ++ Returned e :: post →
     ∀ l e', Invoked l e' ∈ post → (e < e')%nat).

(** What one step adds to the observations and to the pending
    events. *)
Definition summary (s s' : t) : Prop :=
  ∃ os,
    trace s' = trace s ++ os ∧ (length os ≤ 1)%nat ∧
    (nextEvent s ≤ nextEvent s')%nat ∧
    (∀ l e, Invoked l e ∈ os → e ∈ pending s) ∧
    (∀ e, Returned e ∈ os → e = nextEvent s ∨ pending s' = []) ∧
    (∀ p, p ∈ pending s' → p ∈ pending s ∨ p = nextEvent s).


(** ** Methods and vocabulary beyond the drain *)

(** [this.listeners.delete(eventType)] *)
Fixpoint remove {V} (key : string) (entries : list (string * V))
    : list (string * V) :=
  match entries with
  | [] => []
  | (k, v) :: rest =>
      if decide (k = key) then rest else (k, v) :: remove key rest
  end.

(** [clearListeners(eventType = null)]. An absent argument and the
    empty string are both falsy and both clear every event type. A
    dispatch that is in the middle of an array keeps that array, so
    [tick] describes the bus only as long as this method is not called
    during a dispatch. *)
Definition clearListeners (eventType : option string) (s : t)
    : Result (t * nat) :=
  if negb (initialized s) then Throw not_initialized
  else
    match eventType with
    | Some (String c rest) =>
        let eventType := String c rest in
        match get eventType (listeners s) with
        | Some array =>
            Return (set_listeners (remove eventType (listeners s)) s,
                    length array)
        | None => Return (s, 0%nat)
        end
    | _ =>
        Return (set_listeners [] s,
                sum_list ((λ entry, length entry.2) <$> listeners s))
    end.

(** The object returned by [getStatus]; the method has no
    initialization check. [listenerCounts] is a plain object filled
    by assignment: [listenerCounts["__proto__"] = n] goes to the
    setter of [Object.prototype], which ignores a number, so an event
    type of that name is not listed. *)
Record Status := mkStatus {
  status_initialized : bool;
  totalListeners : nat;
  eventTypes : nat;
  listenerCounts : gmap string nat;
  queuedEvents : nat;
  status_processing : bool
}.

Definition getStatus (s : t) : Status :=
  {| status_initialized := initialized s;
     totalListeners := sum_list ((λ entry, length entry.2) <$> listeners s);
     eventTypes := length (listeners s);
     listenerCounts :=
       delete "__proto__"
         (list_to_map ((λ entry, (entry.1, length entry.2)) <$> listeners s));
     queuedEvents := length (eventQueue s);
     status_processing := processing s |}.

(** The ids of all registered listeners, in table order. *)
Definition table_ids (entries : list (string * list Listener)) : list nat :=
  entries ≫= (λ entry, id <$> entry.2).

(** A bus in which every event type has one array and no two
    registered listeners share an id, as ids that are never reused
    make it. *)
Record distinct (s : t) : Prop := {
  distinct_keys : NoDup (listeners s).*1;
  distinct_ids : NoDup (table_ids (listeners s))
}.

(** The table without the listener of a given id. *)
Definition without (listenerId : nat)
    (entries : list (string * list Listener))
    : list (string * list Listener) :=
  (λ entry, (entry.1, filter (λ l, id l ≠ listenerId) entry.2)) <$> entries.

(** The listeners of [array] that the dispatch of [event] puts on its
    removal list: those registered with [once] whose handler returns. *)
Definition scheduled (event : Event) (array : list Listener)
    : list Listener :=
  filter (λ l, once l = true ∧ (handler l event).2 = false) array.

(** The listeners of [array] that are still registered after the
    dispatch of [event]. *)
Definition surviving (event : Event) (array : list Listener)
    : list Listener :=
  filter (λ l, ¬ (once l = true ∧ (handler l event).2 = false)) array.

Definition observe_all (os : list Obs) (s : t) : t :=
  foldl (λ s o, observe o s) s os.

End IntegrationListener.

(** * WalletUnified (lines 6-424 of the wallet module)

    The wallet is modelled in an environment into which no wallet
    provider is injected: [window] is undefined, or it has neither
    [ethereum] nor [solana] (Node, or a browser without MetaMask and
    Phantom). There [_connectMetaMask] throws, [_connectPhantom] falls
    back to the mock address, the [provider] of a connected wallet is
    [null], [network] is never set, and balances and signatures are
    the mock ones. With a provider every outcome is what the provider
    answers, which the library does not determine.

    The random draws are environment inputs. A string of n random hex
    digits takes its draws [Math.floor(Math.random() * 16)] as a
    function from the position to the number drawn (read mod 16); the
    mock balance [Math.random() * 10] is passed in as a number. The
    numbers that occur as balances are finite and are kept as
    rationals. As for the session coordinator, a call runs to its end
    with no other call in between. *)
Module WalletUnified.

Abbreviation Number := QArith_base.Q.

Definition zero : Number := QArith_base.Qmake 0 1.

(** [this.connectedWallet]; its [provider] is [null] throughout. *)
Record Wallet := mkWallet {
  wallet_type : string;
  wallet_address : string;
  wallet_connectedAt : Z
}.

Record t := mk {
  initialized : bool;
  connectedWallet : option Wallet;
  balance : Number;
  network : option string;
  authService : option AuthService.t
}.

(** The object returned by [connect]. *)
Inductive ConnectResult :=
| Connected (walletType address : string) (balance : Number)
| ConnectFailed (error : string).

(** The object returned by [getWalletInfo]. *)
Record Info := mkInfo {
  info_type : string;
  info_address : string;
  info_balance : Number;
  info_network : option string;
  info_connectedAt : Z
}.

(** The object returned by [getStatus]. *)
Record Status := mkStatus {
  status_initialized : bool;
  status_connected : bool;
  status_walletType : option string;
  status_address : option string;
  status_balance : Number;
  status_network : option string
}.

Definition not_initialized : string := "[WalletUnified] Not initialized".
Definition no_wallet : string := "[WalletUnified] No wallet connected".

Definition new : t :=
  {| initialized := false; connectedWallet := None; balance := zero;
     network := None; authService := None |}.

(** [initialize(authService)]; [None] is a call without a service. *)
Definition initialize (service : option AuthService.t) (s : t) : t * bool :=
  if initialized s then (s, true)
  else ({| initialized := true; connectedWallet := connectedWallet s;
           balance := balance s; network := network s;
           authService := service |}, true).

(** [n.toString(16)] for the [n] of one draw. *)
Definition hex_digit (n : nat) : string :=
  String.substring (n `mod` 16)%nat 1 "0123456789abcdef".

(** [Array(n).fill(0).map(() => Math.floor(Math.random() * 16)
    .toString(16)).join('')] *)
Fixpoint hex_digits (draw : nat → nat) (n : nat) : string :=
  match n with
  | O => ""
  | S k => hex_digits draw k +:+ hex_digit (draw k)
  end.

Definition _generateMockAddress (draw : nat → nat) : string :=
  "0x" +:+ hex_digits draw 40.

(** [_signMessage(message)]: the mock signature does not depend on
    the message. *)
Definition _signMessage (message : string) (draw : nat → nat) : string :=
  "0x" +:+ hex_digits draw 64.

Definition set_balance (value : Number) (s : t) : t :=
  {| initialized := initialized s; connectedWallet := connectedWallet s;
     balance := value; network := network s;
     authService := authService s |}.

Definition set_authService (service : AuthService.t) (s : t) : t :=
  {| initialized := initialized s; connectedWallet := connectedWallet s;
     balance := balance s; network := network s;
     authService := Some service |}.

(** [mockBalance] is the result of [_fetchBalance()]. *)
Definition updateBalance (mockBalance : Number) (s : t)
    : Result (t * Number) :=
  if negb (initialized s) then Throw not_initialized
  else
    match connectedWallet s with
    | None => Throw no_wallet
    | Some _ => Return (set_balance mockBalance s, mockBalance)
    end.

Definition signMessage (message : string) (draw : nat → nat) (s : t)
    : Result string :=
  if negb (initialized s) then Throw not_initialized
  else
    match connectedWallet s with
    | None => Throw no_wallet
    | Some _ => Return (_signMessage message draw)
    end.

(** [connect(walletType)]. [now] is the time of the connection;
    [authNow], [userId], [tokenId] and [tokenValue] are what the
    sign-in reads from the clock and the generators. Everything after
    the initialization check runs inside [try]: an error becomes a
    failed result carrying its message, and what was assigned before
    stays assigned. The result of the sign-in is not looked at. *)
Definition connect (now : Z) (addressDraw : nat → nat)
    (mockBalance : Number) (signatureDraw : nat → nat) (authNow : Z)
    (userId tokenId tokenValue : string) (walletType : string) (s : t)
    : Result (t * ConnectResult) :=
  if negb (initialized s) then Throw not_initialized
  else if bool_decide (walletType = "MetaMask") then
    Return (s, ConnectFailed "MetaMask not available")
  else
    let address := _generateMockAddress addressDraw in
    if bool_decide (address = "") then
      Return (s, ConnectFailed "Failed to connect wallet")
    else
      let s1 :=
        {| initialized := initialized s;
           connectedWallet := Some (mkWallet walletType address now);
           balance := balance s; network := network s;
           authService := authService s |} in
      match updateBalance mockBalance s1 with
      | Throw m => Return (s1, ConnectFailed m)
      | Return (s2, _) =>
          match authService s2 with
          | None => Return (s2, Connected walletType address (balance s2))
          | Some auth =>
              let signature :=
                _signMessage "Authenticate with pewpi-shared"
                  signatureDraw in
              match AuthService.authenticate authNow userId tokenId
                      tokenValue address signature "wallet" auth with
              | Throw m => Return (s2, ConnectFailed m)
              | Return (auth', _) =>
                  Return (set_authService auth' s2,
                          Connected walletType address (balance s2))
              end
          end
      end.

Definition disconnect (s : t) : Result (t * bool) :=
  if negb (initialized s) then Throw not_initialized
  else
    match connectedWallet s with
    | Some _ =>
        Return ({| initialized := initialized s; connectedWallet := None;
                   balance := zero; network := None;
                   authService := authService s |}, true)
    | None => Return (s, true)
    end.

Definition getWalletInfo (s : t) : Result (option Info) :=
  if negb (initialized s) then Throw not_initialized
  else
    Return ((λ wallet,
               mkInfo (wallet_type wallet) (wallet_address wallet)
                 (balance s) (network s) (wallet_connectedAt wallet))
              <$> connectedWallet s).

Definition getStatus (s : t) : Status :=
  {| status_initialized := initialized s;
     status_connected := bool_decide (is_Some (connectedWallet s));
     status_walletType := wallet_type <$> connectedWallet s;
     status_address := wallet_address <$> connectedWallet s;
     status_balance := balance s;
     status_network := network s |}.

End WalletUnified.

(** * Concrete stores, registries and buses used in the examples *)
Module Scenarios.

(** A store holding one token minted at time 1000 that lives for one
    second. *)
Definition store : TokenService.t :=
  state_of TokenService.new
    (TokenService.createToken 1000 "tok_1000_a" "c0ffee" "api" ∅ 1000
       (TokenService.initialize TokenService.new).1).

Definition store_token : TokenService.Token :=
  TokenService.mkToken "tok_1000_a" "api" "c0ffee" ∅ 1000 2000 true.

(** The machine of the specification's example: state "idle" maps
    "START" to "running" and nothing else. *)
Definition idle_running : gmap string MachinesAdapter.StateConfig :=
  {[ "idle" :=
       MachinesAdapter.mkStateConfig
         (Some [("START", MachinesAdapter.Target "running")]);
     "running" :=
       MachinesAdapter.mkStateConfig
         (Some [("STOP", MachinesAdapter.Target "idle")]) ]}.

Definition flow_config : MachinesAdapter.Config :=
  MachinesAdapter.mkConfig None "idle" (Some idle_running) None.

Definition empty_registry : MachinesAdapter.t :=
  (MachinesAdapter.initialize MachinesAdapter.new).1.

Definition registry : MachinesAdapter.t :=
  state_of empty_registry
    (MachinesAdapter.registerMachine 0 "flow" flow_config empty_registry).

Definition flow_machine : MachinesAdapter.Machine :=
  MachinesAdapter.mkMachine "flow" "flow" "idle" "idle" idle_running ∅ 0.

(** The registry after "flow" has moved to "running". *)
Definition registry_running : MachinesAdapter.t :=
  state_of registry (MachinesAdapter.transition 5 "flow" "START" ∅ registry).

(** A machine whose only state has a table that defines the keys
    "b", "10", "a", "2", "01" and then "a" again, in this order. *)
Definition menu_table : list (string * MachinesAdapter.Transition) :=
  [("b", MachinesAdapter.Target "open");
   ("10", MachinesAdapter.Target "open");
   ("a", MachinesAdapter.Target "shut");
   ("2", MachinesAdapter.Target "open");
   ("01", MachinesAdapter.Target "open");
   ("a", MachinesAdapter.Target "open")].

Definition menu_states : gmap string MachinesAdapter.StateConfig :=
  {[ "open" := MachinesAdapter.mkStateConfig (Some menu_table) ]}.

Definition menu_config : MachinesAdapter.Config :=
  MachinesAdapter.mkConfig None "open" (Some menu_states) None.

Definition menu_machine : MachinesAdapter.Machine :=
  MachinesAdapter.mkMachine "menu" "menu" "open" "open" menu_states ∅ 0.

Definition menu_registry : MachinesAdapter.t :=
  state_of empty_registry
    (MachinesAdapter.registerMachine 0 "menu" menu_config empty_registry).

(** Registering "flow", starting it, updating its context and
    removing a machine that does not exist. *)
Definition flow_calls : list MachinesAdapter.Call :=
  [MachinesAdapter.CallRegisterMachine 0 "flow" flow_config;
   MachinesAdapter.CallTransition 5 "flow" "START" ∅;
   MachinesAdapter.CallUpdateContext "flow" {[ "userId" := "user123" ]};
   MachinesAdapter.CallRemoveMachine "ghost"].

(** An initialized session coordinator wired to an initialized, empty
    token store, in an environment without [localStorage]. *)
Definition auth : AuthService.t :=
  {| AuthService.initialized := true;
     AuthService.currentUser := None;
     AuthService.sessions := ∅;
     AuthService.tokenService :=
       Some (TokenService.initialize TokenService.new).1;
     AuthService.localStorage := None;
     AuthService.nextRef := 0%nat |}.

(** Two sign-ins in a row, the first at time 100, the second at time
    200, with no [logout] in between. *)
Definition auth_once : AuthService.t :=
  state_of auth
    (AuthService.authenticate 100 "usr_100_a" "tok_100_a" "aa"
       "a@b.com" "longenoughpassword" "password" auth).

Definition auth_twice : AuthService.t :=
  state_of auth_once
    (AuthService.authenticate 200 "usr_200_b" "tok_200_b" "bb"
       "c@d.com" "anotherpassword" "password" auth_once).

(** Handlers: one that returns, one that throws, and one that emits
    a "b" event from inside its own dispatch and then returns. *)
Definition quiet : IntegrationListener.Handler := λ _, ([], false).
Definition failing : IntegrationListener.Handler := λ _, ([], true).
Definition relay : IntegrationListener.Handler :=
  λ _, ([IntegrationListener.Emit "b" ∅], false).

Definition plain : IntegrationListener.Options :=
  IntegrationListener.mkOptions None None.
Definition once_only : IntegrationListener.Options :=
  IntegrationListener.mkOptions (Some true) None.

(** [on("ping", h, {once: true}); emit("ping"); emit("ping")] with
    nothing awaited between the two [emit] calls: the first [emit] runs
    as far as the call of the handler, the second [emit] is made, and
    the bus is then left to run until it is idle. *)
Definition ping_twice (h : IntegrationListener.Handler)
    : IntegrationListener.t :=
  IntegrationListener.run
    ([IntegrationListener.Outside (IntegrationListener.On "ping" h once_only);
      IntegrationListener.Outside (IntegrationListener.Emit "ping" ∅);
      IntegrationListener.Resume;
      IntegrationListener.Resume;
      IntegrationListener.Outside (IntegrationListener.Emit "ping" ∅)]
       ++ replicate 8 IntegrationListener.Resume)
    IntegrationListener.fresh.

(** A listener on "a" that emits "b" while it handles "a", and a
    listener on "b"; before any event is emitted. *)
Definition relaying : IntegrationListener.t :=
  IntegrationListener.run
    [IntegrationListener.Outside (IntegrationListener.On "a" relay plain);
     IntegrationListener.Outside (IntegrationListener.On "b" quiet plain)]
    IntegrationListener.fresh.

(** [await emit("a")] on that bus. *)
Definition relayed : IntegrationListener.t :=
  IntegrationListener.resumed 11
    (IntegrationListener.perform (IntegrationListener.Emit "a" ∅) relaying).








(** Four registrations: on "ping" a [once] listener that returns, a
    [once] listener that throws and a permanent listener; on "pong" a
    [once] listener. *)
Definition mixed : list IntegrationListener.Step :=
  [IntegrationListener.Outside
     (IntegrationListener.On "ping" quiet once_only);
   IntegrationListener.Outside
     (IntegrationListener.On "ping" failing once_only);
   IntegrationListener.Outside (IntegrationListener.On "ping" quiet plain);
   IntegrationListener.Outside
     (IntegrationListener.On "pong" quiet once_only)].

(** A coordinator that holds one session but whose token store has not
    been initialized, and nobody signed in. *)
Definition auth_without_store : AuthService.t :=
  {| AuthService.initialized := true;
     AuthService.currentUser := None;
     AuthService.sessions :=
       {[ "tok_1_z" :=
            AuthService.mkSession
              (AuthService.mkUser 0 "usr_1_z" "z@z.com" "password" 1)
              "tok_1_z" 1 ]};
     AuthService.tokenService := Some TokenService.new;
     AuthService.localStorage := Some (Some "tok_1_z");
     AuthService.nextRef := 1%nat |}.

(** A session coordinator as its constructor leaves it. *)
Definition auth_new : AuthService.t :=
  {| AuthService.initialized := false;
     AuthService.currentUser := None;
     AuthService.sessions := ∅;
     AuthService.tokenService := None;
     AuthService.localStorage := None;
     AuthService.nextRef := 0%nat |}.

(** An initialized session coordinator whose token store has not
    been initialized. *)
Definition auth_storeless : AuthService.t :=
  {| AuthService.initialized := true;
     AuthService.currentUser := None;
     AuthService.sessions := ∅;
     AuthService.tokenService := Some TokenService.new;
     AuthService.localStorage := None;
     AuthService.nextRef := 0%nat |}.

(** An initialized wallet service wired to a session coordinator. *)
Definition wallet (service : AuthService.t) : WalletUnified.t :=
  (WalletUnified.initialize (Some service) WalletUnified.new).1.

(** Random draws: the digits 0, 1, 2, ... in turn. *)
Definition counting : nat → nat := λ position, position.

End Scenarios.

(** * Properties of the token store *)
Module TokenFacts.
Import TokenService.

Lemma call_initialized c s : initialized (call c s) = initialized s.
Proof.
  destruct c; simpl;
    unfold createToken, validateToken, getToken, revokeToken,
      cleanupExpiredTokens, validateToken;
    destruct (initialized s) eqn:Hi; simpl; try done;
    repeat (case_match; simpl; simplify_eq; try done).
Qed.

Lemma dead_insert_invalidate tokenId k token s :
  dead tokenId s →
  dead tokenId {| tokens := <[k := invalidate token]> (tokens s);
                  initialized := initialized s |}.
Proof.
  intros Hd tok; simpl. destruct (decide (k = tokenId)) as [->|Hne].
  - rewrite lookup_insert_eq. by intros [= <-].
  - rewrite lookup_insert_ne by done. apply Hd.
Qed.

Lemma validateToken_dead now k tokenId s :
  dead tokenId s → dead tokenId (state_of s (validateToken now k s)).
Proof.
  intros Hd. unfold validateToken.
  destruct (initialized s); simpl; [|done].
  destruct (tokens s !! k) as [token|]; simpl; [|done].
  destruct (now >? expiresAt token); simpl; [|done].
  by apply dead_insert_invalidate.
Qed.

Lemma call_dead tokenId c s :
  ¬ mints tokenId c → dead tokenId s → dead tokenId (call c s).
Proof.
  intros Hc Hd. destruct c as [now k v ty p e|now k|now k|k|now]; simpl in *.
  - unfold createToken. destruct (initialized s); simpl; [|done].
    intros tok; simpl. rewrite lookup_insert_ne by done. apply Hd.
  - by apply validateToken_dead.
  - unfold getToken. destruct (initialized s) eqn:Hi; simpl; [|done].
    destruct (tokens s !! k) as [token|] eqn:Hk; simpl; [|done].
    pose proof (validateToken_dead now k tokenId s Hd) as Hv.
    destruct (validateToken now k s) as [[s' v]|]; simpl in *; done.
  - unfold revokeToken. destruct (initialized s); simpl; [|done].
    destruct (tokens s !! k) as [token|]; simpl; [|done].
    by apply dead_insert_invalidate.
  - unfold cleanupExpiredTokens. destruct (initialized s); simpl; [|done].
    intros tok; simpl. intros [Hl _]%map_lookup_filter_Some. by apply Hd.
Qed.

Lemma calls_dead tokenId cs s :
  Forall (λ c, ¬ mints tokenId c) cs → dead tokenId s →
  dead tokenId (calls cs s).
Proof.
  unfold calls. intros Hcs. revert s.
  induction Hcs as [|c cs Hc _ IH]; intros s Hd; simpl; [done|].
  apply IH. by apply call_dead.
Qed.

Lemma calls_initialized cs s : initialized (calls cs s) = initialized s.
Proof.
  unfold calls. revert s. induction cs as [|c cs IH]; intros s; simpl; [done|].
  by rewrite IH, call_initialized.
Qed.

Lemma validateToken_of_dead now tokenId s :
  initialized s = true → dead tokenId s →
  ∃ s', validateToken now tokenId s = Return (s', false).
Proof.
  intros Hi Hd. unfold validateToken. rewrite Hi; simpl.
  destruct (tokens s !! tokenId) as [token|] eqn:Hk; [|by eexists].
  destruct (now >? expiresAt token); [by eexists|].
  rewrite (Hd _ Hk). by eexists.
Qed.

(** C5. For a stored token, [validateToken] answers [true] exactly
    when the token's [valid] flag is set and the current time is at
    most its [expiresAt]. When it answers [false] because the expiry
    time has passed, it stores [valid = false]; from then on, whatever
    further calls are made on the store at whatever clock readings
    (short of minting a new token under the same id), [validateToken]
    on that id answers [false]. *)
Theorem validateToken_lazy_expiry (s : t) (tokenId : string)
    (token : Token) (now : Z) :
  initialized s = true →
  tokens s !! tokenId = Some token →
  ∃ s',
    validateToken now tokenId s
      = Return (s', valid token && bool_decide (now ≤ expiresAt token)) ∧
    (expiresAt token < now →
       tokens s' !! tokenId = Some (invalidate token) ∧
       ∀ (later : list Call) (now' : Z),
         Forall (λ c, ¬ mints tokenId c) later →
         ∃ s'', validateToken now' tokenId (calls later s')
                  = Return (s'', false)).
Proof.
  intros Hi Hk. unfold validateToken. rewrite Hi, Hk; simpl.
  destruct (Z.gtb_spec now (expiresAt token)) as [Hgt|Hle].
  - eexists; split.
    + rewrite bool_decide_eq_false_2 by lia. by rewrite andb_false_r.
    + intros _. split; [simpl; by rewrite lookup_insert_eq|].
      intros later now' Hlater. apply validateToken_of_dead.
      * by rewrite calls_initialized.
      * apply calls_dead; [done|].
        intros tok; simpl. rewrite lookup_insert_eq. by intros [= <-].
  - exists s; split.
    + rewrite bool_decide_eq_true_2 by lia. by rewrite andb_true_r.
    + lia.
Qed.

Lemma validateToken_lazy_expiry_witness :
  ∃ s',
    validateToken 2500 "tok_1000_a" Scenarios.store
      = Return (s', valid Scenarios.store_token
                      && bool_decide (2500 ≤ expiresAt Scenarios.store_token)) ∧
    (expiresAt Scenarios.store_token < 2500 →
       tokens s' !! "tok_1000_a" = Some (invalidate Scenarios.store_token) ∧
       ∀ (later : list Call) (now' : Z),
         Forall (λ c, ¬ mints "tok_1000_a" c) later →
         ∃ s'', validateToken now' "tok_1000_a" (calls later s')
                  = Return (s'', false)).
Proof.
  apply (validateToken_lazy_expiry Scenarios.store "tok_1000_a"
           Scenarios.store_token 2500); reflexivity.
Defined.

End TokenFacts.

(** * Properties of the machine registry *)
Module MachineFacts.
Import MachinesAdapter.

(** C3, as the code has it. [transition] on a machine id that is not
    registered raises the error "Machine not found: <id>"; it does
    not return a result object, and the registry is not touched. *)
Theorem transition_unknown_machine_throws (now : Z)
    (machineId event : string) (eventData : Obj) (a : t) :
  initialized a = true →
  machines a !! machineId = None →
  transition now machineId event eventData a
    = Throw (machine_not_found machineId).
Proof. intros Hi Hm. unfold transition. by rewrite Hi, Hm. Qed.

Lemma transition_unknown_machine_throws_witness :
  transition 0 "ghost" "START" ∅ Scenarios.empty_registry
    = Throw (machine_not_found "ghost").
Proof.
  apply (transition_unknown_machine_throws 0 "ghost" "START" ∅
           Scenarios.empty_registry); reflexivity.
Defined.

(** C3, as stated, fails: on the initialized, empty registry the call
    [transition("ghost", "START")] yields no result value of any
    shape, it raises. *)
Lemma transition_unknown_machine_counterexample :
  initialized Scenarios.empty_registry = true ∧
  machines Scenarios.empty_registry !! "ghost" = None ∧
  ¬ ∃ a' currentState error,
      transition 0 "ghost" "START" ∅ Scenarios.empty_registry
        = Return (a', Failed currentState error).
Proof.
  split; [reflexivity|]. split; [reflexivity|].
  intros (a' & cs & err & H). vm_compute in H. discriminate H.
Qed.

(** C4, on the code. The current state of a registered machine has no
    entry of its own for the event (its [on] table lacks the key, or
    it has no [on] table). If the event is not the name of a member of
    [Object.prototype], or the state has no table at all, [transition]
    returns the failure result carrying the state the machine was in
    and the error "Invalid transition", and the registry it leaves
    behind is the registry it found. But if the state has a table and
    the event is such a name ("constructor", "toString", ...), the
    lookup [stateConfig.on[event]] finds the inherited member and the
    transition is accepted: the result reports success, the machine
    is moved to the state [undefined], a record of the move is
    appended to its history, and (unless a state is declared under
    the name "undefined") every later transition on the machine
    throws "Invalid state: undefined". *)
Theorem transition_without_entry (now : Z) (machineId event : string)
    (eventData : Obj) (a : t) (machine : Machine) (stateConfig : StateConfig) :
  initialized a = true →
  machines a !! machineId = Some machine →
  states machine !! key_of (currentState machine) = Some stateConfig →
  (∀ table, on stateConfig = Some table → own table !! event = None) →
  (inherited event = false ∨ on stateConfig = None →
   transition now machineId event eventData a
     = Return (a, Failed (currentState machine) "Invalid transition")) ∧
  (inherited event = true → is_Some (on stateConfig) →
   ∃ a',
     transition now machineId event eventData a
       = Return (a', Moved (currentState machine) Undefined event) ∧
     getCurrentState machineId a' = Return (Some Undefined) ∧
     transitions a' !! machineId
       = Some (default [] (transitions a !! machineId)
                 ++ [mkRecord machineId (currentState machine) Undefined
                       event eventData now]) ∧
     (states machine !! "undefined" = None →
      ∀ now' event' eventData',
        transition now' machineId event' eventData' a'
          = Throw (invalid_state "undefined"))).
Proof.
  intros Hi Hm Hs Hno.
  assert (property (states machine) (key_of (currentState machine))
            = Some (Own stateConfig)) as Hfound
    by (unfold property; by rewrite Hs).
  unfold transition. rewrite Hi, Hm; simpl. rewrite Hfound.
  unfold allowed, property.
  destruct (on stateConfig) as [table|] eqn:Hon.
  - rewrite (Hno table eq_refl). split.
    + intros [Hin|[=]]. by rewrite Hin.
    + intros Hin _. rewrite Hin. simpl. eexists. split; [done|].
      unfold getCurrentState. simpl. rewrite ?Hi. simpl.
      rewrite !lookup_insert_eq. simpl. split; [done|]. split; [done|].
      intros Hundef now' event' eventData'.
      unfold property. rewrite Hundef. done.
  - split; [done|]. by intros _ [? [=]].
Qed.

Lemma transition_without_entry_witness :
  transition 7 "flow" "STOP" ∅ Scenarios.registry
    = Return (Scenarios.registry, Failed "idle" "Invalid transition") ∧
  ∃ a',
    transition 7 "flow" "constructor" ∅ Scenarios.registry
      = Return (a', Moved "idle" Undefined "constructor") ∧
    getCurrentState "flow" a' = Return (Some Undefined) ∧
    transitions a' !! "flow"
      = Some (default [] (transitions Scenarios.registry !! "flow")
                ++ [mkRecord "flow" "idle" Undefined "constructor" ∅ 7]) ∧
    ∀ now' event' eventData',
      transition now' "flow" event' eventData' a'
        = Throw (invalid_state "undefined").
Proof.
  split.
  - destruct (transition_without_entry 7 "flow" "STOP" ∅ Scenarios.registry
                Scenarios.flow_machine
                (mkStateConfig (Some [("START", Target "running")])))
      as [Hfails _];
      [reflexivity|reflexivity|reflexivity|by intros table [= <-]|].
    apply Hfails. by left.
  - destruct (transition_without_entry 7 "flow" "constructor" ∅
                Scenarios.registry Scenarios.flow_machine
                (mkStateConfig (Some [("START", Target "running")])))
      as [_ Hmoves];
      [reflexivity|reflexivity|reflexivity|by intros table [= <-]|].
    destruct Hmoves as (a' & H1 & H2 & H3 & H4);
      [reflexivity|by eexists|].
    exists a'. split; [exact H1|]. split; [exact H2|]. split; [exact H3|].
    by apply H4.
Defined.

(** [removeMachine] is what drops the history kept under an id. *)
Lemma removeMachine_clears_history (machineId : string) (a : t) (limit : Z)
    (machine : Machine) :
  initialized a = true →
  machines a !! machineId = Some machine →
  ∃ a', removeMachine machineId a = Return (a', true) ∧
        getTransitionHistory machineId limit a' = Return [].
Proof.
  intros Hi Hm. unfold removeMachine. rewrite Hi, Hm; simpl.
  eexists. split; [done|]. unfold getTransitionHistory, slice; simpl.
  rewrite ?Hi, lookup_delete_eq; simpl. by rewrite drop_nil.
Qed.

(** C8. Registering a machine under an id that is already in use
    stores the new definition, with the current state set to the new
    initial state, and leaves the transition history kept under that
    id as it was: [getTransitionHistory] returns afterwards what it
    returned before. *)
Theorem registerMachine_keeps_history (now : Z) (machineId : string)
    (config : Config) (a : t) (limit : Z) :
  initialized a = true →
  ∃ a' snapshot,
    registerMachine now machineId config a = Return (a', snapshot) ∧
    machines a' !! machineId
      = Some {| id := machineId;
                name := or_string (config_name config) machineId;
                initialState := config_initialState config;
                currentState := config_initialState config;
                states := default ∅ (config_states config);
                context := default ∅ (config_context config);
                createdAt := now |} ∧
    getCurrentState machineId a'
      = Return (Some (State (config_initialState config))) ∧
    transitions a' = transitions a ∧
    getTransitionHistory machineId limit a'
      = getTransitionHistory machineId limit a.
Proof.
  intros Hi. unfold registerMachine, getMachine. rewrite Hi; simpl.
  rewrite lookup_insert_eq. do 2 eexists. split; [done|].
  unfold getCurrentState, getTransitionHistory; simpl.
  rewrite Hi, lookup_insert_eq; simpl. done.
Qed.

Lemma registerMachine_keeps_history_witness :
  getTransitionHistory "flow" 10 Scenarios.registry_running
    = Return [mkRecord "flow" "idle" "running" "START" ∅ 5] ∧
  ∃ a' snapshot,
    registerMachine 9 "flow" Scenarios.flow_config Scenarios.registry_running
      = Return (a', snapshot) ∧
    machines a' !! "flow" = Some (mkMachine "flow" "flow" "idle" "idle"
                                    Scenarios.idle_running ∅ 9) ∧
    getCurrentState "flow" a' = Return (Some (State "idle")) ∧
    transitions a' = transitions Scenarios.registry_running ∧
    getTransitionHistory "flow" 10 a'
      = getTransitionHistory "flow" 10 Scenarios.registry_running.
Proof.
  split; [reflexivity|].
  apply (registerMachine_keeps_history 9 "flow" Scenarios.flow_config
           Scenarios.registry_running 10); reflexivity.
Defined.

End MachineFacts.

(** * Properties of the session coordinator *)
Module AuthFacts.
Import AuthService.

(** C9. Whatever the method, [authenticate] with an empty identifier
    or an empty credential returns the failure "Invalid credentials"
    and leaves the coordinator, token store included, as it was: no
    token, no session, no change of the current user. *)
Theorem authenticate_rejects_empty (now : Z)
    (userId tokenId tokenValue identifier credential method : string)
    (s : t) :
  initialized s = true →
  identifier = "" ∨ credential = "" →
  authenticate now userId tokenId tokenValue identifier credential method s
    = Return (s, AuthFailed "Invalid credentials").
Proof.
  intros Hi Hempty. unfold authenticate, _validateCredentials.
  rewrite Hi; simpl.
  destruct Hempty as [-> | ->]; simpl; [done|].
  by rewrite orb_true_r.
Qed.

Lemma authenticate_rejects_empty_witness :
  String.length "0123456789abcdef0123456789abcdef" = 32%nat ∧
  authenticate 50 "usr_50_x" "tok_50_x" "dd" ""
    "0123456789abcdef0123456789abcdef" "wallet" Scenarios.auth
    = Return (Scenarios.auth, AuthFailed "Invalid credentials").
Proof.
  split; [reflexivity|].
  apply (authenticate_rejects_empty 50 "usr_50_x" "tok_50_x" "dd" ""
           "0123456789abcdef0123456789abcdef" "wallet" Scenarios.auth);
    [reflexivity | left; reflexivity].
Defined.

Lemma revokeToken_initialized key store :
  TokenService.initialized (state_of store (TokenService.revokeToken key store))
    = TokenService.initialized store.
Proof.
  unfold TokenService.revokeToken.
  destruct (TokenService.initialized store) eqn:Hi; simpl; [|done].
  by destruct (TokenService.tokens store !! key).
Qed.

Lemma revokeToken_other key key' store :
  key ≠ key' →
  TokenService.tokens (state_of store (TokenService.revokeToken key store))
    !! key' = TokenService.tokens store !! key'.
Proof.
  intros Hne. unfold TokenService.revokeToken.
  destruct (TokenService.initialized store); simpl; [|done].
  destruct (TokenService.tokens store !! key); simpl; [|done].
  by rewrite lookup_insert_ne.
Qed.

Lemma revokeToken_dead key store :
  TokenService.initialized store = true →
  TokenService.dead key (state_of store (TokenService.revokeToken key store)).
Proof.
  intros Hi. unfold TokenService.revokeToken. rewrite Hi; simpl.
  destruct (TokenService.tokens store !! key) as [token|] eqn:Hk; simpl.
  - intros tok; simpl. rewrite lookup_insert_eq. by intros [= <-].
  - intros tok. by rewrite Hk.
Qed.

Lemma revokeToken_keeps_dead key key' store :
  TokenService.dead key' store →
  TokenService.dead key' (state_of store (TokenService.revokeToken key store)).
Proof.
  intros Hd. unfold TokenService.revokeToken.
  destruct (TokenService.initialized store); simpl; [|done].
  destruct (TokenService.tokens store !! key); simpl; [|done].
  by apply TokenFacts.dead_insert_invalidate.
Qed.

(** What the loop of [logout] does to an entry it does not match, and
    to one it matches. *)
Lemma logout_rounds current entries :
  ∀ store sessions,
    TokenService.initialized store = true →
    let result := foldl (logout_round current) (store, sessions) entries in
    TokenService.initialized result.1 = true ∧
    (∀ key,
       (∀ session, (key, session) ∈ entries →
                   same_user current session = false) →
       result.2 !! key = sessions !! key ∧
       TokenService.tokens result.1 !! key
         = TokenService.tokens store !! key) ∧
    (∀ key, sessions !! key = None → result.2 !! key = None) ∧
    (∀ key, TokenService.dead key store → TokenService.dead key result.1) ∧
    (∀ key session,
       (key, session) ∈ entries → same_user current session = true →
       result.2 !! key = None ∧ TokenService.dead key result.1).
Proof.
  induction entries as [|[k sess] rest IH]; intros store sessions Hi;
    cbv zeta; simpl.
  { do 4 (split; [done|]). intros key session Hin. by apply elem_of_nil in Hin. }
  assert (logout_round current (store, sessions) (k, sess)
          = if same_user current sess
            then (state_of store (TokenService.revokeToken k store),
                  delete k sessions)
            else (store, sessions)) as -> by reflexivity.
  destruct (same_user current sess) eqn:Hsame.
  - pose proof (IH (state_of store (TokenService.revokeToken k store))
                  (delete k sessions)) as IH'.
    rewrite revokeToken_initialized in IH'. specialize (IH' Hi).
    simpl in IH'. destruct IH' as (I1 & I2 & I3 & I4 & I5).
    split; [done|]. split; [|split; [|split]].
    + intros key Hkey.
      assert (k ≠ key) as Hne.
      { intros ->. specialize (Hkey sess (list_elem_of_here _ _)). congruence. }
      destruct (I2 key) as [Ha Hb].
      { intros session Hin. apply Hkey. by apply list_elem_of_further. }
      rewrite Ha, Hb, lookup_delete_ne, revokeToken_other by done. done.
    + intros key Hnone. apply I3.
      destruct (decide (k = key)) as [->|Hne];
        [by rewrite lookup_delete_eq | by rewrite lookup_delete_ne].
    + intros key Hd. apply I4. by apply revokeToken_keeps_dead.
    + intros key session [[= -> ->] | Hin]%elem_of_cons Hmatch.
      * split; [apply I3, lookup_delete_eq | apply I4, revokeToken_dead, Hi].
      * by apply (I5 key session).
  - destruct (IH store sessions Hi) as (I1 & I2 & I3 & I4 & I5).
    split; [done|]. split; [|split; [|split]]; try done.
    + intros key Hkey. apply I2.
      intros session Hin. apply Hkey. by apply list_elem_of_further.
    + intros key session [[= -> ->] | Hin]%elem_of_cons Hmatch;
        [congruence | by apply (I5 key session)].
Qed.

(** What a successful [authenticate] has done. *)
Lemma authenticate_ok now userId tokenId tokenValue identifier credential
    method s s' user sessionToken :
  authenticate now userId tokenId tokenValue identifier credential method s
    = Return (s', AuthOk user sessionToken) →
  ∃ store,
    initialized s = true ∧
    tokenService s = Some store ∧
    TokenService.initialized store = true ∧
    user = mkUser (nextRef s) userId identifier method now ∧
    sessionToken
      = TokenService.mkIssued tokenId tokenValue "session" (now + 86400000) ∧
    initialized s' = true ∧
    currentUser s' = Some user ∧
    sessions s' = <[tokenId := mkSession user tokenId now]> (sessions s) ∧
    nextRef s' = S (nextRef s) ∧
    ∃ payload,
      tokenService s'
        = Some {| TokenService.tokens :=
                    <[tokenId :=
                        TokenService.mkToken tokenId "session" tokenValue
                          payload now (now + 86400000) true]>
                      (TokenService.tokens store);
                  TokenService.initialized := true |}.
Proof.
  unfold authenticate. destruct (initialized s) eqn:Hi; simpl; [|done].
  destruct (_validateCredentials identifier credential method); simpl;
    [|done].
  destruct (tokenService s) as [store|] eqn:Hstore; [|done].
  unfold TokenService.createToken.
  destruct (TokenService.initialized store) eqn:Hsi; simpl; [|done].
  intros [= <- <- <-]. exists store. simpl. rewrite Hsi.
  repeat (split; [done|]). by eexists.
Qed.

(** C10. After two successful sign-ins in a row that produced session
    tokens t1 and then t2, [logout] succeeds, clears the current
    user, and removes and revokes the session of the second user
    only: the session stored under t1 is still in the session map,
    its token still has [valid = true], and [validateSession(t1)]
    answers [true] at every time up to t1's expiry. *)
Theorem logout_spares_earlier_session
    (now1 now2 : Z)
    (userId1 tokenId1 tokenValue1 identifier1 credential1 method1 : string)
    (userId2 tokenId2 tokenValue2 identifier2 credential2 method2 : string)
    (s s1 s2 : t) (user1 user2 : User) (t1 t2 : TokenService.Issued) :
  authenticate now1 userId1 tokenId1 tokenValue1 identifier1 credential1
    method1 s = Return (s1, AuthOk user1 t1) →
  authenticate now2 userId2 tokenId2 tokenValue2 identifier2 credential2
    method2 s1 = Return (s2, AuthOk user2 t2) →
  TokenService.issued_id t1 ≠ TokenService.issued_id t2 →
  ∃ s3 store3 token1,
    logout s2 = Return (s3, true) ∧
    currentUser s3 = None ∧
    sessions s3 !! TokenService.issued_id t2 = None ∧
    sessions s3 !! TokenService.issued_id t1
      = Some (mkSession user1 (TokenService.issued_id t1) now1) ∧
    tokenService s3 = Some store3 ∧
    TokenService.dead (TokenService.issued_id t2) store3 ∧
    TokenService.tokens store3 !! TokenService.issued_id t1 = Some token1 ∧
    TokenService.valid token1 = true ∧
    TokenService.expiresAt token1 = TokenService.issued_expiresAt t1 ∧
    ∀ now, now ≤ TokenService.issued_expiresAt t1 →
      ∃ s4, validateSession now (TokenService.issued_id t1) s3
              = Return (s4, true).
Proof.
  intros H1 H2 Hne.
  apply authenticate_ok in H1
    as (store & Hi & Hst & Hsi & -> & -> & Hi1 & Hc1 & Hs1 & Hr1 & p1 & Hst1).
  apply authenticate_ok in H2
    as (store1 & _ & Hst1' & Hsi1 & -> & -> & Hi2 & Hc2 & Hs2 & Hr2 & p2 & Hst2).
  simpl in Hne |- *.
  rewrite Hst1 in Hst1'. injection Hst1' as <-. simpl in Hst2.
  set (store2 :=
         {| TokenService.tokens :=
              <[tokenId2 :=
                  TokenService.mkToken tokenId2 "session" tokenValue2 p2
                    now2 (now2 + 86400000) true]>
                (<[tokenId1 :=
                     TokenService.mkToken tokenId1 "session" tokenValue1 p1
                       now1 (now1 + 86400000) true]>
                   (TokenService.tokens store));
            TokenService.initialized := true |}) in *.
  pose proof (logout_rounds (currentUser s2) (map_to_list (sessions s2))
                store2 (sessions s2) eq_refl)
    as (R1 & R2 & _ & _ & R5).
  cbv zeta in *.
  destruct (foldl (logout_round (currentUser s2)) (store2, sessions s2)
              (map_to_list (sessions s2))) as [store3 sessions3] eqn:Hfold.
  simpl in *.
  assert (sessions s2 !! tokenId1
          = Some (mkSession (mkUser (nextRef s) userId1 identifier1 method1
                               now1) tokenId1 now1)) as Hk1.
  { rewrite Hs2, lookup_insert_ne by done.
    by rewrite Hs1, lookup_insert_eq. }
  assert (sessions s2 !! tokenId2
          = Some (mkSession (mkUser (nextRef s1) userId2 identifier2 method2
                               now2) tokenId2 now2)) as Hk2.
  { by rewrite Hs2, lookup_insert_eq. }
  destruct (R2 tokenId1) as [Hkeep Htok].
  { intros session Hin%elem_of_map_to_list.
    rewrite Hk1 in Hin. injection Hin as <-.
    rewrite Hc2. unfold same_user; simpl.
    apply bool_decide_eq_false. rewrite Hr1. lia. }
  destruct (R5 tokenId2 _ (proj2 (elem_of_map_to_list _ _ _) Hk2))
    as [Hgone Hdead].
  { rewrite Hc2. unfold same_user; simpl. by apply bool_decide_eq_true. }
  assert (TokenService.tokens store3 !! tokenId1
          = Some (TokenService.mkToken tokenId1 "session" tokenValue1 p1
                    now1 (now1 + 86400000) true)) as Htok1.
  { rewrite Htok. subst store2; simpl.
    rewrite lookup_insert_ne by done. by rewrite lookup_insert_eq. }
  eexists _, store3, _. split.
  { unfold logout. rewrite Hi2; simpl. rewrite Hst2; simpl.
    rewrite andb_false_r. rewrite Hfold. reflexivity. }
  simpl. split; [done|]. split; [done|].
  split; [by rewrite Hkeep, Hk1|]. split; [done|]. split; [done|].
  split; [exact Htok1|]. split; [done|]. split; [done|].
  intros now Hnow. unfold validateSession; simpl.
  rewrite Hkeep, Hk1.
  unfold TokenService.validateToken. rewrite R1, Htok1; simpl.
  destruct (Z.gtb_spec now (now1 + 86400000)) as [?|_]; [lia|].
  by eexists.
Qed.

Lemma logout_spares_earlier_session_witness :
  ∃ s3 store3 token1,
    logout Scenarios.auth_twice = Return (s3, true) ∧
    currentUser s3 = None ∧
    sessions s3 !! "tok_200_b" = None ∧
    sessions s3 !! "tok_100_a"
      = Some (mkSession (mkUser 0 "usr_100_a" "a@b.com" "password" 100)
                "tok_100_a" 100) ∧
    tokenService s3 = Some store3 ∧
    TokenService.dead "tok_200_b" store3 ∧
    TokenService.tokens store3 !! "tok_100_a" = Some token1 ∧
    TokenService.valid token1 = true ∧
    TokenService.expiresAt token1 = 86400100 ∧
    ∀ now, now ≤ 86400100 →
      ∃ s4, validateSession now "tok_100_a" s3 = Return (s4, true).
Proof.
  apply (logout_spares_earlier_session 100 200
           "usr_100_a" "tok_100_a" "aa" "a@b.com" "longenoughpassword"
           "password"
           "usr_200_b" "tok_200_b" "bb" "c@d.com" "anotherpassword"
           "password"
           Scenarios.auth Scenarios.auth_once Scenarios.auth_twice
           (mkUser 0 "usr_100_a" "a@b.com" "password" 100)
           (mkUser 1 "usr_200_b" "c@d.com" "password" 200)
           (TokenService.mkIssued "tok_100_a" "aa" "session" 86400100)
           (TokenService.mkIssued "tok_200_b" "bb" "session" 86400200));
    [reflexivity | reflexivity | simpl; discriminate].
Defined.

End AuthFacts.

(** * Properties of the event bus *)
Module BusFacts.
Import IntegrationListener.

(** ** Sorted lists of event ids *)

Lemma sorted_emit (A P : list nat) (n : nat) :
  StronglySorted le (A ++ P ++ [n]) →
  StronglySorted le (A ++ (P ++ [n]) ++ [S n]).
Proof.
  rewrite !(assoc_L (++)). intros H.
  apply StronglySorted_app_2; [|done|repeat constructor].
  intros x1 x2 Hx1 ->%list_elem_of_singleton.
  apply elem_of_app in Hx1 as [Hx1 | ->%list_elem_of_singleton]; [|lia].
  pose proof (StronglySorted_app_1_elem_of _ _ _ x1 n H Hx1) as Hle.
  specialize (Hle (proj2 (list_elem_of_singleton _ _) eq_refl)). lia.
Qed.

Lemma sorted_sublist {A} (R : relation A) (l1 l2 : list A) :
  l1 `sublist_of` l2 → StronglySorted R l2 → StronglySorted R l1.
Proof.
  induction 1 as [|x l1 l2 Hsub IH|x l1 l2 Hsub IH]; intros Hs; [done|..].
  - apply StronglySorted_cons in Hs as [Hall Hs].
    constructor; [by apply IH|].
    rewrite Forall_forall in Hall |- *. intros y Hy. apply Hall.
    by eapply elem_of_sublist.
  - apply StronglySorted_cons in Hs as [_ Hs]. by apply IH.
Qed.

Lemma sorted_shift (A P : list nat) (x n : nat) :
  StronglySorted le (A ++ (x :: P) ++ [n]) →
  StronglySorted le (A ++ P ++ [n]).
Proof.
  apply sorted_sublist. apply sublist_app; [done|].
  simpl. by apply sublist_cons.
Qed.

Lemma sorted_invoke (A P : list nat) (x n : nat) :
  StronglySorted le (A ++ (x :: P) ++ [n]) →
  StronglySorted le ((A ++ [x]) ++ (x :: P) ++ [n]).
Proof.
  intros H. rewrite <-(assoc_L (++)).
  apply StronglySorted_app in H as (H1 & H2 & H3).
  apply StronglySorted_app_2; [|done|].
  - intros x1 x2 Hx1 Hx2. apply H1; [done|].
    change ([x] ++ (x :: P) ++ [n]) with (x :: (x :: P) ++ [n]) in Hx2.
    apply elem_of_cons in Hx2 as [Hx2|Hx2]; [|done].
    subst x2. simpl. left.
  - change ([x] ++ (x :: P) ++ [n]) with (x :: (x :: P) ++ [n]).
    constructor; [done|].
    change ((x :: P) ++ [n]) with (x :: P ++ [n]) in *.
    apply StronglySorted_cons in H3 as [H3 _].
    constructor; [lia|done].
Qed.

Lemma invoked_snoc_invoked tr l e :
  invoked (tr ++ [Invoked l e]) = invoked tr ++ [(l, e)].
Proof. unfold invoked. by rewrite omap_app. Qed.

Lemma invoked_snoc_returned tr e :
  invoked (tr ++ [Returned e]) = invoked tr.
Proof. unfold invoked. rewrite omap_app; simpl. by rewrite app_nil_r. Qed.

(** ** The stable sort on priorities *)

Lemma elem_of_insert_by (y z : Listener) (acc : list Listener) :
  z ∈ insert_by by_priority y acc ↔ z = y ∨ z ∈ acc.
Proof.
  induction acc as [|w acc IH]; simpl.
  - rewrite list_elem_of_singleton, elem_of_nil. tauto.
  - destruct (by_priority y w <=? 0).
    + rewrite (elem_of_cons (w :: acc)). tauto.
    + rewrite !elem_of_cons, IH. tauto.
Qed.

Lemma before_trans (a b c : Listener) : before a b → before b c → before a c.
Proof. unfold before. lia. Qed.

Lemma insert_by_sorted (y : Listener) (acc : list Listener) :
  StronglySorted before acc →
  (∀ z, z ∈ acc → priority z = priority y → (id y < id z)%nat) →
  StronglySorted before (insert_by by_priority y acc).
Proof.
  induction acc as [|w acc IH]; intros Hs Hties; simpl.
  { repeat constructor. }
  apply StronglySorted_cons in Hs as [Hall Hs].
  destruct (Z.leb_spec (by_priority y w) 0) as [Hle|Hgt];
    unfold by_priority in *.
  - assert (before y w) as Hyw.
    { unfold before.
      destruct (decide (priority w = priority y)) as [Heq|Hne]; [|lia].
      right. split; [done|]. apply Hties; [left|done]. }
    constructor; [by constructor|].
    constructor; [done|].
    rewrite Forall_forall in Hall |- *. intros z Hz.
    eapply before_trans; [exact Hyw|]. by apply Hall.
  - constructor.
    + apply IH; [done|]. intros z Hz. apply Hties. by right.
    + rewrite Forall_forall in Hall |- *. intros z Hz.
      apply elem_of_insert_by in Hz as [->|Hz]; [|by apply Hall].
      unfold before. lia.
Qed.

Lemma sort_snoc (array : list Listener) (x : Listener) :
  StronglySorted before array →
  Forall (λ l, (id l < id x)%nat) array →
  StronglySorted before (sort by_priority (array ++ [x])) ∧
  ∀ z, z ∈ sort by_priority (array ++ [x]) ↔ z ∈ array ∨ z = x.
Proof.
  unfold sort. rewrite foldr_app; simpl.
  induction array as [|y array IH]; intros Hs Hids; simpl.
  { split; [repeat constructor|].
    intros z. rewrite list_elem_of_singleton, elem_of_nil. tauto. }
  apply StronglySorted_cons in Hs as [Hall Hs].
  apply Forall_cons in Hids as [Hy Hids].
  destruct (IH Hs Hids) as [IHs IHe].
  split.
  - apply insert_by_sorted; [done|].
    intros z [Hz | ->]%IHe Heq; [|done].
    rewrite Forall_forall in Hall. specialize (Hall z Hz).
    unfold before in Hall. lia.
  - intros z. rewrite elem_of_insert_by, IHe, elem_of_cons. tauto.
Qed.

(** ** The listener table stays sorted *)

Lemma sorted_table_get n entries eventType array :
  sorted_table n entries → get eventType entries = Some array →
  StronglySorted before array ∧ Forall (λ l, (id l < n)%nat) array.
Proof.
  induction 1 as [|[k v] rest Hkv _ IH]; simpl; [done|].
  destruct (decide (k = eventType)); [by intros [= <-]|done].
Qed.

Lemma sorted_table_alter n entries eventType (x : Listener) :
  id x = n → sorted_table n entries →
  sorted_table (S n)
    (alter (λ array, sort by_priority (array ++ [x])) eventType entries).
Proof.
  intros Hx. induction 1 as [|[k v] rest [Hs Hids] Hrest IH]; simpl.
  { constructor. }
  assert (sorted_table (S n) rest) as Hrest'.
  { eapply Forall_impl; [exact Hrest|]. intros e [? Hl]. split; [done|].
    eapply Forall_impl; [exact Hl|]. simpl. lia. }
  destruct (decide (k = eventType)).
  - constructor; [|done]. simpl.
    destruct (sort_snoc v x Hs) as [Hsorted Helem].
    { eapply Forall_impl; [exact Hids|]. simpl. lia. }
    split; [done|]. rewrite Forall_forall in Hids |- *.
    intros z [Hz | ->]%Helem; [|lia]. specialize (Hids z Hz). simpl in *. lia.
  - constructor; [|done]. simpl. split; [done|].
    eapply Forall_impl; [exact Hids|]. simpl. lia.
Qed.

Lemma sorted_table_off n listenerId entries entries' :
  sorted_table n entries → off_entries listenerId entries = Some entries' →
  sorted_table n entries'.
Proof.
  intros H. revert entries'.
  induction H as [|[k v] rest [Hs Hids] Hrest IH]; intros entries'; simpl;
    [done|].
  destruct (list_find _ v) as [[index ?]|].
  - intros [= <-]. constructor; [|done]. simpl. split.
    + eapply sorted_sublist; [apply sublist_delete|done].
    + rewrite Forall_forall in Hids |- *. intros z Hz. apply Hids.
      eapply elem_of_sublist; [exact Hz|apply sublist_delete].
  - destruct (off_entries listenerId rest) as [rest'|]; simpl; [|done].
    intros [= <-]. constructor; [by split|by apply IH].
Qed.

(** ** Calls and resumptions keep the bus consistent *)

Lemma perform_consistent (c : Call) (s : t) :
  consistent s → consistent (perform c s).
Proof.
  intros [Hi Hf Hp Hs]. destruct s as [ini ls q pr fr ow nl ne tr].
  unfold fifo, pending in *. simpl in *. subst ini.
  destruct c as [eventType eventData|eventType h options|listenerId];
    unfold perform, emit, on, off, _processQueue; simpl.
  - destruct pr; simpl.
    + split; simpl; try done. unfold fifo, pending; simpl.
      rewrite invoked_snoc_returned, fmap_app; simpl.
      rewrite (assoc_L (++) (current fr)). by apply sorted_emit.
    + rewrite bool_decide_eq_false_2 by (by destruct q).
      split; simpl; try done.
      unfold fifo, pending; simpl. rewrite fmap_app; simpl.
      rewrite (proj1 Hp eq_refl) in Hf. simpl in Hf.
      by apply sorted_emit.
  - split; simpl; try done.
    destruct (get eventType ls) eqn:Hget.
    + by apply sorted_table_alter.
    + apply sorted_table_alter; [done|]. apply Forall_app. split; [done|].
      repeat constructor.
  - destruct (off_entries listenerId ls) as [entries|] eqn:Hoff; simpl.
    + split; simpl; try done. by eapply sorted_table_off.
    + by split.
Qed.

Lemma set_frame_consistent (f : Frame) (s : t) :
  consistent s → frame s ≠ Idle → f ≠ Idle →
  current f = current (frame s) ∨ current f = [] →
  consistent (set_frame f s).
Proof.
  intros [Hi Hf Hp Hs] Hold Hnew Hcur. split; simpl; try done.
  - unfold fifo, pending in *; simpl.
    destruct Hcur as [-> | ->]; [done|].
    destruct (current (frame s)) as [|x xs] eqn:Hc; [done|].
    assert (xs = []) as -> by (destruct (frame s); simpl in Hc; congruence).
    simpl in *. by eapply sorted_shift.
  - split; [|done]. intros Hpr. by apply Hp in Hpr.
Qed.

Lemma offs_consistent (toRemove : list nat) (s : t) :
  consistent s →
  consistent (foldl (λ s listenerId, perform (Off listenerId) s) s toRemove).
Proof.
  revert s. induction toRemove as [|i rest IH]; intros s Hs; [done|].
  apply IH, (perform_consistent (Off i)), Hs.
Qed.

Lemma tick_consistent (s : t) : consistent s → consistent (tick s).
Proof.
  intros Hc. unfold tick.
  destruct (frame s) as [| |event index toRemove
                         |event index toRemove listener pending raises]
    eqn:Hframe; [done|..].
  - destruct (eventQueue s) as [|event rest] eqn:Hq.
    + destruct Hc as [Hi Hf Hp Hs]. split; simpl; try done.
      unfold fifo, IntegrationListener.pending in *; simpl.
      rewrite invoked_snoc_returned. by rewrite Hframe, Hq in Hf.
    + assert (consistent (set_eventQueue rest s)) as Hc'.
      { destruct Hc as [Hi Hf Hp Hs]. split; simpl; try done.
        unfold fifo, IntegrationListener.pending in *; simpl.
        rewrite Hframe, Hq in Hf. rewrite Hframe. simpl in *.
        by eapply sorted_shift. }
      simpl. destruct (get (event_type event) (listeners s)) as [[|l ls]|];
        [done| |done].
      destruct Hc as [Hi Hf Hp Hs]. split; simpl; try done.
      * unfold fifo, IntegrationListener.pending in *; simpl.
        by rewrite Hframe, Hq in Hf.
      * split; [|done]. intros Hpr. apply Hp in Hpr. congruence.
  - destruct (default [] (get (event_type event) (listeners s)) !! index)
      as [listener|].
    + destruct (handler listener event) as [calls raises].
      assert (consistent
                (set_frame (InHandler event index toRemove listener calls
                              raises) s)) as [Hi Hf Hp Hs].
      { apply set_frame_consistent; [done|congruence|done|].
        left. by rewrite Hframe. }
      split; simpl; try done.
      unfold fifo, IntegrationListener.pending in *; simpl in *.
      rewrite invoked_snoc_invoked, fmap_app. simpl.
      by apply sorted_invoke.
    + apply offs_consistent, set_frame_consistent;
        [done|congruence|done|by right].
  - destruct pending as [|c pending].
    + apply set_frame_consistent; [done|congruence|done|].
      left. by rewrite Hframe.
    + apply perform_consistent, set_frame_consistent;
        [done|congruence|done|]. left. by rewrite Hframe.
Qed.

Lemma step_consistent (x : Step) (s : t) : consistent s → consistent (step x s).
Proof. destruct x; [apply perform_consistent | apply tick_consistent]. Qed.


Lemma fresh_consistent : consistent fresh.
Proof.
  split; simpl; try done.
  - unfold fifo, pending; simpl. repeat constructor.
  - constructor.
Qed.

(** ** Order of handler invocations *)

Lemma run_app (xs ys : list Step) (s : t) :
  run (xs ++ ys) s = run ys (run xs s).
Proof. unfold run. apply foldl_app. Qed.









(** ** Dispatch of one event *)

Lemma resumed_S (n : nat) (s : t) : resumed (S n) s = resumed n (tick s).
Proof. done. Qed.

Lemma resumed_add (n m : nat) (s : t) :
  resumed (n + m) s = resumed m (resumed n s).
Proof. unfold resumed. by rewrite replicate_add, run_app. Qed.




Lemma loop_ticks_cons (event : Event) (l : Listener)
    (suffix : list Listener) :
  loop_ticks event (l :: suffix)
    = (1 + (S (length (handler l event).1) + loop_ticks event suffix))%nat.
Proof. unfold loop_ticks. rewrite fmap_cons. simpl. lia. Qed.



(** ** When [emit] returns *)

Lemma summary_silent (s s' : t) :
  trace s' = trace s → nextEvent s' = nextEvent s →
  (∀ p, p ∈ pending s' → p ∈ pending s) →
  summary s s'.
Proof.
  intros Ht Hn Hp. exists []. rewrite app_nil_r.
  split; [done|]. split; [simpl; lia|]. split; [lia|].
  split; [by intros l e ?%elem_of_nil|].
  split; [by intros e ?%elem_of_nil|]. intros p ?. left. by apply Hp.
Qed.

Lemma perform_summary (c : Call) (s : t) : summary s (perform c s).
Proof.
  destruct c as [eventType eventData|eventType h options|listenerId];
    unfold perform, emit, on, off, _processQueue.
  - destruct (initialized s); simpl; [|by apply summary_silent].
    destruct (processing s) eqn:Hp; simpl.
    + exists [Returned (nextEvent s)]. simpl.
      split; [done|]. split; [lia|]. split; [lia|].
      split; [by intros l e [=]%list_elem_of_singleton|].
      split; [intros e [= ->]%list_elem_of_singleton; by left|].
      unfold pending; simpl. intros p. rewrite fmap_app, !elem_of_app.
      simpl. rewrite list_elem_of_singleton. tauto.
    + rewrite bool_decide_eq_false_2 by (by destruct (eventQueue s)).
      exists []. simpl. rewrite app_nil_r.
      split; [done|]. split; [lia|]. split; [lia|].
      split; [by intros l e ?%elem_of_nil|].
      split; [by intros e ?%elem_of_nil|].
      unfold pending; simpl. intros p. rewrite fmap_app, !elem_of_app.
      simpl. rewrite list_elem_of_singleton. tauto.
  - destruct (initialized s); simpl; by apply summary_silent.
  - destruct (initialized s); simpl; [|by apply summary_silent].
    destruct (off_entries _ _); simpl; by apply summary_silent.
Qed.

Lemma offs_fields (toRemove : list nat) (s : t) :
  let s' := foldl (λ s listenerId, perform (Off listenerId) s) s toRemove in
  frame s' = frame s ∧ trace s' = trace s ∧
  eventQueue s' = eventQueue s ∧ nextEvent s' = nextEvent s.
Proof.
  cbv zeta. revert s. induction toRemove as [|i rest IH]; intros s; [done|].
  change (foldl ?f s (i :: rest)) with (foldl f (perform (Off i) s) rest).
  destruct (IH (perform (Off i) s)) as (-> & -> & -> & ->).
  unfold perform, off. destruct (initialized s); simpl; [|done].
  by destruct (off_entries _ _).
Qed.

Lemma tick_summary (s : t) : summary s (tick s).
Proof.
  unfold tick.
  destruct (frame s) as [| |event index toRemove
                         |event index toRemove listener calls raises]
    eqn:Hframe.
  - by apply summary_silent.
  - destruct (eventQueue s) as [|event rest] eqn:Hq.
    + exists [Returned (owner s)]. simpl.
      split; [done|]. split; [lia|]. split; [lia|].
      split; [by intros l e [=]%list_elem_of_singleton|].
      split; [intros e _; by right|].
      by intros p ?%elem_of_nil.
    + apply summary_silent.
      * by repeat case_match.
      * by repeat case_match.
      * intros p. unfold pending. rewrite Hframe, Hq. simpl.
        repeat case_match; simpl; rewrite ?Hframe; simpl;
          rewrite ?elem_of_cons; tauto.
  - destruct (default [] (get _ _) !! index) as [listener|].
    + destruct (handler listener event) as [calls raises].
      exists [Invoked (id listener) (event_id event)]. simpl.
      split; [done|]. split; [lia|]. split; [lia|].
      split.
      { intros l e [= _ ->]%list_elem_of_singleton.
        unfold pending. rewrite Hframe. left. }
      split; [by intros e [=]%list_elem_of_singleton|].
      unfold pending; simpl. rewrite Hframe. simpl. tauto.
    + destruct (offs_fields toRemove (set_frame AtWhile s))
        as (Hf & Ht & Hq & Hn).
      apply summary_silent; [done|done|].
      intros p. unfold pending. rewrite Hf, Hq, Hframe. simpl.
      rewrite elem_of_cons. tauto.
  - destruct calls as [|c calls].
    + apply summary_silent; [done|done|].
      unfold pending; simpl. by rewrite Hframe.
    + set (s1 := set_frame (InHandler event index toRemove listener calls
                              raises) s).
      destruct (perform_summary c s1)
        as (os & Ht & Hlen & Hn & Hinv & Hret & Hpend).
      assert (pending s1 = pending s) as Hsame.
      { unfold pending; simpl. by rewrite Hframe. }
      exists os. rewrite Hsame in *. done.
Qed.

Lemma step_summary (x : Step) (s : t) : summary s (step x s).
Proof. destruct x; [apply perform_summary | apply tick_summary]. Qed.

Lemma step_settled (e : nat) (base : list Obs) (x : Step) (s : t)
    (g : list Obs) :
  trace s = base ++ g → (e < nextEvent s)%nat → settled e s g →
  ∃ g', trace (step x s) = base ++ g' ∧
        (e < nextEvent (step x s))%nat ∧ settled e (step x s) g'.
Proof.
  intros Ht He [Hpend Hpost].
  destruct (step_summary x s) as (os & Ht' & Hlen & Hn & Hinv & Hret & Hp).
  exists (g ++ os). rewrite Ht', Ht, (assoc_L (++)).
  split; [done|]. split; [lia|]. split.
  - intros [Hin|Hin]%elem_of_app p Hpin.
    + destruct (Hp p Hpin) as [?| ->]; [by apply Hpend|done].
    + destruct (Hret e Hin) as [->|Hnil]; [lia|].
      rewrite Hnil in Hpin. by apply elem_of_nil in Hpin.
  - intros pre post Heq l e' Hin.
    destruct os as [|o [|? ?]]; [| |simpl in Hlen; lia].
    + rewrite app_nil_r in Heq. by eapply Hpost.
    + destruct (decide (post = [])) as [->|Hne].
      { by apply elem_of_nil in Hin. }
      destruct (exists_last Hne) as (post' & o' & ->).
      rewrite app_comm_cons, (assoc_L (++)) in Heq.
      apply app_inj_tail in Heq as [Hg Ho]. subst g o'.
      apply elem_of_app in Hin as [Hin|Hin%list_elem_of_singleton].
      * by eapply Hpost.
      * apply Hpend.
        { apply elem_of_app. right. left. }
        apply (Hinv l). rewrite Hin. left.
Qed.

Lemma run_settled (e : nat) (base : list Obs) (later : list Step) :
  ∀ (s : t) (g : list Obs),
    trace s = base ++ g → (e < nextEvent s)%nat → settled e s g →
    ∃ g', trace (run later s) = base ++ g' ∧ settled e (run later s) g'.
Proof.
  induction later as [|x later IH]; intros s g Ht He Hs.
  - by exists g.
  - destruct (step_settled e base x s g Ht He Hs) as (g' & Ht' & He' & Hs').
    apply (IH (step x s) g' Ht' He' Hs').
Qed.

(** ** Once-listeners, returning emits and priority order *)

(** The bookkeeping for [once] sits after the awaited handler call
    inside [try]: when the handler throws, control leaves for [catch]
    and the listener is not put on the removal list. *)
Lemma raising_listener_not_scheduled (s : t) (event : Event)
    (index : nat) (toRemove : list nat) (listener : Listener) :
  frame s = InHandler event index toRemove listener [] true →
  frame (tick s) = ForOf event (S index) toRemove.
Proof. intros Hframe. unfold tick. by rewrite Hframe. Qed.

Lemma returning_once_listener_scheduled (s : t) (event : Event)
    (index : nat) (toRemove : list nat) (listener : Listener) :
  frame s = InHandler event index toRemove listener [] false →
  once listener = true →
  frame (tick s) = ForOf event (S index) (toRemove ++ [id listener]).
Proof. intros Hframe Honce. unfold tick. rewrite Hframe. simpl. by rewrite Honce. Qed.

(** C1, on the code. A listener is registered on "ping" with
    [once: true] and a handler that throws; "ping" is emitted twice
    in immediate succession and the bus runs until idle. The handler
    is invoked for the first event and again for the second, and the
    listener is still registered afterwards. (With a handler that
    returns, the same run invokes it once and removes it.) So a
    [once] listener whose handler throws is not removed after its
    invocation, and does not fire exactly once. *)
Theorem once_listener_survives_error :
  trace (Scenarios.ping_twice Scenarios.failing)
    = [Invoked 0 0; Returned 1; Invoked 0 1; Returned 0] ∧
  frame (Scenarios.ping_twice Scenarios.failing) = Idle ∧
  id <$> default [] (get "ping"
                       (listeners (Scenarios.ping_twice Scenarios.failing)))
    = [0%nat] ∧
  trace (Scenarios.ping_twice Scenarios.quiet)
    = [Invoked 0 0; Returned 1; Returned 0] ∧
  default [] (get "ping" (listeners (Scenarios.ping_twice Scenarios.quiet)))
    = [].
Proof. repeat split; reflexivity. Qed.

(** C2, as stated, fails. On a bus where the handler for "a" emits
    "b", [await emit("a")] is observed as: the "a" handler is invoked;
    the [emit] of "b" made by that handler returns; only then is the
    "b" handler invoked; then the [emit] of "a" returns. The
    re-entrant [emit] returned before its event was dispatched. *)
Lemma reentrant_emit_counterexample :
  trace Scenarios.relayed
    = [Invoked 0 0; Returned 1; Invoked 1 1; Returned 0] ∧
  ¬ (∀ i j l e,
       trace Scenarios.relayed !! i = Some (Returned e) →
       trace Scenarios.relayed !! j = Some (Invoked l e) →
       (j < i)%nat).
Proof.
  split; [reflexivity|]. intros H.
  specialize (H 1%nat 2%nat 1%nat 1%nat eq_refl eq_refl). lia.
Qed.

(** C2, as the code has it. On an initialized bus [emit] does not
    throw, and
    - called while the processing flag is set (from inside a handler,
      or overlapping an [emit] still in progress) it appends its event
      to the queue and returns at once: the event is still queued and
      no handler has been invoked for it;
    - called while the flag is clear it starts the drain and waits
      for it: whatever happens next, once its return is observed
      neither its event nor any event emitted earlier is pending, and
      no handler is invoked for any of them afterwards. *)
Theorem emit_returns_after_drain (s : t) (eventType : string)
    (eventData : Obj) :
  initialized s = true →
  let event := mkEvent eventType eventData (nextEvent s) in
  ∃ s0,
    emit eventType eventData s = Return s0 ∧
    (processing s = true →
       eventQueue s0 = eventQueue s ++ [event] ∧
       trace s0 = trace s ++ [Returned (event_id event)] ∧
       frame s0 = frame s ∧ listeners s0 = listeners s) ∧
    (processing s = false →
       trace s0 = trace s ∧
       ∀ (later : list Step) (g : list Obs),
         trace (run later s0) = trace s ++ g →
         Returned (event_id event) ∈ g →
         (∀ p, p ∈ pending (run later s0) → (event_id event < p)%nat) ∧
         (∀ pre post, g = pre ++ Returned (event_id event) :: post →
            ∀ l e, Invoked l e ∈ post → (event_id event < e)%nat)).
Proof.
  intros Hi event. unfold emit, _processQueue. rewrite Hi. simpl.
  eexists. split; [done|]. split.
  - intros Hp. rewrite Hp. simpl. done.
  - intros Hp. rewrite Hp. simpl.
    rewrite bool_decide_eq_false_2 by (by destruct (eventQueue s)).
    simpl. split; [done|]. intros later g Ht Hin.
    match type of Ht with trace (run later ?st) = _ => set (s0 := st) in * end.
    destruct (run_settled (nextEvent s) (trace s) later s0 [])
      as (g' & Ht' & Hpend & Hpost).
    + simpl. by rewrite app_nil_r.
    + simpl. lia.
    + split; [by intros ?%elem_of_nil|].
      intros pre post Heq. by destruct pre.
    + rewrite Ht' in Ht. apply app_inv_head in Ht as ->.
      split; [by apply Hpend|done].
Qed.

Lemma emit_returns_after_drain_witness :
  ∃ s0,
    emit "a" ∅ Scenarios.relaying = Return s0 ∧
    (processing Scenarios.relaying = true →
       eventQueue s0
         = eventQueue Scenarios.relaying ++ [mkEvent "a" ∅ 0] ∧
       trace s0 = trace Scenarios.relaying ++ [Returned 0] ∧
       frame s0 = frame Scenarios.relaying ∧
       listeners s0 = listeners Scenarios.relaying) ∧
    (processing Scenarios.relaying = false →
       trace s0 = trace Scenarios.relaying ∧
       ∀ (later : list Step) (g : list Obs),
         trace (run later s0) = trace Scenarios.relaying ++ g →
         Returned 0 ∈ g →
         (∀ p, p ∈ pending (run later s0) → (0 < p)%nat) ∧
         (∀ pre post, g = pre ++ Returned 0 :: post →
            ∀ l e, Invoked l e ∈ post → (0 < e)%nat)).
Proof.
  apply (emit_returns_after_drain Scenarios.relaying "a" ∅). reflexivity.
Defined.





End BusFacts.

(** * Further properties of the token store *)
Module TokenLifecycle.
Import TokenService.

(** X1. A token just created is retrievable under its id with the type
    (or "generic" for an empty type), payload and times it was created
    with, and it validates exactly up to its expiry time; tokens under
    other ids are not touched. *)
Theorem createToken_then_getToken (now now' : Z)
    (tokenId tokenValue type : string) (payload : Obj) (expiresIn : Z)
    (s : t) :
  initialized s = true →
  let type' := if decide (type = "") then "generic" else type in
  ∃ s1 s2,
    createToken now tokenId tokenValue type payload expiresIn s
      = Return (s1, mkIssued tokenId tokenValue type' (now + expiresIn)) ∧
    validateToken now' tokenId s1
      = Return (s2, bool_decide (now' ≤ now + expiresIn)) ∧
    getToken now' tokenId s1
      = Return (s2, Some (mkDetails tokenId type' payload now
                            (now + expiresIn)
                            (bool_decide (now' ≤ now + expiresIn)))) ∧
    ∀ other, other ≠ tokenId → tokens s1 !! other = tokens s !! other.
Proof.
  intros Hi type'.
  set (token := mkToken tokenId type' tokenValue payload now
                  (now + expiresIn) true).
  exists {| tokens := <[tokenId := token]> (tokens s);
            initialized := initialized s |}.
  unfold createToken, getToken, validateToken.
  rewrite Hi; simpl. rewrite lookup_insert_eq; simpl.
  destruct (Z.gtb_spec now' (now + expiresIn)) as [Hgt|Hle].
  - rewrite bool_decide_eq_false_2 by lia. eexists.
    repeat (split; [done|]). intros other Hne. by rewrite lookup_insert_ne.
  - rewrite bool_decide_eq_true_2 by lia. eexists.
    repeat (split; [done|]). intros other Hne. by rewrite lookup_insert_ne.
Qed.

Lemma createToken_then_getToken_witness :
  ∃ s1 s2,
    createToken 1000 "tok_1000_b" "beef" "" ∅ 60
        (initialize new).1
      = Return (s1, mkIssued "tok_1000_b" "beef" "generic" 1060) ∧
    validateToken 1060 "tok_1000_b" s1 = Return (s2, true) ∧
    getToken 1060 "tok_1000_b" s1
      = Return (s2, Some (mkDetails "tok_1000_b" "generic" ∅ 1000 1060 true)) ∧
    ∀ other, other ≠ "tok_1000_b" →
             tokens s1 !! other = tokens (initialize new).1 !! other.
Proof.
  apply (createToken_then_getToken 1000 1060 "tok_1000_b" "beef" "" ∅ 60
           (initialize new).1).
  reflexivity.
Defined.

(** X2. Revoking a stored token succeeds, keeps the record retrievable
    (with [valid = false]), and from then on [validateToken] answers
    [false] for it at every time, whatever further calls are made on
    the store short of minting a new token under the same id. *)
Theorem revokeToken_is_permanent (s : t) (tokenId : string) (token : Token)
    (now : Z) :
  initialized s = true →
  tokens s !! tokenId = Some token →
  ∃ s1 s2,
    revokeToken tokenId s = Return (s1, true) ∧
    getToken now tokenId s1
      = Return (s2, Some (mkDetails (id token) (type token) (payload token)
                            (createdAt token) (expiresAt token) false)) ∧
    ∀ (later : list Call) (now' : Z),
      Forall (λ c, ¬ mints tokenId c) later →
      ∃ s3, validateToken now' tokenId (calls later s1) = Return (s3, false).
Proof.
  intros Hi Hk.
  exists {| tokens := <[tokenId := invalidate token]> (tokens s);
            initialized := initialized s |}.
  assert (dead tokenId
            {| tokens := <[tokenId := invalidate token]> (tokens s);
               initialized := initialized s |}) as Hdead.
  { intros tok; simpl. rewrite lookup_insert_eq. by intros [= <-]. }
  unfold revokeToken, getToken, validateToken. rewrite Hi, Hk; simpl.
  rewrite lookup_insert_eq; simpl.
  destruct (now >? expiresAt token); eexists;
    (split; [done|]); (split; [done|]);
    intros later now' Hlater;
    (apply TokenFacts.validateToken_of_dead;
     [by rewrite TokenFacts.calls_initialized
     |by apply TokenFacts.calls_dead]).
Qed.

Lemma revokeToken_is_permanent_witness :
  ∃ s1 s2,
    revokeToken "tok_1000_a" Scenarios.store = Return (s1, true) ∧
    getToken 1500 "tok_1000_a" s1
      = Return (s2, Some (mkDetails "tok_1000_a" "api" ∅ 1000 2000 false)) ∧
    ∀ (later : list Call) (now' : Z),
      Forall (λ c, ¬ mints "tok_1000_a" c) later →
      ∃ s3, validateToken now' "tok_1000_a" (calls later s1)
              = Return (s3, false).
Proof.
  apply (revokeToken_is_permanent Scenarios.store "tok_1000_a"
           Scenarios.store_token 1500); reflexivity.
Defined.

(** X3. For an id the store does not know, [validateToken] and
    [revokeToken] answer [false], [getToken] answers [null], and none
    of them changes the store. *)
Theorem unknown_token_is_rejected (s : t) (tokenId : string) (now : Z) :
  initialized s = true →
  tokens s !! tokenId = None →
  validateToken now tokenId s = Return (s, false) ∧
  revokeToken tokenId s = Return (s, false) ∧
  getToken now tokenId s = Return (s, None).
Proof.
  intros Hi Hk. unfold validateToken, revokeToken, getToken.
  by rewrite Hi, Hk.
Qed.

Lemma unknown_token_is_rejected_witness :
  validateToken 5 "tok_none" Scenarios.store
    = Return (Scenarios.store, false) ∧
  revokeToken "tok_none" Scenarios.store = Return (Scenarios.store, false) ∧
  getToken 5 "tok_none" Scenarios.store = Return (Scenarios.store, None).
Proof.
  apply (unknown_token_is_rejected Scenarios.store "tok_none" 5);
    reflexivity.
Defined.

Lemma filter_complement_size {V} (P : string * V → Prop)
    `{!∀ x, Decision (P x)} (m : gmap string V) :
  size m = (size (filter P m) + size (filter (λ x, ¬ P x) m))%nat.
Proof.
  rewrite <-(map_filter_union_complement P m) at 1.
  apply map_size_disj_union, map_disjoint_filter_complement.
Qed.

(** X4. The sweep deletes exactly the tokens whose expiry time has passed,
    returns how many they were, keeps every other token as it is, and
    a second sweep at the same time finds nothing to delete. *)
Theorem cleanupExpiredTokens_sweeps_expired (now : Z) (s : t) :
  initialized s = true →
  ∃ s1,
    cleanupExpiredTokens now s
      = Return (s1, size (filter (λ kv, expiresAt kv.2 < now) (tokens s))) ∧
    (∀ tokenId token,
       tokens s1 !! tokenId = Some token ↔
       tokens s !! tokenId = Some token ∧ now ≤ expiresAt token) ∧
    cleanupExpiredTokens now s1 = Return (s1, 0%nat).
Proof.
  intros Hi. unfold cleanupExpiredTokens. rewrite Hi; simpl.
  set (kept := filter (λ kv : string * Token, expired now kv.2 = false)
                 (tokens s)).
  assert (∀ tokenId token,
            kept !! tokenId = Some token ↔
            tokens s !! tokenId = Some token ∧ now ≤ expiresAt token)
    as Hkept.
  { intros tokenId token. unfold kept. rewrite map_lookup_filter_Some.
    unfold expired; simpl. rewrite Z.gtb_ltb, Z.ltb_ge. done. }
  assert (filter (λ kv : string * Token, expired now kv.2 = false) kept = kept)
    as Hidem.
  { apply map_filter_id. intros tokenId token [_ Hle]%Hkept.
    unfold expired; simpl. by rewrite Z.gtb_ltb, Z.ltb_ge. }
  exists {| tokens := kept; initialized := initialized s |}.
  split; [|split; [exact Hkept|]].
  - assert (size (tokens s)
            = (size kept
               + size (filter (λ kv : string * Token,
                                 (expiresAt kv.2 < now)%Z)
                         (tokens s)))%nat) as Hsize.
    { rewrite (filter_complement_size
                 (λ kv : string * Token, expired now kv.2 = false) (tokens s)).
      fold kept. f_equal. f_equal.
      apply map_filter_ext. intros tokenId token _. unfold expired; simpl.
      destruct (Z.gtb_spec now (expiresAt token)); split; intros ?;
        try lia; congruence. }
    rewrite Hsize, Nat.add_comm, Nat.add_sub. by rewrite Hi.
  - simpl. rewrite Hidem, Nat.sub_diag. by rewrite Hi.
Qed.

Lemma cleanupExpiredTokens_sweeps_expired_witness :
  ∃ s1,
    cleanupExpiredTokens 2500 Scenarios.store
      = Return (s1, size (filter (λ kv, expiresAt kv.2 < 2500)
                            (tokens Scenarios.store))) ∧
    (∀ tokenId token,
       tokens s1 !! tokenId = Some token ↔
       tokens Scenarios.store !! tokenId = Some token ∧
       2500 ≤ expiresAt token) ∧
    cleanupExpiredTokens 2500 s1 = Return (s1, 0%nat).
Proof.
  apply (cleanupExpiredTokens_sweeps_expired 2500 Scenarios.store).
  reflexivity.
Defined.

(** X5. [getStatus] counts as valid exactly the stored tokens that
    [validateToken] accepts at that time, never more than are stored,
    and (unlike [validateToken]) it is a pure read. *)
Theorem getStatus_counts_valid_tokens (now : Z) (s : t) :
  initialized s = true →
  (validTokens (getStatus now s) ≤ totalTokens (getStatus now s))%nat ∧
  ∃ accepted : gmap string Token,
    accepted ⊆ tokens s ∧
    validTokens (getStatus now s) = size accepted ∧
    ∀ tokenId,
      is_Some (accepted !! tokenId) ↔
      validateToken now tokenId s = Return (s, true).
Proof.
  intros Hi. unfold getStatus; simpl. split.
  { apply map_subseteq_size, map_filter_subseteq. }
  exists (filter (λ kv : string * Token, live now kv.2) (tokens s)).
  split; [apply map_filter_subseteq|]. split; [done|].
  intros tokenId. unfold validateToken, live. rewrite Hi; simpl.
  destruct (tokens s !! tokenId) as [token|] eqn:Hk.
  - destruct (Z.gtb_spec now (expiresAt token)) as [Hgt|Hle].
    + split; [|done]. intros [tok [Hl [_ Hle]]%map_lookup_filter_Some].
      simpl in *. rewrite Hk in Hl. injection Hl as <-. lia.
    + split.
      * intros [tok [Hl [Hv _]]%map_lookup_filter_Some].
        simpl in *. rewrite Hk in Hl. injection Hl as <-. by rewrite Hv.
      * intros [= Hv]. exists token. apply map_lookup_filter_Some.
        by repeat split.
  - split; [|done]. intros [tok [Hl _]%map_lookup_filter_Some]. congruence.
Qed.

Lemma getStatus_counts_valid_tokens_witness :
  (validTokens (getStatus 1500 Scenarios.store)
   ≤ totalTokens (getStatus 1500 Scenarios.store))%nat ∧
  ∃ accepted : gmap string Token,
    accepted ⊆ tokens Scenarios.store ∧
    validTokens (getStatus 1500 Scenarios.store) = size accepted ∧
    ∀ tokenId,
      is_Some (accepted !! tokenId) ↔
      validateToken 1500 tokenId Scenarios.store
        = Return (Scenarios.store, true).
Proof.
  apply (getStatus_counts_valid_tokens 1500 Scenarios.store). reflexivity.
Defined.

End TokenLifecycle.

(** * Further properties of the session coordinator *)
Module AuthLifecycle.
Import AuthService.

Lemma authenticate_accepts now userId tokenId tokenValue identifier credential
    method s store :
  initialized s = true →
  tokenService s = Some store ∧ TokenService.initialized store = true →
  _validateCredentials identifier credential method = true →
  let user := mkUser (nextRef s) userId identifier method now in
  let issued :=
    TokenService.mkIssued tokenId tokenValue "session" (now + 86400000) in
  ∃ s1, authenticate now userId tokenId tokenValue identifier credential
          method s = Return (s1, AuthOk user issued).
Proof.
  intros Hi [Hst Hsi] Hv. unfold authenticate. rewrite Hi, Hv, Hst; simpl.
  unfold TokenService.createToken. rewrite Hsi; simpl. by eexists.
Qed.

Lemma logout_rounds_of current entries store sessions :
  TokenService.initialized store = true →
  TokenService.initialized
    (foldl (logout_round current) (store, sessions) entries).1 = true ∧
  (∀ key,
     (∀ session, (key, session) ∈ entries →
                 same_user current session = false) →
     (foldl (logout_round current) (store, sessions) entries).2 !! key
       = sessions !! key ∧
     TokenService.tokens
       (foldl (logout_round current) (store, sessions) entries).1 !! key
       = TokenService.tokens store !! key) ∧
  (∀ key, sessions !! key = None →
          (foldl (logout_round current) (store, sessions) entries).2 !! key
            = None) ∧
  (∀ key, TokenService.dead key store →
          TokenService.dead key
            (foldl (logout_round current) (store, sessions) entries).1) ∧
  (∀ key session,
     (key, session) ∈ entries → same_user current session = true →
     (foldl (logout_round current) (store, sessions) entries).2 !! key = None ∧
     TokenService.dead key
       (foldl (logout_round current) (store, sessions) entries).1).
Proof. intros Hi. apply (AuthFacts.logout_rounds current entries store sessions Hi). Qed.

(** X6. Sign-in round trip. With a usable token store and credentials that
    pass the shape check, [authenticate] succeeds; the new user is the
    current user, the token id is written to [localStorage] where there
    is one, and the session validates at every time up to 24 hours
    after sign-in and at no later time. After [logout] there is no
    current user, the [localStorage] slot is empty, and the session no
    longer validates at any time. *)
Theorem sign_in_round_trip (now : Z)
    (userId tokenId tokenValue identifier credential method : string)
    (s : t) (store : TokenService.t) :
  initialized s = true →
  tokenService s = Some store →
  TokenService.initialized store = true →
  _validateCredentials identifier credential method = true →
  ∃ s1 user sessionToken,
    authenticate now userId tokenId tokenValue identifier credential method s
      = Return (s1, AuthOk user sessionToken) ∧
    TokenService.issued_id sessionToken = tokenId ∧
    getCurrentUser s1 = Return (Some user) ∧
    localStorage s1 = (λ _, Some tokenId) <$> localStorage s ∧
    (∀ now', ∃ s',
       validateSession now' tokenId s1
         = Return (s', bool_decide (now' ≤ now + 86400000))) ∧
    ∃ s2,
      logout s1 = Return (s2, true) ∧
      getCurrentUser s2 = Return None ∧
      localStorage s2 = (λ _, None) <$> localStorage s ∧
      ∀ now', validateSession now' tokenId s2 = Return (s2, false).
Proof.
  intros Hi Hst Hsi Hv. unfold authenticate. rewrite Hi, Hv, Hst; simpl.
  unfold TokenService.createToken. rewrite Hsi; simpl.
  eexists _, _, _. split; [done|]. simpl. split; [done|].
  split; [unfold getCurrentUser; simpl; by rewrite ?Hi|].
  split; [by destruct (localStorage s)|].
  split.
  { intros now'. unfold validateSession; simpl. rewrite ?Hi; simpl.
    rewrite lookup_insert_eq. unfold TokenService.validateToken; simpl.
    rewrite ?Hsi; simpl. rewrite lookup_insert_eq; simpl.
    destruct (Z.gtb_spec now' (now + 86400000)).
    - rewrite bool_decide_eq_false_2 by lia. by eexists.
    - rewrite bool_decide_eq_true_2 by lia. by eexists. }
  unfold logout; simpl. rewrite ?Hi, ?Hsi; simpl. rewrite andb_false_r.
  set (user := mkUser (nextRef s) userId identifier method now).
  set (sessions1 := <[tokenId := mkSession user tokenId now]> (sessions s)).
  match goal with
  | |- context [foldl _ (?st, _) _] => set (store1 := st)
  end.
  assert (TokenService.initialized store1 = true) as Hs1
    by (subst store1; simpl; by rewrite ?Hsi).
  pose proof (logout_rounds_of (Some user) (map_to_list sessions1)
                store1 sessions1 Hs1) as (_ & _ & _ & _ & R5).
  destruct (foldl (logout_round (Some user)) (store1, sessions1)
              (map_to_list sessions1)) as [store2 sessions2] eqn:Hfold.
  simpl in R5.
  destruct (R5 tokenId (mkSession user tokenId now)) as [Hgone _].
  { apply elem_of_map_to_list. unfold sessions1. by rewrite lookup_insert_eq. }
  { unfold same_user; simpl. by apply bool_decide_eq_true. }
  eexists. split; [done|]. simpl.
  split; [unfold getCurrentUser; simpl; by rewrite ?Hi|].
  split; [by destruct (localStorage s)|].
  intros now'. unfold validateSession; simpl. rewrite ?Hi; simpl.
  by rewrite Hgone.
Qed.

Lemma sign_in_round_trip_witness :
  ∃ s1 user sessionToken,
    authenticate 100 "usr_100_a" "tok_100_a" "aa" "a@b.com"
        "longenoughpassword" "password" Scenarios.auth
      = Return (s1, AuthOk user sessionToken) ∧
    TokenService.issued_id sessionToken = "tok_100_a" ∧
    getCurrentUser s1 = Return (Some user) ∧
    localStorage s1
      = (λ _, Some "tok_100_a") <$> localStorage Scenarios.auth ∧
    (∀ now', ∃ s',
       validateSession now' "tok_100_a" s1
         = Return (s', bool_decide (now' ≤ 100 + 86400000))) ∧
    ∃ s2,
      logout s1 = Return (s2, true) ∧
      getCurrentUser s2 = Return None ∧
      localStorage s2 = (λ _, None) <$> localStorage Scenarios.auth ∧
      ∀ now', validateSession now' "tok_100_a" s2 = Return (s2, false).
Proof.
  apply (sign_in_round_trip 100 "usr_100_a" "tok_100_a" "aa" "a@b.com"
           "longenoughpassword" "password" Scenarios.auth
           (TokenService.initialize TokenService.new).1); reflexivity.
Defined.

(** X7. A sign-in attempt either succeeds, and then the credentials passed
    the shape check and the new session and current user are in place,
    or it fails and leaves the coordinator exactly as it was: a failed
    attempt does not disturb the session of whoever is signed in. *)
Theorem authenticate_all_or_nothing (now : Z)
    (userId tokenId tokenValue identifier credential method : string)
    (s s' : t) (result : AuthResult) :
  authenticate now userId tokenId tokenValue identifier credential method s
    = Return (s', result) →
  match result with
  | AuthFailed _ => s' = s
  | AuthOk user sessionToken =>
      _validateCredentials identifier credential method = true ∧
      currentUser s' = Some user ∧
      sessions s' !! tokenId = Some (mkSession user tokenId now) ∧
      ∀ other, other ≠ tokenId → sessions s' !! other = sessions s !! other
  end.
Proof.
  unfold authenticate. destruct (initialized s); simpl; [|done].
  destruct (_validateCredentials identifier credential method); simpl;
    [|by intros [= <- <-]].
  destruct (tokenService s) as [store|]; [|by intros [= <- <-]].
  unfold TokenService.createToken.
  destruct (TokenService.initialized store); simpl; [|by intros [= <- <-]].
  intros [= <- <-]. simpl. split; [done|]. split; [done|].
  rewrite lookup_insert_eq. split; [done|].
  intros other Hne. by rewrite lookup_insert_ne.
Qed.

Lemma authenticate_all_or_nothing_witness :
  let user := mkUser 0 "usr_100_a" "a@b.com" "password" 100 in
  _validateCredentials "a@b.com" "longenoughpassword" "password" = true ∧
  currentUser Scenarios.auth_once = Some user ∧
  sessions Scenarios.auth_once !! "tok_100_a"
    = Some (mkSession user "tok_100_a" 100) ∧
  ∀ other, other ≠ "tok_100_a" →
           sessions Scenarios.auth_once !! other
             = sessions Scenarios.auth !! other.
Proof.
  apply (authenticate_all_or_nothing 100 "usr_100_a" "tok_100_a" "aa"
           "a@b.com" "longenoughpassword" "password" Scenarios.auth
           Scenarios.auth_once
           (AuthOk (mkUser 0 "usr_100_a" "a@b.com" "password" 100)
              (TokenService.mkIssued "tok_100_a" "aa" "session" 86400100))).
  reflexivity.
Defined.

(** X8. Method "token" looks at the shape of the credential only: any
    credential that begins with "tok_" signs in, whether or not the
    token store holds a token of that id. *)
Theorem token_method_ignores_store (now : Z)
    (userId tokenId tokenValue identifier suffix : string)
    (s : t) (store : TokenService.t) :
  initialized s = true →
  tokenService s = Some store →
  TokenService.initialized store = true →
  identifier ≠ "" →
  TokenService.tokens store !! ("tok_" +:+ suffix) = None →
  ∃ s1 user sessionToken,
    authenticate now userId tokenId tokenValue identifier ("tok_" +:+ suffix)
      "token" s = Return (s1, AuthOk user sessionToken).
Proof.
  intros Hi Hst Hsi Hid _.
  destruct (authenticate_accepts now userId tokenId tokenValue identifier
              ("tok_" +:+ suffix) "token" s store Hi (conj Hst Hsi))
    as [s1 Hauth].
  - unfold _validateCredentials.
    rewrite (bool_decide_eq_false_2 (identifier = "")) by done. simpl.
    by destruct suffix.
  - by eexists _, _, _.
Qed.

Lemma token_method_ignores_store_witness :
  ∃ s1 user sessionToken,
    authenticate 400 "usr_400_d" "tok_400_d" "dd" "someone"
      ("tok_" +:+ "never-issued") "token" Scenarios.auth
      = Return (s1, AuthOk user sessionToken).
Proof.
  apply (token_method_ignores_store 400 "usr_400_d" "tok_400_d" "dd"
           "someone" "never-issued" Scenarios.auth
           (TokenService.initialize TokenService.new).1);
    [reflexivity | reflexivity | reflexivity | discriminate | reflexivity].
Defined.

(** X9. With a token store that has not been initialized, a sign-in with
    well-shaped credentials does not throw: it reports the store's
    error as a failed result and changes nothing. [validateSession]
    for an id under which no session is recorded answers [false]
    there, without consulting the store. *)
Theorem uninitialized_store_is_reported (now : Z)
    (userId tokenId tokenValue identifier credential method : string)
    (s : t) (store : TokenService.t) :
  initialized s = true →
  tokenService s = Some store →
  TokenService.initialized store = false →
  _validateCredentials identifier credential method = true →
  authenticate now userId tokenId tokenValue identifier credential method s
    = Return (s, AuthFailed TokenService.not_initialized) ∧
  ∀ known, sessions s !! known = None →
           validateSession now known s = Return (s, false).
Proof.
  intros Hi Hst Hsi Hv. split.
  - unfold authenticate. rewrite Hi, Hv, Hst; simpl.
    unfold TokenService.createToken. by rewrite Hsi.
  - intros known Hk. unfold validateSession. by rewrite Hi, Hk.
Qed.

Lemma uninitialized_store_is_reported_witness :
  authenticate 9 "usr_9_y" "tok_9_y" "yy" "y@y.com" "longenoughpassword"
      "password" Scenarios.auth_storeless
    = Return (Scenarios.auth_storeless,
              AuthFailed TokenService.not_initialized) ∧
  ∀ known, AuthService.sessions Scenarios.auth_storeless !! known = None →
           validateSession 9 known Scenarios.auth_storeless
             = Return (Scenarios.auth_storeless, false).
Proof.
  apply (uninitialized_store_is_reported 9 "usr_9_y" "tok_9_y" "yy" "y@y.com"
           "longenoughpassword" "password" Scenarios.auth_storeless
           TokenService.new); reflexivity.
Defined.

(** X10. [validateSession] answers [true] exactly when a session is
    recorded under the id and the token of that id is stored, still
    flagged valid and not past its expiry; whatever it answers, it
    leaves the session map and the current user as they were. *)
Theorem validateSession_iff_session_and_token (now : Z) (tokenId : string)
    (s : t) (store : TokenService.t) :
  initialized s = true →
  tokenService s = Some store →
  TokenService.initialized store = true →
  ∃ s' answer,
    validateSession now tokenId s = Return (s', answer) ∧
    sessions s' = sessions s ∧
    currentUser s' = currentUser s ∧
    (answer = true ↔
     is_Some (sessions s !! tokenId) ∧
     ∃ token, TokenService.tokens store !! tokenId = Some token ∧
              TokenService.valid token = true ∧
              now ≤ TokenService.expiresAt token).
Proof.
  intros Hi Hst Hsi. unfold validateSession. rewrite Hi; simpl.
  destruct (sessions s !! tokenId) as [session|] eqn:Hk.
  - rewrite Hst. unfold TokenService.validateToken. rewrite Hsi; simpl.
    destruct (TokenService.tokens store !! tokenId) as [token|] eqn:Ht.
    + destruct (Z.gtb_spec now (TokenService.expiresAt token)).
      * eexists _, _. do 3 (split; [done|]). split; [done|].
        intros [_ (tok & [= <-] & _ & ?)]. lia.
      * eexists _, _. do 3 (split; [done|]). split.
        -- intros Hv. split; [done|]. exists token. repeat split; [done|lia].
        -- by intros [_ (tok & [= <-] & ? & _)].
    + eexists _, _. do 3 (split; [done|]). split; [done|].
      by intros [_ (tok & ? & _)].
  - eexists _, _. do 3 (split; [done|]). split; [done|].
    by intros [[? ?] _].
Qed.

Lemma validateSession_iff_session_and_token_witness :
  ∃ s' answer,
    validateSession 150 "tok_100_a" Scenarios.auth_once
      = Return (s', answer) ∧
    sessions s' = sessions Scenarios.auth_once ∧
    currentUser s' = currentUser Scenarios.auth_once ∧
    (answer = true ↔
     is_Some (sessions Scenarios.auth_once !! "tok_100_a") ∧
     ∃ token,
       TokenService.tokens
         (state_of (TokenService.initialize TokenService.new).1
            (TokenService.createToken 100 "tok_100_a" "aa" "session"
               (<["userId" := "usr_100_a"]>
                  (<["identifier" := "a@b.com"]>
                     ({["method" := "password"]})))
               86400000 (TokenService.initialize TokenService.new).1))
         !! "tok_100_a" = Some token ∧
       TokenService.valid token = true ∧
       150 ≤ TokenService.expiresAt token).
Proof.
  apply (validateSession_iff_session_and_token 150 "tok_100_a"
           Scenarios.auth_once); reflexivity.
Defined.

Lemma logout_rounds_nobody entries acc :
  foldl (logout_round None) acc entries = acc.
Proof.
  induction entries as [|e entries IH]; [done|].
  change (foldl (logout_round None) acc (e :: entries))
    with (foldl (logout_round None) acc entries). apply IH.
Qed.

(** X11. [logout] with nobody signed in succeeds and only empties the
    [localStorage] slot: no session is removed and no token revoked,
    even when the token store is missing or unusable. Sessions left
    behind by earlier users therefore stay in the session map. *)
Theorem logout_without_user (s : t) :
  initialized s = true →
  currentUser s = None →
  logout s = Return (_clearPersistedSession s, true).
Proof.
  intros Hi Hc. unfold logout. rewrite Hi, Hc; simpl.
  replace (existsb (λ e : string * Session, false) (map_to_list (sessions s)))
    with false by (by induction (map_to_list (sessions s))).
  simpl. rewrite logout_rounds_nobody.
  destruct s as [ini cur ss ts ls nr]; simpl in *. subst.
  unfold _clearPersistedSession; simpl. by destruct ts.
Qed.

Lemma logout_without_user_witness :
  logout Scenarios.auth_without_store
    = Return (_clearPersistedSession Scenarios.auth_without_store, true) ∧
  sessions (_clearPersistedSession Scenarios.auth_without_store)
    = sessions Scenarios.auth_without_store ∧
  localStorage (_clearPersistedSession Scenarios.auth_without_store)
    = Some None.
Proof.
  split; [|split; reflexivity].
  apply (logout_without_user Scenarios.auth_without_store); reflexivity.
Defined.

(** X12. [logout] with a usable token store always succeeds; it removes
    every session whose user object is the current user and revokes
    its token, and keeps every other session and its token exactly as
    they were. *)
Theorem logout_removes_own_sessions (s : t) (store : TokenService.t) :
  initialized s = true →
  tokenService s = Some store →
  TokenService.initialized store = true →
  ∃ s' store',
    logout s = Return (s', true) ∧
    currentUser s' = None ∧
    tokenService s' = Some store' ∧
    ∀ key session,
      sessions s !! key = Some session →
      if same_user (currentUser s) session
      then sessions s' !! key = None ∧ TokenService.dead key store'
      else sessions s' !! key = Some session ∧
           TokenService.tokens store' !! key
             = TokenService.tokens store !! key.
Proof.
  intros Hi Hst Hsi. unfold logout. rewrite Hi, Hst, Hsi; simpl.
  rewrite andb_false_r.
  pose proof (logout_rounds_of (currentUser s) (map_to_list (sessions s))
                store (sessions s) Hsi) as (_ & R2 & _ & _ & R5).
  destruct (foldl (logout_round (currentUser s)) (store, sessions s)
              (map_to_list (sessions s))) as [store' sessions'].
  simpl in *. eexists _, store'. repeat (split; [done|]).
  intros key session Hk. destruct (same_user (currentUser s) session) eqn:Hsame.
  - simpl. apply (R5 key session); [by apply elem_of_map_to_list|done].
  - destruct (R2 key) as [Ha Hb]; [|simpl; by rewrite Ha, Hb].
    intros session' Hin%elem_of_map_to_list.
    rewrite Hk in Hin. injection Hin as <-. exact Hsame.
Qed.

Lemma logout_removes_own_sessions_witness :
  ∃ s' store',
    logout Scenarios.auth_twice = Return (s', true) ∧
    currentUser s' = None ∧
    tokenService s' = Some store' ∧
    ∀ key session,
      sessions Scenarios.auth_twice !! key = Some session →
      if same_user (currentUser Scenarios.auth_twice) session
      then sessions s' !! key = None ∧ TokenService.dead key store'
      else sessions s' !! key = Some session ∧
           TokenService.tokens store' !! key
             = TokenService.tokens
                 (default TokenService.new
                    (tokenService Scenarios.auth_twice)) !! key.
Proof.
  apply (logout_removes_own_sessions Scenarios.auth_twice
           (default TokenService.new (tokenService Scenarios.auth_twice)));
    reflexivity.
Defined.

End AuthLifecycle.
(** * Further properties of the machine registry *)
Module MachineLifecycle.
Import MachinesAdapter.

Lemma coherent_empty : coherent (initialize new).1.
Proof. split; simpl; intros ?; by rewrite ?lookup_empty. Qed.

Lemma call_coherent (c : Call) (a : t) : coherent a → coherent (call c a).
Proof.
  intros [Hs Hid Hh].
  destruct c as [now machineId config|now machineId event eventData
                |machineId updates|machineId]; simpl.
  - unfold registerMachine, getMachine.
    destruct (initialized a); simpl; [|by split].
    rewrite lookup_insert_eq. simpl. split; simpl.
    + intros k. destruct (decide (machineId = k)) as [->|Hne].
      * by rewrite !lookup_insert_eq.
      * rewrite !lookup_insert_ne by done. apply Hs.
    + intros k machine. destruct (decide (machineId = k)) as [->|Hne].
      * rewrite lookup_insert_eq. by intros [= <-].
      * rewrite lookup_insert_ne by done. apply Hid.
    + intros k history Hk. destruct (Hh k history Hk) as [Hm Hall].
      split; [|done]. destruct (decide (machineId = k)) as [->|Hne].
      * by rewrite lookup_insert_eq.
      * by rewrite lookup_insert_ne.
  - unfold transition. destruct (initialized a); simpl; [|by split].
    destruct (machines a !! machineId) as [machine|] eqn:Hm; [|by split].
    destruct (property (states machine) (key_of (currentState machine)))
      as [stateConfig|]; [|by split].
    destruct (allowed stateConfig event) as [entry|]; [|by split].
    simpl. split; simpl.
    + intros k. destruct (decide (machineId = k)) as [->|Hne].
      * by rewrite !lookup_insert_eq.
      * rewrite !lookup_insert_ne by done. apply Hs.
    + intros k machine'. destruct (decide (machineId = k)) as [->|Hne].
      * rewrite lookup_insert_eq. intros [= <-].
        destruct (actions_of entry); simpl; by apply Hid.
      * rewrite lookup_insert_ne by done. apply Hid.
    + intros k history. destruct (decide (machineId = k)) as [->|Hne].
      * rewrite !lookup_insert_eq. intros [= <-]. split; [done|].
        apply Forall_app. split; [|by repeat constructor].
        destruct (transitions a !! k) as [old|] eqn:Hold; simpl; [|done].
        by destruct (Hh k old Hold).
      * rewrite !lookup_insert_ne by done. apply Hh.
  - unfold updateContext. destruct (initialized a); simpl; [|by split].
    destruct (machines a !! machineId) as [machine|] eqn:Hm; [|by split].
    simpl. split; simpl.
    + intros k. destruct (decide (machineId = k)) as [->|Hne].
      * rewrite lookup_insert_eq, Hs, Hm. done.
      * rewrite lookup_insert_ne by done. apply Hs.
    + intros k machine'. destruct (decide (machineId = k)) as [->|Hne].
      * rewrite lookup_insert_eq. intros [= <-]. simpl. by apply Hid.
      * rewrite lookup_insert_ne by done. apply Hid.
    + intros k history Hk. destruct (Hh k history Hk) as [Hin Hall].
      split; [|done]. destruct (decide (machineId = k)) as [->|Hne].
      * by rewrite lookup_insert_eq.
      * by rewrite lookup_insert_ne.
  - unfold removeMachine. destruct (initialized a); simpl; [|by split].
    destruct (machines a !! machineId) as [machine|] eqn:Hm; [|by split].
    simpl. split; simpl.
    + intros k. destruct (decide (machineId = k)) as [->|Hne].
      * by rewrite !lookup_delete_eq.
      * rewrite !lookup_delete_ne by done. apply Hs.
    + intros k machine'. destruct (decide (machineId = k)) as [->|Hne].
      * by rewrite lookup_delete_eq.
      * rewrite lookup_delete_ne by done. apply Hid.
    + intros k history. destruct (decide (machineId = k)) as [->|Hne].
      * by rewrite lookup_delete_eq.
      * rewrite !lookup_delete_ne by done. apply Hh.
Qed.

Lemma registry_call_initialized (c : Call) (a : t) :
  initialized (call c a) = initialized a.
Proof.
  destruct c; simpl;
    unfold registerMachine, getMachine, transition, updateContext,
      removeMachine;
    destruct (initialized a) eqn:Hi; simpl; try done;
    repeat (case_match; simpl; simplify_eq; try done).
Qed.

Lemma calls_coherent (cs : list Call) (a : t) :
  coherent a → coherent (calls cs a).
Proof.
  unfold calls. revert a. induction cs as [|c cs IH]; intros a Ha; [done|].
  apply (IH (call c a)), call_coherent, Ha.
Qed.

Lemma registry_calls_initialized (cs : list Call) (a : t) :
  initialized (calls cs a) = initialized a.
Proof.
  unfold calls. revert a. induction cs as [|c cs IH]; intros a; [done|].
  rewrite <-(registry_call_initialized c a). apply (IH (call c a)).
Qed.

(** X13. For machines whose transitions carry no actions (so that
    every call is done when it returns), whatever sequence of
    registrations, transitions, context updates and removals an
    initialized registry has gone through, its three maps agree: the
    state map holds the current state of exactly the registered
    machines, history exists only for registered machines, and every
    record is filed under the machine it names. [getCurrentState]
    reports the state the state map holds, and so does [getStatus],
    except for a machine named "__proto__", which it leaves out. *)
Theorem registry_stays_coherent (cs : list Call) :
  forallb registers_no_actions cs = true →
  coherent (calls cs (initialize new).1) ∧
  machineStates (getStatus (calls cs (initialize new).1))
    = delete "__proto__" (current (calls cs (initialize new).1)) ∧
  ∀ machineId,
    getCurrentState machineId (calls cs (initialize new).1)
      = Return (current (calls cs (initialize new).1) !! machineId).
Proof.
  intros _.
  pose proof (calls_coherent cs _ coherent_empty) as Hc. split; [done|].
  split.
  - apply map_eq. intros k. unfold getStatus; simpl.
    destruct (decide (k = "__proto__")) as [->|Hne].
    + by rewrite !lookup_delete_eq.
    + rewrite !lookup_delete_ne by done.
      by rewrite lookup_fmap, (coherent_states _ Hc).
  - intros machineId. unfold getCurrentState.
    rewrite registry_calls_initialized; simpl. by rewrite (coherent_states _ Hc).
Qed.

Lemma registry_stays_coherent_witness :
  coherent (calls Scenarios.flow_calls (initialize new).1) ∧
  machineStates (getStatus (calls Scenarios.flow_calls (initialize new).1))
    = delete "__proto__"
        (current (calls Scenarios.flow_calls (initialize new).1)) ∧
  ∀ machineId,
    getCurrentState machineId (calls Scenarios.flow_calls (initialize new).1)
      = Return (current (calls Scenarios.flow_calls (initialize new).1)
                  !! machineId).
Proof. apply (registry_stays_coherent Scenarios.flow_calls). reflexivity. Defined.

(** X14. A transition for which the current state's table has an entry
    of its own without actions (a non-empty state name, or an object
    with a target) succeeds: the machine moves to the target, one
    record is appended to its history, and the result names the state
    left, the state entered and the event. The machine's context and
    definition and every other machine are untouched. *)
Theorem transition_commits (now : Z) (machineId event : string)
    (eventData : Obj) (a : t) (machine : Machine) (stateConfig : StateConfig)
    (table : list (string * Transition)) (entry : Transition) :
  initialized a = true →
  machines a !! machineId = Some machine →
  states machine !! key_of (currentState machine) = Some stateConfig →
  on stateConfig = Some table →
  own table !! event = Some entry →
  entry ≠ Target "" →
  immediate entry = true →
  ∃ a',
    transition now machineId event eventData a
      = Return (a', Moved (currentState machine) (target_of (Own entry))
                      event) ∧
    getCurrentState machineId a' = Return (Some (target_of (Own entry))) ∧
    getContext machineId a' = Return (Some (context machine)) ∧
    states <$> machines a' !! machineId = Some (states machine) ∧
    transitions a' !! machineId
      = Some (default [] (transitions a !! machineId)
                ++ [mkRecord machineId (currentState machine)
                      (target_of (Own entry)) event eventData now]) ∧
    ∀ other, other ≠ machineId →
      machines a' !! other = machines a !! other ∧
      transitions a' !! other = transitions a !! other.
Proof.
  intros Hi Hm Hs Hon He Hne Him.
  assert (property (states machine) (key_of (currentState machine))
            = Some (Own stateConfig)) as Hfound
    by (unfold property; by rewrite Hs).
  unfold transition. rewrite Hi, Hm; simpl. rewrite Hfound.
  unfold allowed, property. rewrite Hon, He.
  unfold getCurrentState, getContext.
  destruct entry as [[|c state]|target [actions|]]; [done| |done|];
    (eexists; split; [reflexivity|]); simpl; rewrite ?Hi; simpl;
    rewrite !lookup_insert_eq; simpl; repeat (split; [done|]);
    intros other Hother; by rewrite !lookup_insert_ne.
Qed.

Lemma transition_commits_witness :
  ∃ a',
    transition 5 "menu" "a" ∅ Scenarios.menu_registry
      = Return (a', Moved "open" (target_of (Own (Target "open"))) "a") ∧
    getCurrentState "menu" a'
      = Return (Some (target_of (Own (Target "open")))) ∧
    getContext "menu" a' = Return (Some (context Scenarios.menu_machine)) ∧
    states <$> machines a' !! "menu"
      = Some (states Scenarios.menu_machine) ∧
    transitions a' !! "menu"
      = Some (default [] (transitions Scenarios.menu_registry !! "menu")
                ++ [mkRecord "menu" "open"
                      (target_of (Own (Target "open"))) "a" ∅ 5]) ∧
    ∀ other, other ≠ "menu" →
      machines a' !! other = machines Scenarios.menu_registry !! other ∧
      transitions a' !! other
        = transitions Scenarios.menu_registry !! other.
Proof.
  apply (transition_commits 5 "menu" "a" ∅ Scenarios.menu_registry
           Scenarios.menu_machine (mkStateConfig (Some Scenarios.menu_table))
           Scenarios.menu_table (Target "open"));
    try reflexivity.
  discriminate.
Defined.

(** X16. [getTransitionHistory(id, limit)] with a positive limit returns the
    last [limit] records (all of them if there are fewer), oldest
    first. With limit 0 it returns the whole history, not none of it,
    and with a negative limit it drops that many of the oldest
    records. For an id without history it returns the empty list. *)
Theorem getTransitionHistory_limit (machineId : string) (limit : Z)
    (a : t) :
  initialized a = true →
  let history := default [] (transitions a !! machineId) in
  ∃ returned,
    getTransitionHistory machineId limit a = Return returned ∧
    (0 < limit →
       returned = drop (length history - Z.to_nat limit) history ∧
       length returned = Nat.min (Z.to_nat limit) (length history)) ∧
    (limit = 0 → returned = history) ∧
    (limit < 0 → returned = drop (Z.to_nat (- limit)) history).
Proof.
  intros Hi history. unfold getTransitionHistory, slice. rewrite Hi; simpl.
  fold history. eexists. split; [done|].
  split; [|split].
  - intros Hpos. destruct (Z.ltb_spec (- limit) 0) as [_|?]; [|lia].
    assert (Z.to_nat (Z.max (Z.of_nat (length history) + - limit) 0)
            = (length history - Z.to_nat limit)%nat) as -> by lia.
    split; [done|]. rewrite length_drop. lia.
  - intros ->. change (- 0 <? 0) with false. cbv iota.
    rewrite Z.min_l by lia. done.
  - intros Hneg. destruct (Z.ltb_spec (- limit) 0) as [?|_]; [lia|].
    destruct (decide (- limit ≤ Z.of_nat (length history))).
    + by rewrite Z.min_l.
    + rewrite Z.min_r by lia. rewrite Nat2Z.id.
      by rewrite !drop_ge by lia.
Qed.

Lemma getTransitionHistory_limit_witness :
  ∃ returned,
    getTransitionHistory "flow" 0 Scenarios.registry_running
      = Return returned ∧
    (0 < 0 →
       returned
         = drop (length (default [] (transitions Scenarios.registry_running
                                       !! "flow")) - Z.to_nat 0)
             (default [] (transitions Scenarios.registry_running !! "flow")) ∧
       length returned
         = Nat.min (Z.to_nat 0)
             (length (default [] (transitions Scenarios.registry_running
                                    !! "flow")))) ∧
    (0 = 0 → returned
             = default [] (transitions Scenarios.registry_running !! "flow")) ∧
    (0 < 0 → returned
             = drop (Z.to_nat (- 0))
                 (default [] (transitions Scenarios.registry_running
                                !! "flow"))).
Proof.
  apply (getTransitionHistory_limit "flow" 0 Scenarios.registry_running).
  reflexivity.
Defined.

(** X17. [registerMachine] accepts an initial state that is not among the
    declared states. The machine is then stuck: [getMachine] lists no
    available transition and no [transition] on it succeeds. It
    throws "Invalid state", unless the state is named like a member of
    [Object.prototype] ("toString", "constructor", ...): then the
    lookup of the state finds that member and the call returns the
    failure "Invalid transition". *)
Theorem undeclared_initial_state_is_stuck (now now' : Z)
    (machineId event : string) (eventData : Obj) (config : Config) (a : t) :
  initialized a = true →
  default ∅ (config_states config) !! config_initialState config = None →
  ∃ a' snapshot,
    registerMachine now machineId config a = Return (a', Some snapshot) ∧
    s_currentState snapshot = State (config_initialState config) ∧
    s_availableTransitions snapshot = [] ∧
    transition now' machineId event eventData a'
      = if inherited (config_initialState config)
        then Return (a', Failed (State (config_initialState config))
                           "Invalid transition")
        else Throw (invalid_state (config_initialState config)).
Proof.
  intros Hi Hnone. unfold registerMachine, getMachine, transition,
    _getAvailableTransitions. rewrite Hi; simpl.
  rewrite !lookup_insert_eq; simpl. unfold property. rewrite Hnone.
  eexists _, _. split; [done|]. simpl. rewrite ?Hi; simpl.
  rewrite ?lookup_insert_eq; simpl. rewrite ?Hnone.
  by destruct (inherited (config_initialState config)).
Qed.

Lemma undeclared_initial_state_is_stuck_witness :
  ∃ a' snapshot,
    registerMachine 0 "ghost" (mkConfig None "toString"
                                 (Some Scenarios.idle_running) None)
      Scenarios.empty_registry = Return (a', Some snapshot) ∧
    s_currentState snapshot = State "toString" ∧
    s_availableTransitions snapshot = [] ∧
    transition 1 "ghost" "START" ∅ a'
      = if inherited "toString"
        then Return (a', Failed (State "toString") "Invalid transition")
        else Throw (invalid_state "toString").
Proof.
  apply (undeclared_initial_state_is_stuck 0 1 "ghost" "START" ∅
           (mkConfig None "toString" (Some Scenarios.idle_running) None)
           Scenarios.empty_registry); reflexivity.
Defined.

(** X18. [updateContext] on a registered machine merges the updates over
    the context: a key of the updates takes the new value, every other
    key keeps its value; state and history are not touched. On an
    unknown machine it returns [false] and changes nothing. *)
Theorem updateContext_merges (machineId : string) (contextUpdates : Obj)
    (a : t) :
  initialized a = true →
  match machines a !! machineId with
  | None => updateContext machineId contextUpdates a = Return (a, false)
  | Some machine =>
      ∃ a' context',
        updateContext machineId contextUpdates a = Return (a', true) ∧
        getContext machineId a' = Return (Some context') ∧
        (∀ key, context' !! key
                = match contextUpdates !! key with
                  | Some v => Some v
                  | None => context machine !! key
                  end) ∧
        getCurrentState machineId a' = getCurrentState machineId a ∧
        transitions a' = transitions a ∧
        ∀ other, other ≠ machineId →
                 machines a' !! other = machines a !! other
  end.
Proof.
  intros Hi. unfold updateContext, getContext, getCurrentState.
  rewrite Hi; simpl.
  destruct (machines a !! machineId) as [machine|] eqn:Hm; [|done].
  eexists _, _. split; [done|]. simpl. rewrite ?Hi; simpl.
  rewrite lookup_insert_eq; simpl. split; [done|]. split.
  { intros key. rewrite lookup_union.
    destruct (contextUpdates !! key), (context machine !! key); done. }
  rewrite ?Hm. split; [done|]. split; [done|].
  intros other Hne. by rewrite lookup_insert_ne.
Qed.

Lemma updateContext_merges_witness :
  ∃ a' context',
    updateContext "flow" {[ "userId" := "user123" ]} Scenarios.registry
      = Return (a', true) ∧
    getContext "flow" a' = Return (Some context') ∧
    (∀ key, context' !! key
            = match ({[ "userId" := "user123" ]} : Obj) !! key with
              | Some v => Some v
              | None => context Scenarios.flow_machine !! key
              end) ∧
    getCurrentState "flow" a' = getCurrentState "flow" Scenarios.registry ∧
    transitions a' = transitions Scenarios.registry ∧
    ∀ other, other ≠ "flow" →
             machines a' !! other = machines Scenarios.registry !! other.
Proof.
  apply (updateContext_merges "flow" {[ "userId" := "user123" ]}
           Scenarios.registry). reflexivity.
Defined.

(** X19. [removeMachine] on a registered machine forgets it entirely: the
    definition, the current state and the history are gone, a later
    [transition] on the id throws "Machine not found", and a machine
    registered again under the id starts with an empty history. On an
    unknown id it returns [false] and changes nothing. *)
Theorem removeMachine_forgets (now : Z) (machineId event : string)
    (eventData : Obj) (limit : Z) (config : Config) (a : t) :
  initialized a = true →
  match machines a !! machineId with
  | None => removeMachine machineId a = Return (a, false)
  | Some _ =>
      ∃ a',
        removeMachine machineId a = Return (a', true) ∧
        getMachine machineId a' = Return None ∧
        getCurrentState machineId a' = Return None ∧
        getContext machineId a' = Return None ∧
        getTransitionHistory machineId limit a' = Return [] ∧
        transition now machineId event eventData a'
          = Throw (machine_not_found machineId) ∧
        getTransitionHistory machineId limit
          (state_of a' (registerMachine now machineId config a'))
          = Return [] ∧
        ∀ other, other ≠ machineId →
          machines a' !! other = machines a !! other ∧
          transitions a' !! other = transitions a !! other
  end.
Proof.
  intros Hi. unfold removeMachine. rewrite Hi; simpl.
  destruct (machines a !! machineId) as [machine|] eqn:Hm; [|done].
  eexists. split; [done|].
  unfold getMachine, getCurrentState, getContext, getTransitionHistory,
    transition, registerMachine, getMachine, slice; simpl.
  rewrite ?Hi; simpl. rewrite ?lookup_delete_eq, ?lookup_insert_eq; simpl.
  rewrite ?Hi; simpl. rewrite ?lookup_delete_eq; simpl. rewrite ?drop_nil.
  repeat (split; [done|]).
  intros other Hne. by rewrite !lookup_delete_ne.
Qed.

Lemma removeMachine_forgets_witness :
  ∃ a',
    removeMachine "flow" Scenarios.registry_running = Return (a', true) ∧
    getMachine "flow" a' = Return None ∧
    getCurrentState "flow" a' = Return None ∧
    getContext "flow" a' = Return None ∧
    getTransitionHistory "flow" 10 a' = Return [] ∧
    transition 6 "flow" "STOP" ∅ a' = Throw (machine_not_found "flow") ∧
    getTransitionHistory "flow" 10
      (state_of a' (registerMachine 6 "flow" Scenarios.flow_config a'))
      = Return [] ∧
    ∀ other, other ≠ "flow" →
      machines a' !! other = machines Scenarios.registry_running !! other ∧
      transitions a' !! other
        = transitions Scenarios.registry_running !! other.
Proof.
  apply (removeMachine_forgets 6 "flow" "STOP" ∅ 10 Scenarios.flow_config
           Scenarios.registry_running). reflexivity.
Defined.

(** ** The keys of a table *)

Lemma first_occurrences_elem (keys : list string) (key : string) :
  key ∈ first_occurrences keys ↔ key ∈ keys.
Proof.
  induction keys as [|k keys IH]; [done|]. simpl.
  rewrite !elem_of_cons, list_elem_of_filter, IH. split.
  - intros [->|[_ ?]]; [by left|by right].
  - intros [->|?]; [by left|].
    destruct (decide (key = k)) as [->|]; [by left|by right].
Qed.

Lemma first_occurrences_NoDup (keys : list string) :
  NoDup (first_occurrences keys).
Proof.
  induction keys as [|k keys IH]; [constructor|]. simpl.
  apply NoDup_cons. split; [|by apply NoDup_filter].
  by intros [? _]%list_elem_of_filter.
Qed.

Lemma indexed_keys (keys : list string) :
  (omap (λ key, (λ n, (n, key)) <$> array_index key) keys).*2
    = filter (λ key, ¬ array_index key = None) keys.
Proof.
  induction keys as [|k keys IH]; [done|].
  change (omap ?f (k :: keys))
    with (match f k with
          | Some y => y :: omap f keys
          | None => omap f keys
          end).
  cbv beta. destruct (array_index k) as [n|] eqn:Hk.
  - rewrite filter_cons_True by (by rewrite Hk).
    cbn [fmap option_fmap option_map]. rewrite fmap_cons. cbn [snd].
    by rewrite IH.
  - rewrite filter_cons_False by (rewrite Hk; tauto). apply IH.
Qed.

Lemma own_keys_perm {V} (props : list (string * V)) :
  own_keys props ≡ₚ first_occurrences props.*1.
Proof.
  unfold own_keys. rewrite merge_sort_Permutation, indexed_keys.
  rewrite (Permutation_app_comm _ _). apply filter_app_complement.
Qed.

Lemma own_keys_elem (table : list (string * Transition)) (key : string) :
  key ∈ own_keys table ↔ is_Some (own table !! key).
Proof.
  rewrite own_keys_perm, first_occurrences_elem. unfold own.
  assert (key ∈ (reverse table).*1 ↔ key ∈ table.*1) as Hrev
    by (by rewrite fmap_reverse, elem_of_reverse).
  destruct (decide (key ∈ table.*1)) as [Hin|Hout].
  - split; [intros _|done]. apply not_eq_None_Some.
    intros Hnone. apply not_elem_of_list_to_map in Hnone.
    by apply Hnone, Hrev.
  - split; [done|]. intros Hsome. apply not_eq_None_Some in Hsome.
    destruct Hsome. apply not_elem_of_list_to_map. by rewrite Hrev.
Qed.

(** X20. For a machine whose transitions carry no actions: the
    [availableTransitions] that [getMachine] reports are the keys of
    the current state's table, each once. A transition that fails
    leaves the registry as it was. An event that is not among the
    reported ones is rejected, unless it is the name of a member of
    [Object.prototype]; a transition that succeeds left the state
    [getMachine] reported and was for one of the reported events, or
    for such a name, in which case the machine is now in the state
    [undefined]. *)
Theorem availableTransitions_bound_transition (now : Z)
    (machineId event : string) (eventData : Obj) (a a' : t)
    (machine : Machine) (snapshot : Snapshot) (result : TransitionResult) :
  machines a !! machineId = Some machine →
  action_free (states machine) = true →
  getMachine machineId a = Return (Some snapshot) →
  transition now machineId event eventData a = Return (a', result) →
  NoDup (s_availableTransitions snapshot) ∧
  (∀ stateConfig table,
     states machine !! key_of (currentState machine) = Some stateConfig →
     on stateConfig = Some table →
     ∀ key, key ∈ s_availableTransitions snapshot
            ↔ is_Some (own table !! key)) ∧
  match result with
  | Moved previous current _ =>
      previous = s_currentState snapshot ∧
      (event ∈ s_availableTransitions snapshot ∨
       inherited event = true ∧ current = Undefined)
  | Failed state error =>
      a' = a ∧ state = s_currentState snapshot ∧
      error = "Invalid transition"
  end ∧
  (event ∉ s_availableTransitions snapshot → inherited event = false →
   result = Failed (s_currentState snapshot) "Invalid transition").
Proof.
  intros Hm _. unfold getMachine, transition, _getAvailableTransitions.
  destruct (initialized a); simpl; [|done]. rewrite Hm.
  intros [= <-]. simpl. unfold property.
  destruct (states machine !! key_of (currentState machine))
    as [[[table|]]|] eqn:Hs.
  - unfold allowed, property; simpl.
    pose proof (own_keys_elem table event) as Hkeys. intros Htr.
    assert (NoDup (own_keys table)) as Hnd.
    { rewrite own_keys_perm. apply first_occurrences_NoDup. }
    split; [done|]. split.
    { intros stateConfig table' [= <-] [= <-]. apply own_keys_elem. }
    revert Htr.
    destruct (own table !! event) as [entry|] eqn:He.
    + assert (event ∈ own_keys table) as Hin by (apply Hkeys; eauto).
      destruct entry as [[|c state]|target actions]; intros [= <- <-].
      * simpl. split; [by split|]. by intros _.
      * simpl. split; [split; [done|by left]|].
        intros Hnot. by destruct (Hnot Hin).
      * simpl. split; [split; [by destruct actions|by left]|].
        intros Hnot. by destruct (Hnot Hin).
    + destruct (inherited event) eqn:Hin; intros [= <- <-]; simpl.
      * split; [split; [done|by right]|]. by intros _ [=].
      * by repeat split.
  - unfold allowed; simpl. intros [= <- <-].
    split; [constructor|]. split; [by intros ? ? [= <-] [=]|].
    by repeat split.
  - destruct (inherited (key_of (currentState machine))); [|done].
    unfold allowed; simpl. intros [= <- <-].
    split; [constructor|]. split; [done|]. by repeat split.
Qed.

Lemma availableTransitions_bound_transition_witness :
  NoDup ["2"; "10"; "b"; "a"; "01"] ∧
  (∀ stateConfig table,
     states Scenarios.menu_machine
       !! key_of (currentState Scenarios.menu_machine) = Some stateConfig →
     on stateConfig = Some table →
     ∀ key, key ∈ ["2"; "10"; "b"; "a"; "01"]
            ↔ is_Some (own table !! key)) ∧
  (State "open" = State "open" ∧
   ("constructor" ∈ ["2"; "10"; "b"; "a"; "01"] ∨
    inherited "constructor" = true ∧ Undefined = Undefined)) ∧
  ("constructor" ∉ ["2"; "10"; "b"; "a"; "01"] →
   inherited "constructor" = false →
   Moved "open" Undefined "constructor"
     = Failed (State "open") "Invalid transition").
Proof.
  apply (availableTransitions_bound_transition 5 "menu" "constructor" ∅
           Scenarios.menu_registry
           (state_of Scenarios.menu_registry
              (transition 5 "menu" "constructor" ∅ Scenarios.menu_registry))
           Scenarios.menu_machine
           (mkSnapshot "menu" "menu" "open" ∅ ["2"; "10"; "b"; "a"; "01"])
           (Moved "open" Undefined "constructor")); reflexivity.
Defined.

End MachineLifecycle.

(** * Further properties of the event bus *)
Module BusLifecycle.
Import IntegrationListener.

(** ** The table as a map, and ids that are never reused *)

Lemma insert_by_perm (x : Listener) (l : list Listener) :
  insert_by by_priority x l ≡ₚ x :: l.
Proof.
  induction l as [|y l IH]; simpl; [done|].
  destruct (by_priority x y <=? 0); [done|].
  rewrite IH. apply Permutation_swap.
Qed.

Lemma sort_perm (l : list Listener) : sort by_priority l ≡ₚ l.
Proof.
  unfold sort. induction l as [|x l IH]; simpl; [done|].
  by rewrite insert_by_perm, IH.
Qed.

Lemma table_ids_cons (key : string) (array : list Listener)
    (rest : list (string * list Listener)) :
  table_ids ((key, array) :: rest) = (id <$> array) ++ table_ids rest.
Proof. done. Qed.

Lemma table_ids_app (l1 l2 : list (string * list Listener)) :
  table_ids (l1 ++ l2) = table_ids l1 ++ table_ids l2.
Proof. unfold table_ids. apply bind_app. Qed.

Lemma alter_keys {V} (f : V → V) (key : string) (entries : list (string * V)) :
  (alter f key entries).*1 = entries.*1.
Proof.
  induction entries as [|[k v] rest IH]; simpl; [done|].
  destruct (decide (k = key)); simpl; [done|]. f_equal. apply IH.
Qed.

Lemma get_None {V} (key : string) (entries : list (string * V)) :
  get key entries = None ↔ key ∉ entries.*1.
Proof.
  induction entries as [|[k v] rest IH]; simpl.
  - split; [intros _; apply not_elem_of_nil|done].
  - rewrite not_elem_of_cons. destruct (decide (k = key)) as [->|Hne].
    + split; [done|]. by intros [? _].
    + rewrite IH. split; [by intros ?|]. by intros [_ ?].
Qed.

Lemma get_alter {V} (f : V → V) (key key' : string)
    (entries : list (string * V)) :
  get key' (alter f key entries)
    = if decide (key = key') then f <$> get key entries
      else get key' entries.
Proof.
  induction entries as [|[k v] rest IH]; simpl; [by case_decide|].
  destruct (decide (k = key)) as [->|Hne]; simpl.
  - destruct (decide (key = key')) as [->|Hne']; simpl.
    + by destruct (decide (key' = key')).
    + by destruct (decide (key = key')).
  - destruct (decide (k = key')) as [->|Hne']; simpl.
    + by destruct (decide (key = key')).
    + apply IH.
Qed.

Lemma get_snoc {V} (key key' : string) (v : V) (entries : list (string * V)) :
  get key' (entries ++ [(key, v)])
    = match get key' entries with
      | Some w => Some w
      | None => if decide (key = key') then Some v else None
      end.
Proof.
  induction entries as [|[k w] rest IH]; simpl; [done|].
  destruct (decide (k = key')); [done|apply IH].
Qed.

Lemma table_ids_alter (f : list Listener → list Listener) (x : Listener)
    (key : string) (entries : list (string * list Listener)) :
  (∀ array, f array ≡ₚ x :: array) →
  key ∈ entries.*1 →
  table_ids (alter f key entries) ≡ₚ id x :: table_ids entries.
Proof.
  intros Hf. induction entries as [|[k v] rest IH]; simpl.
  { by intros ?%elem_of_nil. }
  intros Hin. destruct (decide (k = key)) as [->|Hne].
  - rewrite !table_ids_cons, Hf. done.
  - apply elem_of_cons in Hin as [?|Hin]; [done|].
    rewrite !table_ids_cons, (IH Hin). by rewrite Permutation_middle.
Qed.

Lemma ids_below (n : nat) (entries : list (string * list Listener)) :
  sorted_table n entries → Forall (λ i, (i < n)%nat) (table_ids entries).
Proof.
  induction 1 as [|[k v] rest [_ Hids] _ IH]; [constructor|].
  rewrite table_ids_cons. apply Forall_app. split; [|done].
  by apply Forall_fmap.
Qed.

Lemma without_cons (listenerId : nat) (key : string) (array : list Listener)
    (rest : list (string * list Listener)) :
  without listenerId ((key, array) :: rest)
    = (key, filter (λ l, id l ≠ listenerId) array) :: without listenerId rest.
Proof. done. Qed.

Lemma filter_absent (listenerId : nat) (array : list Listener) :
  listenerId ∉ id <$> array →
  filter (λ l, id l ≠ listenerId) array = array.
Proof.
  induction array as [|l array IH]; [done|].
  rewrite fmap_cons, not_elem_of_cons. intros [Hne Hnot].
  rewrite filter_cons_True by done. by rewrite (IH Hnot).
Qed.

Lemma without_absent (listenerId : nat)
    (entries : list (string * list Listener)) :
  listenerId ∉ table_ids entries → without listenerId entries = entries.
Proof.
  induction entries as [|[k v] rest IH]; [done|].
  rewrite table_ids_cons, not_elem_of_app. intros [Hv Hrest].
  by rewrite without_cons, (IH Hrest), filter_absent.
Qed.

Lemma delete_unique (array : list Listener) (index : nat) (x : Listener) :
  array !! index = Some x → NoDup (id <$> array) →
  delete index array = filter (λ l, id l ≠ id x) array.
Proof.
  revert index. induction array as [|y array IH]; intros [|index]; simpl;
    try done.
  - intros [= ->] [Hnot Hnd]%NoDup_cons.
    rewrite filter_cons_False by (by intros ?).
    by rewrite filter_absent.
  - intros Hl [Hnot Hnd]%NoDup_cons.
    rewrite filter_cons_True.
    + by rewrite (IH index Hl Hnd).
    + intros Heq. apply Hnot. rewrite Heq. apply list_elem_of_fmap.
      exists x. split; [done|]. by eapply list_elem_of_lookup_2.
Qed.

(** With ids that are not shared, [off] removes the listener of the
    given id wherever it is, and finds nothing otherwise. *)
Lemma off_entries_without (listenerId : nat)
    (entries : list (string * list Listener)) :
  NoDup (table_ids entries) →
  off_entries listenerId entries
    = if decide (listenerId ∈ table_ids entries)
      then Some (without listenerId entries) else None.
Proof.
  induction entries as [|[k v] rest IH].
  { intros _. rewrite decide_False; [done|apply not_elem_of_nil]. }
  rewrite table_ids_cons. intros (Hv & Hdisj & Hrest)%NoDup_app.
  simpl off_entries.
  destruct (list_find (λ l, id l = listenerId) v) as [[index x]|] eqn:Hfind.
  - apply list_find_Some in Hfind as (Hl & Hx & _).
    assert (listenerId ∈ id <$> v) as Hin.
    { apply list_elem_of_fmap. exists x. split; [done|].
      by eapply list_elem_of_lookup_2. }
    rewrite decide_True by (apply elem_of_app; by left).
    rewrite without_cons, without_absent by (by apply Hdisj).
    rewrite (delete_unique v index x Hl Hv). by rewrite Hx.
  - apply list_find_None in Hfind.
    assert (listenerId ∉ id <$> v) as Hnot.
    { intros (l & Hl & Hin)%list_elem_of_fmap.
      rewrite Forall_forall in Hfind. by apply (Hfind l Hin). }
    rewrite (IH Hrest).
    destruct (decide (listenerId ∈ table_ids rest)) as [Hin|Hout].
    + rewrite decide_True by (apply elem_of_app; by right).
      rewrite without_cons, filter_absent by done. done.
    + rewrite decide_False; [done|].
      rewrite not_elem_of_app. done.
Qed.

Lemma without_keys (listenerId : nat)
    (entries : list (string * list Listener)) :
  (without listenerId entries).*1 = entries.*1.
Proof.
  induction entries as [|[k v] rest IH]; [done|].
  rewrite without_cons. simpl. f_equal. apply IH.
Qed.

Lemma table_ids_without (listenerId : nat)
    (entries : list (string * list Listener)) :
  table_ids (without listenerId entries)
    = filter (λ i, i ≠ listenerId) (table_ids entries).
Proof.
  induction entries as [|[k v] rest IH]; [done|].
  rewrite without_cons, !table_ids_cons, filter_app, IH. f_equal.
  clear. induction v as [|l v IH]; [done|].
  rewrite fmap_cons. destruct (decide (id l = listenerId)) as [Heq|Hne].
  - rewrite !filter_cons_False by (by intros ?). apply IH.
  - rewrite !filter_cons_True by done. rewrite fmap_cons. f_equal. apply IH.
Qed.

Lemma get_without (listenerId : nat) (key : string)
    (entries : list (string * list Listener)) :
  get key (without listenerId entries)
    = filter (λ l, id l ≠ listenerId) <$> get key entries.
Proof.
  induction entries as [|[k v] rest IH]; [done|].
  rewrite without_cons. simpl. by destruct (decide (k = key)).
Qed.

(** What [on] and [off] do to the table. *)
Lemma on_listeners (eventType : string) (h : Handler) (options : Options)
    (s : t) :
  initialized s = true →
  let listener :=
    mkListener (nextListener s) eventType h
      (default false (options_once options))
      (default 0 (options_priority options)) in
  ∃ s',
    on eventType h options s = Return (s', nextListener s) ∧
    perform (On eventType h options) s = s' ∧
    nextListener s' = S (nextListener s) ∧
    listeners s'
      = alter (λ array, sort by_priority (array ++ [listener])) eventType
          (match get eventType (listeners s) with
           | Some _ => listeners s
           | None => listeners s ++ [(eventType, [])]
           end).
Proof.
  intros Hi listener. unfold perform, on. rewrite Hi; simpl. by eexists.
Qed.

Lemma off_listeners (listenerId : nat) (s : t) :
  initialized s = true → NoDup (table_ids (listeners s)) →
  ∃ s',
    off listenerId s
      = Return (s', bool_decide (listenerId ∈ table_ids (listeners s))) ∧
    perform (Off listenerId) s = s' ∧
    listeners s' = without listenerId (listeners s) ∧
    nextListener s' = nextListener s ∧ initialized s' = true.
Proof.
  intros Hi Hnd. unfold perform, off. rewrite Hi; simpl.
  rewrite (off_entries_without _ _ Hnd).
  destruct (decide (listenerId ∈ table_ids (listeners s))) as [Hin|Hout].
  - rewrite bool_decide_eq_true_2 by done. by eexists.
  - rewrite bool_decide_eq_false_2 by done. eexists.
    repeat (split; [done|]). split; [|done].
    by rewrite without_absent.
Qed.

Lemma perform_distinct (c : Call) (s : t) :
  consistent s → distinct s → distinct (perform c s).
Proof.
  intros Hc [Hkeys Hids].
  pose proof (consistent_initialized _ Hc) as Hi.
  destruct c as [eventType eventData|eventType h options|listenerId].
  - unfold perform, emit, _processQueue. rewrite Hi; simpl.
    destruct (_ || _); by split.
  - destruct (on_listeners eventType h options s Hi)
      as (s' & _ & -> & _ & Hl).
    cbv zeta in Hl.
    pose proof (ids_below _ _ (consistent_sorted _ Hc)) as Hbelow.
    set (x := mkListener (nextListener s) eventType h
                (default false (options_once options))
                (default 0 (options_priority options))) in *.
    set (entries := match get eventType (listeners s) with
                    | Some _ => listeners s
                    | None => listeners s ++ [(eventType, [])]
                    end) in *.
    assert (NoDup entries.*1 ∧ eventType ∈ entries.*1 ∧
            table_ids entries = table_ids (listeners s))
      as (Hk & Hin & Ht).
    { unfold entries.
      destruct (get eventType (listeners s)) as [array|] eqn:Hget.
      - split; [done|]. split; [|done].
        destruct (decide (eventType ∈ (listeners s).*1)) as [|Hout];
          [done|]. apply get_None in Hout. congruence.
      - apply get_None in Hget. rewrite fmap_app, table_ids_app. simpl.
        split; [|split].
        + apply NoDup_app. split; [done|]. split; [|apply NoDup_singleton].
          intros k Hk ->%list_elem_of_singleton. done.
        + apply elem_of_app. right. left.
        + unfold table_ids at 2. simpl. by rewrite app_nil_r. }
    split; rewrite Hl.
    + by rewrite alter_keys.
    + rewrite (table_ids_alter _ x); [|intros array|done].
      * rewrite Ht. apply NoDup_cons. split; [|done].
        intros Hx. rewrite Forall_forall in Hbelow.
        specialize (Hbelow _ Hx). simpl in Hbelow. lia.
      * rewrite sort_perm. by rewrite Permutation_app_comm.
  - destruct (off_listeners listenerId s Hi Hids)
      as (s' & _ & -> & Hl & _).
    split; rewrite Hl.
    + by rewrite without_keys.
    + rewrite table_ids_without. by apply NoDup_filter.
Qed.

Lemma offs_invariants (toRemove : list nat) (s : t) :
  consistent s → distinct s →
  distinct (foldl (λ s listenerId, perform (Off listenerId) s) s toRemove).
Proof.
  revert s. induction toRemove as [|i rest IH]; intros s Hc Hd; [done|].
  apply (IH (perform (Off i) s)).
  - by apply BusFacts.perform_consistent.
  - by apply perform_distinct.
Qed.

Lemma tick_distinct (s : t) : consistent s → distinct s → distinct (tick s).
Proof.
  intros Hc Hd. unfold tick.
  destruct (frame s) as [| |event index toRemove
                         |event index toRemove listener pending raises]
    eqn:Hframe; [done|..].
  - destruct (eventQueue s); [by destruct Hd|]. simpl.
    repeat case_match; by destruct Hd.
  - destruct (default [] (get _ _) !! index) as [listener|].
    + destruct (handler listener event). by destruct Hd.
    + apply offs_invariants; [|by destruct Hd].
      apply BusFacts.set_frame_consistent; [done|congruence|done|by right].
  - destruct pending as [|c pending]; [by destruct Hd|].
    apply perform_distinct; [|by destruct Hd].
    apply BusFacts.set_frame_consistent; [done|congruence|done|].
    left. by rewrite Hframe.
Qed.

Lemma run_invariants (steps : list Step) (s : t) :
  consistent s → distinct s →
  consistent (run steps s) ∧ distinct (run steps s).
Proof.
  unfold run. revert s.
  induction steps as [|x steps IH]; intros s Hc Hd; [done|].
  apply (IH (step x s)).
  - by apply BusFacts.step_consistent.
  - destruct x; [by apply perform_distinct|by apply tick_distinct].
Qed.

Lemma fresh_distinct : distinct fresh.
Proof. split; simpl; constructor. Qed.

Lemma reachable (steps : list Step) :
  consistent (run steps fresh) ∧ distinct (run steps fresh).
Proof. apply run_invariants; [apply BusFacts.fresh_consistent|apply fresh_distinct]. Qed.

(** ** Registration and removal *)

Lemma getListeners_get (eventType : string) (s : t) :
  initialized s = true →
  getListeners eventType s
    = Return (default [] (get eventType (listeners s))).
Proof. intros Hi. unfold getListeners. by rewrite Hi. Qed.

(** X21. On a bus that has been initialized and used in any way, [on]
    adds exactly the new listener to the array of its event type (the
    array afterwards is a rearrangement of the old array and the new
    listener), and leaves the arrays of all other event types as they
    were. *)
Theorem on_registers_one_listener (steps : list Step) (eventType : string)
    (h : Handler) (options : Options) :
  let s := run steps fresh in
  let listener :=
    mkListener (nextListener s) eventType h
      (default false (options_once options))
      (default 0 (options_priority options)) in
  ∃ s' old new,
    on eventType h options s = Return (s', id listener) ∧
    getListeners eventType s = Return old ∧
    getListeners eventType s' = Return new ∧
    new ≡ₚ listener :: old ∧
    ∀ other, other ≠ eventType →
             getListeners other s' = getListeners other s.
Proof.
  intros s listener. destruct (reachable steps) as [Hc Hd]. fold s in Hc, Hd.
  pose proof (consistent_initialized _ Hc) as Hi.
  destruct (on_listeners eventType h options s Hi)
    as (s' & Hon & Hperform & _ & Hl).
  assert (initialized s' = true) as Hi'.
  { rewrite <-Hperform.
    apply (consistent_initialized _ (BusFacts.perform_consistent _ _ Hc)). }
  cbv zeta in Hl. fold listener in Hl.
  exists s'. eexists _, _. split; [exact Hon|].
  rewrite !getListeners_get by done. split; [done|]. split; [done|].
  rewrite Hl. split.
  - rewrite get_alter, decide_True by done.
    destruct (get eventType (listeners s)) as [array|] eqn:Hget; simpl.
    + rewrite Hget. simpl. rewrite sort_perm.
      by rewrite Permutation_app_comm.
    + rewrite get_snoc, Hget, decide_True by done. simpl. done.
  - intros other Hne. rewrite !getListeners_get by done.
    rewrite Hl, get_alter, decide_False by done.
    destruct (get eventType (listeners s)); [done|].
    rewrite get_snoc. destruct (get other (listeners s)); [done|].
    by rewrite decide_False.
Qed.

Lemma total_is_length (entries : list (string * list Listener)) :
  sum_list ((λ entry, length entry.2) <$> entries)
    = length (table_ids entries).
Proof.
  induction entries as [|[k v] rest IH]; [done|].
  rewrite table_ids_cons, length_app, length_fmap, <-IH. reflexivity.
Qed.

Lemma length_filter_unique (i : nat) (l : list nat) :
  NoDup l →
  length (filter (λ j, j ≠ i) l)
    = (length l - (if decide (i ∈ l) then 1 else 0))%nat.
Proof.
  induction 1 as [|j l Hnot Hnd IH]; [done|].
  destruct (decide (j = i)) as [->|Hne].
  - rewrite filter_cons_False by (by intros ?).
    rewrite decide_True by left.
    rewrite IH, decide_False by done. simpl. lia.
  - rewrite filter_cons_True by done. simpl. rewrite IH.
    destruct (decide (i ∈ l)) as [Hin|Hout].
    + rewrite decide_True by (by right).
      destruct l; [by apply elem_of_nil in Hin|simpl; lia].
    + rewrite decide_False; [lia|].
      rewrite not_elem_of_cons. by split.
Qed.

(** X22. On a bus that has been initialized and used in any way, [off]
    returns [true] exactly when a listener of that id is registered;
    it removes that listener and no other, so the total reported by
    [getStatus] drops by one, or by nothing when it returns [false];
    afterwards no listener has the id. *)
Theorem off_removes_that_listener (steps : list Step) (listenerId : nat) :
  let s := run steps fresh in
  let found := bool_decide (listenerId ∈ table_ids (listeners s)) in
  ∃ s',
    off listenerId s = Return (s', found) ∧
    (∀ eventType array,
       getListeners eventType s = Return array →
       getListeners eventType s'
         = Return (filter (λ l, id l ≠ listenerId) array)) ∧
    totalListeners (getStatus s')
      = (totalListeners (getStatus s) - (if found then 1 else 0))%nat ∧
    listenerId ∉ table_ids (listeners s').
Proof.
  intros s found. destruct (reachable steps) as [Hc [_ Hids]].
  fold s in Hc, Hids.
  pose proof (consistent_initialized _ Hc) as Hi.
  destruct (off_listeners listenerId s Hi Hids)
    as (s' & Hoff & _ & Hl & _ & Hi').
  exists s'. split; [exact Hoff|]. split; [|split].
  - intros eventType array. rewrite !getListeners_get by done.
    intros [= <-]. rewrite Hl, get_without.
    by destruct (get eventType (listeners s)).
  - unfold getStatus; simpl. rewrite !total_is_length, Hl, table_ids_without.
    rewrite length_filter_unique by done. unfold found.
    by destruct (decide (listenerId ∈ table_ids (listeners s)));
      [rewrite bool_decide_eq_true_2|rewrite bool_decide_eq_false_2].
  - rewrite Hl, table_ids_without. by intros [Hne _]%list_elem_of_filter.
Qed.

Lemma before_asymmetric (a b : Listener) : before a b → before b a → False.
Proof. unfold before. lia. Qed.

(** X23. On a bus that has been initialized and used in any way, removing a
    listener right after registering it succeeds and leaves the array
    of every event type exactly as it was before the registration. *)
Theorem off_undoes_on (steps : list Step) (eventType : string)
    (h : Handler) (options : Options) :
  let s := run steps fresh in
  ∃ s1 s2 listenerId,
    on eventType h options s = Return (s1, listenerId) ∧
    off listenerId s1 = Return (s2, true) ∧
    ∀ other, getListeners other s2 = getListeners other s.
Proof.
  intros s. destruct (reachable steps) as [Hc Hd]. fold s in Hc, Hd.
  pose proof (consistent_initialized _ Hc) as Hi.
  destruct (on_listeners eventType h options s Hi)
    as (s1 & Hon & Hperform & _ & Hl1).
  cbv zeta in Hl1.
  set (x := mkListener (nextListener s) eventType h
              (default false (options_once options))
              (default 0 (options_priority options))) in *.
  assert (consistent s1) as Hc1
    by (rewrite <-Hperform; by apply BusFacts.perform_consistent).
  assert (distinct s1) as [_ Hids1]
    by (rewrite <-Hperform; by apply perform_distinct).
  pose proof (consistent_initialized _ Hc1) as Hi1.
  destruct (off_listeners (nextListener s) s1 Hi1 Hids1)
    as (s2 & Hoff & _ & Hl2 & _ & Hi2).
  pose proof (ids_below _ _ (consistent_sorted _ Hc)) as Hbelow.
  assert (∀ key array, get key (listeners s) = Some array →
            filter (λ l, id l ≠ nextListener s) array = array) as Hold.
  { intros key array Hget. apply filter_absent.
    destruct (BusFacts.sorted_table_get _ _ _ _ (consistent_sorted _ Hc) Hget)
      as [_ Hlt].
    intros (l & Hl & Hin)%list_elem_of_fmap.
    rewrite Forall_forall in Hlt. specialize (Hlt l Hin). simpl in Hlt. lia. }
  assert (nextListener s ∈ table_ids (listeners s1)) as Hin.
  { rewrite Hl1.
    assert (∀ entries, eventType ∈ entries.*1 →
              nextListener s
              ∈ table_ids (alter (λ array, sort by_priority (array ++ [x]))
                             eventType entries)) as Halter.
    { intros entries Hk.
      rewrite (table_ids_alter _ x); [left| |done].
      intros array. rewrite sort_perm. by rewrite Permutation_app_comm. }
    apply Halter.
    destruct (get eventType (listeners s)) as [array|] eqn:Hget.
    - destruct (decide (eventType ∈ (listeners s).*1)) as [|Hout]; [done|].
      apply get_None in Hout. congruence.
    - rewrite fmap_app. apply elem_of_app. right. left. }
  exists s1, s2, (nextListener s). split; [exact Hon|]. split.
  { rewrite Hoff. by rewrite bool_decide_eq_true_2. }
  intros other. rewrite !getListeners_get by done.
  rewrite Hl2, get_without, Hl1, get_alter.
  destruct (decide (eventType = other)) as [<-|Hne].
  - assert (∀ array, StronglySorted before array →
              Forall (λ l, (id l < id x)%nat) array →
              filter (λ l, id l ≠ nextListener s)
                (sort by_priority (array ++ [x])) = array) as Hback.
    { intros array Hs Hlt.
      destruct (BusFacts.sort_snoc array x Hs Hlt) as [Hsorted _].
      apply (StronglySorted_unique_strong before).
      - intros a b _ _ Hab Hba. destruct (before_asymmetric a b Hab Hba).
      - eapply BusFacts.sorted_sublist; [apply sublist_filter|done].
      - done.
      - rewrite sort_perm, filter_app.
        rewrite filter_cons_False by (by intros ?). simpl.
        rewrite app_nil_r. rewrite filter_absent; [done|].
        intros (l & Hl & Hin')%list_elem_of_fmap.
        rewrite Forall_forall in Hlt. specialize (Hlt l Hin').
        simpl in Hlt. lia. }
    destruct (get eventType (listeners s)) as [array|] eqn:Hget; simpl.
    + rewrite Hget. simpl. f_equal.
      destruct (BusFacts.sorted_table_get _ _ _ _
                  (consistent_sorted _ Hc) Hget) as [Hs Hlt].
      by apply Hback.
    + rewrite get_snoc, Hget, decide_True by done.
      simpl fmap. by rewrite filter_cons_False by (by intros ?).
  - destruct (get eventType (listeners s)); simpl.
    + destruct (get other (listeners s)) as [array|] eqn:Hget; [|done].
      simpl. by rewrite (Hold other array).
    + rewrite get_snoc.
      destruct (get other (listeners s)) as [array|] eqn:Hget; simpl.
      * by rewrite (Hold other array).
      * by rewrite decide_False.
Qed.

(** ** Clearing listeners *)

Lemma get_remove_eq {V} (key : string) (entries : list (string * V)) :
  NoDup entries.*1 → get key (remove key entries) = None.
Proof.
  induction entries as [|[k v] rest IH]; [done|].
  rewrite fmap_cons, NoDup_cons. intros [Hk Hrest]. simpl.
  destruct (decide (k = key)) as [->|Hne].
  - by apply get_None.
  - simpl. rewrite decide_False by done. by apply IH.
Qed.

Lemma get_remove_ne {V} (key other : string) (entries : list (string * V)) :
  key ≠ other → get other (remove key entries) = get other entries.
Proof.
  intros Hne. induction entries as [|[k v] rest IH]; [done|]. simpl.
  destruct (decide (k = key)) as [->|Hk].
  - by rewrite decide_False.
  - simpl. by rewrite IH.
Qed.

Lemma total_remove (key : string) (array : list Listener)
    (entries : list (string * list Listener)) :
  get key entries = Some array →
  sum_list ((λ entry, length entry.2) <$> entries)
    = (length array
       + sum_list ((λ entry, length entry.2) <$> remove key entries))%nat.
Proof.
  induction entries as [|[k v] rest IH]; [done|]. simpl get. simpl remove.
  destruct (decide (k = key)) as [->|Hk].
  - intros [= ->]. by rewrite fmap_cons.
  - intros Hget. rewrite !fmap_cons. simpl sum_list. rewrite (IH Hget).
    simpl. lia.
Qed.

(** X24. On a bus that has been initialized and used in any way,
    [clearListeners] returns the number of listeners it removes: the
    total that [getStatus] reports goes down by exactly the returned
    count. With a non-empty event type it empties that type and
    leaves every other type as it was; with no argument, and also
    with the empty string (which is falsy), it empties every type. *)
Theorem clearListeners_returns_number_removed (steps : list Step)
    (eventType : option string) :
  let s := run steps fresh in
  let cleared (key : string) :=
    match eventType with
    | Some (String c rest) => key = String c rest
    | _ => True
    end in
  ∃ s' count,
    clearListeners eventType s = Return (s', count) ∧
    totalListeners (getStatus s)
      = (count + totalListeners (getStatus s'))%nat ∧
    (∀ key, cleared key → getListeners key s' = Return []) ∧
    (∀ key, ¬ cleared key → getListeners key s' = getListeners key s).
Proof.
  intros s cleared. destruct (reachable steps) as [Hc [Hkeys _]].
  fold s in Hc, Hkeys. pose proof (consistent_initialized _ Hc) as Hi.
  unfold clearListeners. rewrite Hi. simpl.
  assert (∃ s' count,
            Return (set_listeners [] s,
                    sum_list ((λ entry, length entry.2) <$> listeners s))
              = Return (s', count) ∧
            totalListeners (getStatus s)
              = (count + totalListeners (getStatus s'))%nat ∧
            (∀ key, getListeners key s' = Return [])) as Hall.
  { eexists _, _. split; [done|]. split; [simpl; lia|].
    intros key. by rewrite getListeners_get. }
  destruct eventType as [[|c rest]|]; unfold cleared.
  - destruct Hall as (s' & count & ? & ? & ?). exists s', count.
    repeat split; [done..| |]; [by intros key _|by intros key []].
  - destruct (get (String c rest) (listeners s)) as [array|] eqn:Hget.
    + eexists _, _. split; [done|]. split; [|split].
      * simpl. by apply total_remove.
      * intros key ->. rewrite getListeners_get by done. simpl.
        by rewrite get_remove_eq.
      * intros key Hne. rewrite !getListeners_get by done. simpl.
        rewrite get_remove_ne; [done|]. by intros <-.
    + eexists _, _. split; [done|]. split; [done|]. split; [|done].
      intros key ->. rewrite getListeners_get by done. by rewrite Hget.
  - destruct Hall as (s' & count & ? & ? & ?). exists s', count.
    repeat split; [done..| |]; [by intros key _|by intros key []].
Qed.

(** ** Dispatch and the [once] option *)

Lemma filter_agree {A} (P Q : A → Prop) `{!∀ x, Decision (P x)}
    `{!∀ x, Decision (Q x)} (l : list A) :
  (∀ x, x ∈ l → P x ↔ Q x) → filter P l = filter Q l.
Proof.
  induction l as [|a l IH]; intros Hiff; [done|].
  assert (filter P l = filter Q l) as Hrest.
  { apply IH. intros x Hx. apply Hiff. by apply list_elem_of_further. }
  destruct (decide (P a)) as [Ha|Ha].
  - rewrite !filter_cons_True; [by rewrite Hrest| |done].
    by apply (Hiff a (list_elem_of_here _ _)).
  - rewrite !filter_cons_False; [done| |done].
    intros Hq. by apply Ha, (Hiff a (list_elem_of_here _ _)).
Qed.

Lemma filter_all {A} (P : A → Prop) `{!∀ x, Decision (P x)} (l : list A) :
  (∀ x, x ∈ l → P x) → filter P l = l.
Proof.
  induction l as [|a l IH]; intros Hall; [done|].
  rewrite filter_cons_True by apply Hall, list_elem_of_here.
  f_equal. apply IH. intros x Hx. by apply Hall, list_elem_of_further.
Qed.

Lemma get_withouts (ids : list nat) (key : string)
    (entries : list (string * list Listener)) :
  get key (foldl (λ entries i, without i entries) entries ids)
    = filter (λ l, id l ∉ ids) <$> get key entries.
Proof.
  revert entries. induction ids as [|i ids IH]; intros entries.
  - simpl. destruct (get key entries) as [array|]; [|done]. simpl. f_equal.
    symmetry. apply filter_all. intros l _. apply not_elem_of_nil.
  - change (foldl ?f entries (i :: ids)) with (foldl f (without i entries) ids).
    rewrite IH, get_without.
    destruct (get key entries) as [array|]; [|done]. simpl. f_equal.
    rewrite list_filter_filter. apply filter_agree. intros l _.
    rewrite not_elem_of_cons. tauto.
Qed.

Lemma get_ids (key : string) (array : list Listener) (l : Listener)
    (entries : list (string * list Listener)) :
  get key entries = Some array → l ∈ array → id l ∈ table_ids entries.
Proof.
  induction entries as [|[k v] rest IH]; [done|]. simpl get.
  rewrite table_ids_cons, elem_of_app.
  destruct (decide (k = key)) as [->|Hne].
  - intros [= ->] Hl. left. apply list_elem_of_fmap. by exists l.
  - intros Hget Hl. right. by apply IH.
Qed.

Lemma get_NoDup (key : string) (array : list Listener)
    (entries : list (string * list Listener)) :
  NoDup (table_ids entries) → get key entries = Some array →
  NoDup (id <$> array).
Proof.
  induction entries as [|[k v] rest IH]; [done|]. simpl get.
  rewrite table_ids_cons, NoDup_app. intros (Hv & _ & Hrest).
  destruct (decide (k = key)) as [->|Hne].
  - by intros [= ->].
  - by apply IH.
Qed.

Lemma arrays_disjoint (k1 k2 : string) (a1 a2 : list Listener)
    (l1 l2 : Listener) (entries : list (string * list Listener)) :
  NoDup (table_ids entries) → k1 ≠ k2 →
  get k1 entries = Some a1 → get k2 entries = Some a2 →
  l1 ∈ a1 → l2 ∈ a2 → id l1 ≠ id l2.
Proof.
  intros Hnd Hne. induction entries as [|[k v] rest IH]; [done|].
  revert Hnd. simpl get. rewrite table_ids_cons, NoDup_app.
  intros (_ & Hdisj & Hrest).
  destruct (decide (k = k1)) as [Hk1|Hk1], (decide (k = k2)) as [Hk2|Hk2].
  - congruence.
  - intros [= ->] Hget Hl1 Hl2 Heq.
    apply (Hdisj (id l1)).
    + apply list_elem_of_fmap. by exists l1.
    + rewrite Heq. by eapply get_ids.
  - intros Hget [= ->] Hl1 Hl2 Heq.
    apply (Hdisj (id l2)).
    + apply list_elem_of_fmap. by exists l2.
    + rewrite <-Heq. by eapply get_ids.
  - by apply IH.
Qed.

(** With ids that are not shared, removing the ids on the removal
    list of a dispatch leaves exactly its survivors in the array of
    the event's type, and changes no other array. *)
Lemma get_after_dispatch (event : Event) (array : list Listener)
    (key : string) (entries : list (string * list Listener)) :
  NoDup (table_ids entries) →
  default [] (get (event_type event) entries) = array →
  default []
    (get key (foldl (λ entries i, without i entries) entries
                (id <$> scheduled event array)))
    = if decide (key = event_type event) then surviving event array
      else default [] (get key entries).
Proof.
  intros Hnd Harray. rewrite get_withouts.
  destruct (decide (key = event_type event)) as [->|Hne].
  - destruct (get (event_type event) entries) as [array'|] eqn:Hget;
      simpl in Harray; subst array; [|done]. simpl.
    pose proof (get_NoDup _ _ _ Hnd Hget) as Hids.
    apply filter_agree. intros l Hl. split.
    + intros Hout Hs. apply Hout, list_elem_of_fmap. exists l.
      split; [done|]. by apply list_elem_of_filter.
    + intros Hs (l' & Heq & [Hs' Hl']%list_elem_of_filter)%list_elem_of_fmap.
      assert (l = l') as <-; [|done].
      apply list_elem_of_lookup in Hl as [i Hi].
      apply list_elem_of_lookup in Hl' as [j Hj].
      assert (i = j) as <-; [|congruence].
      apply (NoDup_lookup _ _ _ (id l) Hids);
        rewrite list_lookup_fmap; [by rewrite Hi|rewrite Hj; simpl; congruence].
  - destruct (get key entries) as [other|] eqn:Hget; [|done]. simpl.
    apply filter_all.
    intros l Hl (l' & Heq & [_ Hl']%list_elem_of_filter)%list_elem_of_fmap.
    destruct (get (event_type event) entries) as [array'|] eqn:Hget';
      simpl in Harray; subst array; [|by apply elem_of_nil in Hl'].
    by apply (arrays_disjoint key (event_type event) other array' l l'
                entries).
Qed.

Lemma emit_keeps (c : Call) (s : t) :
  is_emit c → processing s = true →
  frame (perform c s) = frame s ∧ listeners (perform c s) = listeners s ∧
  initialized (perform c s) = initialized s ∧
  processing (perform c s) = true ∧ owner (perform c s) = owner s.
Proof.
  destruct c as [eventType eventData| |]; [intros _ Hp|done|done].
  unfold perform, emit, _processQueue.
  destruct (initialized s) eqn:Hi; simpl; [|done]. by rewrite Hp.
Qed.

(** A handler that only emits runs to its end, and the listener goes
    on the removal list exactly when it was registered with [once] and
    the handler returned. *)
Lemma handler_exact (pending : list Call) :
  ∀ (s : t) event index toRemove listener raises,
    frame s = InHandler event index toRemove listener pending raises →
    Forall is_emit pending → processing s = true →
    let s' := resumed (S (length pending)) s in
    frame s'
      = ForOf event (S index)
          (if raises then toRemove
           else if once listener then toRemove ++ [id listener]
                else toRemove) ∧
    listeners s' = listeners s ∧ initialized s' = initialized s ∧
    processing s' = true ∧ owner s' = owner s ∧
    (pending = [] → eventQueue s' = eventQueue s ∧ trace s' = trace s).
Proof.
  induction pending as [|c pending IH];
    intros s event index toRemove listener raises Hframe Hemit Hp;
    cbv zeta; rewrite BusFacts.resumed_S.
  - assert (tick s
            = set_frame (ForOf event (S index)
                           (if raises then toRemove
                            else if once listener
                                 then toRemove ++ [id listener]
                                 else toRemove)) s) as ->.
    { unfold tick. by rewrite Hframe. }
    unfold resumed; simpl. done.
  - apply Forall_cons in Hemit as [Hc Hemit].
    set (s1 := set_frame (InHandler event index toRemove listener pending
                            raises) s).
    assert (tick s = perform c s1) as ->.
    { unfold tick. by rewrite Hframe. }
    destruct (emit_keeps c s1 Hc Hp) as (Hf' & Hl' & Hi' & Hp' & Ho').
    destruct (IH (perform c s1) event index toRemove listener raises
                Hf' Hemit Hp') as (Hf & Hl & Hi & Hpr & Ho & _).
    simpl length. rewrite Hf, Hl, Hi, Hpr, Ho, Hl', Hi', Ho'. done.
Qed.

Lemma offs_listeners (toRemove : list nat) (s : t) :
  initialized s = true → NoDup (table_ids (listeners s)) →
  let s' := foldl (λ s listenerId, perform (Off listenerId) s) s toRemove in
  listeners s'
    = foldl (λ entries i, without i entries) (listeners s) toRemove ∧
  initialized s' = true ∧ processing s' = processing s ∧
  owner s' = owner s.
Proof.
  cbv zeta. revert s.
  induction toRemove as [|i rest IH]; intros s Hi Hnd; [done|].
  change (foldl ?f s (i :: rest)) with (foldl f (perform (Off i) s) rest).
  destruct (off_listeners i s Hi Hnd) as (s' & _ & Hperform & Hl & _ & Hi').
  assert (processing s' = processing s ∧ owner s' = owner s) as [Hp Ho].
  { rewrite <-Hperform. unfold perform, off. rewrite Hi. simpl.
    by destruct (off_entries _ _). }
  rewrite Hperform.
  destruct (IH s' Hi') as (-> & -> & -> & ->).
  { rewrite Hl, table_ids_without. by apply NoDup_filter. }
  simpl. by rewrite Hl, Hp, Ho.
Qed.

Lemma scheduled_cons (event : Event) (l : Listener)
    (suffix : list Listener) (toRemove : list nat) :
  (if (handler l event).2 then toRemove
   else if once l then toRemove ++ [id l] else toRemove)
  ++ (id <$> scheduled event suffix)
  = toRemove ++ (id <$> scheduled event (l :: suffix)).
Proof.
  unfold scheduled. destruct (handler l event).2 eqn:Hr, (once l) eqn:Ho.
  - rewrite filter_cons_False; [done|]. intros [_ ?]. congruence.
  - rewrite filter_cons_False; [done|]. intros [? _]. congruence.
  - rewrite filter_cons_True by done. rewrite fmap_cons.
    by rewrite <-(assoc_L (++)).
  - rewrite filter_cons_False; [done|]. intros [? _]. congruence.
Qed.

(** The [for ... of] loop of [_processEvent] from element [index] on,
    and the removals after it. *)
Lemma for_of_exact (event : Event) (array suffix : list Listener) :
  ∀ (s : t) index toRemove,
    frame s = ForOf event index toRemove →
    processing s = true → initialized s = true →
    NoDup (table_ids (listeners s)) →
    get (event_type event) (listeners s) = Some array →
    drop index array = suffix →
    (∀ l, l ∈ suffix → Forall is_emit (handler l event).1) →
    let s' := resumed (loop_ticks event suffix) s in
    frame s' = AtWhile ∧
    listeners s'
      = foldl (λ entries i, without i entries) (listeners s)
          (toRemove ++ (id <$> scheduled event suffix)) ∧
    initialized s' = true ∧ processing s' = true ∧ owner s' = owner s ∧
    ((∀ l, l ∈ suffix → (handler l event).1 = []) →
       eventQueue s' = eventQueue s ∧
       trace s'
         = trace s ++ ((λ l, Invoked (id l) (event_id event)) <$> suffix)).
Proof.
  induction suffix as [|l suffix IH];
    intros s index toRemove Hframe Hp Hi Hnd Hget Hdrop Hemit; cbv zeta.
  - assert (array !! index = None) as Hnone.
    { apply lookup_ge_None. apply drop_nil_inv in Hdrop. lia. }
    assert (tick s
            = foldl (λ s listenerId, perform (Off listenerId) s)
                (set_frame AtWhile s) toRemove) as Htick.
    { unfold tick. rewrite Hframe, Hget. simpl. by rewrite Hnone. }
    change (resumed _ s) with (tick s). rewrite Htick.
    destruct (BusFacts.offs_fields toRemove (set_frame AtWhile s))
      as (-> & -> & -> & _).
    destruct (offs_listeners toRemove (set_frame AtWhile s))
      as (-> & -> & -> & ->); [done..|].
    simpl. by rewrite !app_nil_r.
  - assert (array !! index = Some l) as Hl.
    { pose proof (lookup_drop array index 0) as H.
      rewrite Hdrop, Nat.add_0_r in H. by rewrite <-H. }
    assert (drop (S index) array = suffix) as Hdrop'.
    { rewrite (drop_S _ _ _ Hl) in Hdrop. by injection Hdrop. }
    rewrite (BusFacts.loop_ticks_cons event l suffix).
    rewrite (BusFacts.resumed_add 1), (BusFacts.resumed_add (S _)).
    change (resumed 1 s) with (tick s).
    assert (tick s
            = observe (Invoked (id l) (event_id event))
                (set_frame (InHandler event index toRemove l
                              (handler l event).1 (handler l event).2) s))
      as ->.
    { unfold tick. rewrite Hframe, Hget. simpl. rewrite Hl.
      by destruct (handler l event). }
    rewrite <-(scheduled_cons event l suffix toRemove).
    destruct (handler l event) as [calls raises] eqn:Hh. simpl fst. simpl snd.
    set (s1 := observe (Invoked (id l) (event_id event))
                 (set_frame (InHandler event index toRemove l calls raises)
                    s)).
    destruct (handler_exact calls s1 event index toRemove l raises)
      as (Hf2 & Hl2 & Hi2 & Hp2 & Ho2 & Hq2); [done| |done|].
    { specialize (Hemit l (list_elem_of_here _ _)). by rewrite Hh in Hemit. }
    destruct (IH (resumed (S (length calls)) s1) (S index) _ Hf2)
      as (Hf3 & Hl3 & Hi3 & Hp3 & Ho3 & Hq3);
      [done|by rewrite Hi2|by rewrite Hl2|by rewrite Hl2|done| |].
    { intros l' Hl'. apply Hemit. by apply list_elem_of_further. }
    rewrite Hf3, Hl3, Hi3, Hp3, Ho3, Hl2, Ho2.
    repeat (split; [done|]). intros Hquiet.
    destruct Hq3 as [-> ->].
    { intros l' Hl'. apply Hquiet. by apply list_elem_of_further. }
    destruct Hq2 as [-> ->].
    { specialize (Hquiet l (list_elem_of_here _ _)). by rewrite Hh in Hquiet. }
    split; [done|]. rewrite fmap_cons. simpl. by rewrite <-(assoc_L (++)).
Qed.

(** One pass of the [while] loop of [_processQueue]: the event at the
    head of the queue is taken off and dispatched. *)
Lemma dispatch_exact (s : t) (event : Event) (rest : list Event)
    (array : list Listener) :
  consistent s → distinct s →
  frame s = AtWhile →
  eventQueue s = event :: rest →
  getListeners (event_type event) s = Return array →
  (∀ l, l ∈ array → Forall is_emit (handler l event).1) →
  let s' := resumed (dispatch_ticks event array) s in
  frame s' = AtWhile ∧
  listeners s'
    = foldl (λ entries i, without i entries) (listeners s)
        (id <$> scheduled event array) ∧
  initialized s' = true ∧ processing s' = true ∧ owner s' = owner s ∧
  ((∀ l, l ∈ array → (handler l event).1 = []) →
     eventQueue s' = rest ∧
     trace s'
       = trace s ++ ((λ l, Invoked (id l) (event_id event)) <$> array)).
Proof.
  intros Hc [_ Hids] Hframe Hq Hget Hemit.
  pose proof (consistent_initialized _ Hc) as Hi.
  assert (processing s = true) as Hp.
  { destruct (processing s) eqn:Hp; [done|].
    apply (consistent_processing _ Hc) in Hp. congruence. }
  rewrite getListeners_get in Hget by done. injection Hget as Hget.
  cbv zeta. destruct array as [|l array].
  - assert (tick s = set_eventQueue rest s) as Htick.
    { unfold tick. rewrite Hframe, Hq. simpl.
      by destruct (get (event_type event) (listeners s)) as [[|]|]. }
    change (resumed _ s) with (tick s). rewrite Htick. simpl.
    by rewrite app_nil_r.
  - destruct (get (event_type event) (listeners s)) as [array'|] eqn:Hg;
      simpl in Hget; [subst array'|done].
    unfold dispatch_ticks. rewrite BusFacts.resumed_S.
    assert (tick s = set_frame (ForOf event 0 []) (set_eventQueue rest s))
      as ->.
    { unfold tick. rewrite Hframe, Hq. simpl. by rewrite Hg. }
    apply (for_of_exact event (l :: array) (l :: array)
             (set_frame (ForOf event 0 []) (set_eventQueue rest s)) 0 []);
      done.
Qed.

(** The queue is empty whenever no drain is in progress. *)
Lemma idle_queue (steps : list Step) :
  frame (run steps fresh) = Idle → eventQueue (run steps fresh) = [].
Proof.
  assert (∀ s, consistent s → (frame s = Idle → eventQueue s = []) →
               ∀ x, frame (step x s) = Idle → eventQueue (step x s) = [])
    as Hstep.
  { intros s Hc Hidle [c|]; simpl.
    - pose proof (consistent_initialized _ Hc) as Hi.
      pose proof (consistent_processing _ Hc) as Hp.
      destruct c as [eventType eventData|eventType h options|listenerId];
        unfold perform, emit, on, off, _processQueue; rewrite Hi; simpl.
      + destruct (processing s) eqn:Hpr; simpl.
        * intros Hf. apply Hp in Hf. congruence.
        * rewrite bool_decide_eq_false_2 by (by destruct (eventQueue s)).
          done.
      + done.
      + by destruct (off_entries _ _).
    - unfold tick.
      destruct (frame s) as [| |event index toRemove
                             |event index toRemove listener pending raises]
        eqn:Hframe; [by auto|..].
      + destruct (eventQueue s) as [|event rest]; [done|]. simpl.
        destruct (get _ _) as [[|]|]; simpl; congruence.
      + destruct (default [] (get _ _) !! index) as [listener|].
        * by destruct (handler listener event).
        * destruct (BusFacts.offs_fields toRemove (set_frame AtWhile s))
            as (-> & _ & _ & _). done.
      + destruct pending as [|c pending]; [done|].
        pose proof (consistent_initialized _ Hc) as Hi.
        destruct c as [eventType eventData|eventType h options|listenerId];
          unfold perform, emit, on, off, _processQueue; simpl; rewrite Hi;
          simpl.
        * destruct (processing s || bool_decide (eventQueue s ++ _ = []));
            simpl; done.
        * done.
        * by destruct (off_entries _ _). }
  assert (∀ xs s, consistent s → (frame s = Idle → eventQueue s = []) →
                  frame (run xs s) = Idle → eventQueue (run xs s) = [])
    as Hrun.
  { unfold run. induction xs as [|x xs IH]; intros s Hc Hidle; [done|].
    apply (IH (step x s)).
    - by apply BusFacts.step_consistent.
    - by apply Hstep. }
  apply Hrun; [apply BusFacts.fresh_consistent|done].
Qed.

(** X25. On a bus that has been initialized and used in any way and is
    about to dispatch [event], with handlers that make no calls
    other than [emit]: once the event is dispatched, the listeners of
    its type are those registered before, in the same order, less the
    ones registered with [once] whose handler returned. A [once]
    listener whose handler threw is still registered. The listeners
    of every other event type are as they were. *)
Theorem once_listeners_leave_after_dispatch (steps : list Step)
    (event : Event) (rest : list Event) (array : list Listener) :
  let s := run steps fresh in
  frame s = AtWhile →
  eventQueue s = event :: rest →
  getListeners (event_type event) s = Return array →
  (∀ l, l ∈ array → Forall is_emit (handler l event).1) →
  let s' := resumed (dispatch_ticks event array) s in
  frame s' = AtWhile ∧
  getListeners (event_type event) s' = Return (surviving event array) ∧
  ∀ other, other ≠ event_type event →
           getListeners other s' = getListeners other s.
Proof.
  intros s Hframe Hq Hget Hemit. destruct (reachable steps) as [Hc Hd].
  fold s in Hc, Hd. pose proof (consistent_initialized _ Hc) as Hi.
  destruct (dispatch_exact s event rest array Hc Hd Hframe Hq Hget Hemit)
    as (Hf & Hl & Hi' & _).
  cbv zeta. split; [done|].
  rewrite getListeners_get in Hget by done. injection Hget as Hget.
  destruct Hd as [_ Hids]. split.
  - rewrite getListeners_get, Hl by done.
    rewrite (get_after_dispatch event array _ _ Hids Hget).
    by rewrite decide_True.
  - intros other Hne. rewrite !getListeners_get, Hl by done.
    rewrite (get_after_dispatch event array _ _ Hids Hget).
    by rewrite decide_False.
Qed.

Lemma once_listeners_leave_after_dispatch_witness :
  let s :=
    run (Scenarios.mixed ++ [Outside (Emit "ping" ∅)]) fresh in
  let event := mkEvent "ping" ∅ 0 in
  let array := default [] (get "ping" (listeners s)) in
  let s' := resumed (dispatch_ticks event array) s in
  frame s' = AtWhile ∧
  getListeners (event_type event) s' = Return (surviving event array) ∧
  ∀ other, other ≠ event_type event →
           getListeners other s' = getListeners other s.
Proof.
  intros s event array.
  apply (once_listeners_leave_after_dispatch
           (Scenarios.mixed ++ [Outside (Emit "ping" ∅)]) event [] array);
    [reflexivity..|].
  apply Forall_forall. repeat constructor.
Defined.

(** X26. On an idle bus that has been initialized and used in any way,
    [await emit(...)] with handlers that make no calls completes: the
    listeners of the event's type are invoked once each in the order
    of their array, whether or not some of them throw, then the
    [emit] returns, and the bus is idle again with an empty queue.
    Afterwards the [once] listeners whose handler returned are gone. *)
Theorem awaited_emit_completes (steps : list Step) (eventType : string)
    (eventData : Obj) (array : list Listener) :
  let s := run steps fresh in
  let event := mkEvent eventType eventData (nextEvent s) in
  frame s = Idle →
  getListeners eventType s = Return array →
  (∀ l, l ∈ array → (handler l event).1 = []) →
  ∃ s0,
    emit eventType eventData s = Return s0 ∧
    let s' := resumed (S (dispatch_ticks event array)) s0 in
    frame s' = Idle ∧ processing s' = false ∧ eventQueue s' = [] ∧
    trace s'
      = trace s ++ ((λ l, Invoked (id l) (event_id event)) <$> array)
          ++ [Returned (event_id event)] ∧
    getListeners eventType s' = Return (surviving event array).
Proof.
  intros s event Hframe Hget Hquiet.
  destruct (reachable steps) as [Hc Hd]. fold s in Hc, Hd.
  pose proof (consistent_initialized _ Hc) as Hi.
  pose proof (idle_queue steps Hframe) as Hq. fold s in Hq.
  assert (processing s = false) as Hp
    by (by apply (consistent_processing _ Hc)).
  set (s0 := perform (Emit eventType eventData) s).
  assert (emit eventType eventData s = Return s0) as Hemit.
  { unfold s0, perform, emit. by rewrite Hi. }
  assert (frame s0 = AtWhile ∧ eventQueue s0 = [event] ∧
          listeners s0 = listeners s ∧ trace s0 = trace s ∧
          owner s0 = event_id event) as (Hf0 & Hq0 & Hl0 & Ht0 & Ho0).
  { unfold s0, perform, emit, _processQueue. rewrite Hi, Hp, Hq. simpl.
    done. }
  assert (consistent s0) as Hc0 by (by apply BusFacts.perform_consistent).
  assert (distinct s0) as Hd0 by (by apply perform_distinct).
  assert (getListeners (event_type event) s0 = Return array) as Hget0.
  { rewrite getListeners_get by apply Hc0. rewrite Hl0.
    by rewrite <-getListeners_get. }
  destruct (dispatch_exact s0 event [] array Hc0 Hd0 Hf0 Hq0 Hget0)
    as (Hf1 & Hl1 & Hi1 & Hp1 & Ho1 & Hqt).
  { intros l Hl. by rewrite (Hquiet l Hl). }
  destruct (Hqt Hquiet) as [Hq1 Ht1].
  exists s0. split; [done|]. cbv zeta.
  replace (S (dispatch_ticks event array))
    with (dispatch_ticks event array + 1)%nat by lia.
  rewrite BusFacts.resumed_add.
  set (s1 := resumed (dispatch_ticks event array) s0) in *.
  change (resumed 1 s1) with (tick s1).
  assert (tick s1
          = observe (Returned (owner s1))
              {| initialized := initialized s1; listeners := listeners s1;
                 eventQueue := eventQueue s1; processing := false;
                 frame := Idle; owner := owner s1;
                 nextListener := nextListener s1;
                 nextEvent := nextEvent s1; trace := trace s1 |}) as ->.
  { unfold tick. by rewrite Hf1, Hq1. }
  simpl. repeat (split; [done|]). split.
  - rewrite Ht1, Ho1, Ho0, Ht0. by rewrite <-(assoc_L (++)).
  - unfold getListeners. simpl. rewrite Hi1. simpl. rewrite Hl1, Hl0.
    rewrite getListeners_get in Hget by done. injection Hget as Hget.
    destruct Hd as [_ Hids].
    rewrite (get_after_dispatch event array _ _ Hids Hget).
    by rewrite decide_True.
Qed.

Lemma awaited_emit_completes_witness :
  let s := run Scenarios.mixed fresh in
  let event := mkEvent "ping" ∅ (nextEvent s) in
  let array := default [] (get "ping" (listeners s)) in
  ∃ s0,
    emit "ping" ∅ s = Return s0 ∧
    let s' := resumed (S (dispatch_ticks event array)) s0 in
    frame s' = Idle ∧ processing s' = false ∧ eventQueue s' = [] ∧
    trace s'
      = trace s ++ ((λ l, Invoked (id l) (event_id event)) <$> array)
          ++ [Returned (event_id event)] ∧
    getListeners "ping" s' = Return (surviving event array).
Proof.
  intros s event array.
  apply (awaited_emit_completes Scenarios.mixed "ping" ∅ array);
    [reflexivity..|].
  apply Forall_forall. repeat constructor.
Defined.

End BusLifecycle.

(** * Properties of the wallet service *)
Module WalletLifecycle.
Import WalletUnified.

Lemma length_append (s1 s2 : string) :
  String.length (s1 +:+ s2) = (String.length s1 + String.length s2)%nat.
Proof. induction s1 as [|c s1 IH]; [done|]. simpl. by rewrite IH. Qed.

Lemma hex_digit_length (n : nat) : String.length (hex_digit n) = 1%nat.
Proof.
  unfold hex_digit. pose proof (Nat.mod_upper_bound n 16) as Hlt.
  destruct (n `mod` 16)%nat as [|m]; [done|].
  do 15 (destruct m as [|m]; [done|]). lia.
Qed.

Lemma hex_digits_length (draw : nat → nat) (n : nat) :
  String.length (hex_digits draw n) = n.
Proof.
  induction n as [|n IH]; [done|]. simpl.
  rewrite length_append, hex_digit_length, IH. lia.
Qed.

(** The mock address and the mock signature always pass the shape
    check of the "wallet" method. *)
Lemma mock_credentials_accepted (addressDraw signatureDraw : nat → nat)
    (message : string) :
  AuthService._validateCredentials (_generateMockAddress addressDraw)
    (_signMessage message signatureDraw) "wallet" = true.
Proof.
  unfold AuthService._validateCredentials, _generateMockAddress,
    _signMessage.
  rewrite !bool_decide_eq_false_2 by done. simpl orb. cbv iota.
  rewrite bool_decide_eq_true_2 by done.
  apply bool_decide_eq_true. rewrite length_append, hex_digits_length.
  simpl. lia.
Qed.

(** X27. Without a wallet provider, [connect] with any wallet type
    other than "MetaMask" (also one that is not among the supported
    types) connects a mock wallet under that type. With an attached,
    usable session coordinator it signs the wallet's address in with
    method "wallet": the mock signature always passes the shape
    check. [disconnect] afterwards forgets the wallet and resets the
    balance, and leaves the session coordinator as it is: the user is
    still signed in. *)
Theorem connect_signs_in_and_disconnect_does_not_sign_out (now : Z)
    (addressDraw : nat → nat) (mockBalance : Number)
    (signatureDraw : nat → nat) (authNow : Z)
    (userId tokenId tokenValue walletType : string) (s : t)
    (auth : AuthService.t) (store : TokenService.t) :
  initialized s = true →
  authService s = Some auth →
  AuthService.initialized auth = true →
  AuthService.tokenService auth = Some store →
  TokenService.initialized store = true →
  walletType ≠ "MetaMask" →
  let address := _generateMockAddress addressDraw in
  ∃ s1 auth1 auth2 user,
    connect now addressDraw mockBalance signatureDraw authNow userId
        tokenId tokenValue walletType s
      = Return (s1, Connected walletType address mockBalance) ∧
    getWalletInfo s1
      = Return (Some (mkInfo walletType address mockBalance (network s)
                        now)) ∧
    authService s1 = Some auth1 ∧
    AuthService.getCurrentUser auth1 = Return (Some user) ∧
    AuthService.identifier user = address ∧
    AuthService.authMethod user = "wallet" ∧
    AuthService.validateSession authNow tokenId auth1
      = Return (auth2, true) ∧
    ∃ s2,
      disconnect s1 = Return (s2, true) ∧
      getWalletInfo s2 = Return None ∧
      getStatus s2
        = mkStatus true false None None zero None ∧
      authService s2 = Some auth1.
Proof.
  intros Hi Hauth Hai Hst Hsi Hne address. subst address.
  destruct (AuthLifecycle.authenticate_accepts authNow userId tokenId
              tokenValue (_generateMockAddress addressDraw)
              (_signMessage "Authenticate with pewpi-shared" signatureDraw)
              "wallet" auth store Hai (conj Hst Hsi)
              (mock_credentials_accepted _ _ _)) as [auth1 Hsign].
  assert (AuthService.currentUser auth1
            = Some (AuthService.mkUser (AuthService.nextRef auth) userId
                      (_generateMockAddress addressDraw) "wallet"
                      authNow) ∧
          AuthService.initialized auth1 = true ∧
          ∃ auth2, AuthService.validateSession authNow tokenId auth1
                     = Return (auth2, true)) as (Hu & Hi1 & auth2 & Hv).
  { revert Hsign. unfold AuthService.authenticate.
    rewrite Hai, mock_credentials_accepted, Hst. simpl.
    unfold TokenService.createToken. rewrite Hsi. simpl.
    intros [= <-]. simpl. split; [done|]. split; [done|].
    unfold AuthService.validateSession. simpl. rewrite ?Hai. simpl.
    rewrite lookup_insert_eq. unfold TokenService.validateToken. simpl.
    rewrite ?Hsi. simpl. rewrite lookup_insert_eq. simpl.
    destruct (Z.gtb_spec authNow (authNow + 86400000)); [lia|].
    by eexists. }
  unfold connect. rewrite Hi. simpl negb. cbv iota.
  rewrite bool_decide_eq_false_2 by done.
  rewrite bool_decide_eq_false_2 by done.
  unfold updateBalance. simpl. rewrite ?Hi. simpl. rewrite ?Hauth.
  rewrite Hsign.
  eexists _, auth1, auth2, _. split; [done|].
  split; [unfold getWalletInfo; simpl; by rewrite ?Hi|].
  split; [done|].
  split; [unfold AuthService.getCurrentUser; by rewrite Hi1, Hu|].
  split; [done|]. split; [done|]. split; [done|].
  unfold disconnect. simpl. rewrite ?Hi. simpl.
  eexists. split; [done|].
  split; [unfold getWalletInfo; simpl; by rewrite ?Hi|].
  split; [unfold getStatus; simpl; by rewrite ?Hi|done].
Qed.

Lemma connect_signs_in_and_disconnect_does_not_sign_out_witness :
  let s := Scenarios.wallet Scenarios.auth in
  let address := _generateMockAddress Scenarios.counting in
  ∃ s1 auth1 auth2 user,
    connect 10 Scenarios.counting (QArith_base.Qmake 5 2)
        Scenarios.counting 20 "usr_20_w" "tok_20_w" "ff" "Ledger" s
      = Return (s1, Connected "Ledger" address (QArith_base.Qmake 5 2)) ∧
    getWalletInfo s1
      = Return (Some (mkInfo "Ledger" address (QArith_base.Qmake 5 2)
                        (network s) 10)) ∧
    authService s1 = Some auth1 ∧
    AuthService.getCurrentUser auth1 = Return (Some user) ∧
    AuthService.identifier user = address ∧
    AuthService.authMethod user = "wallet" ∧
    AuthService.validateSession 20 "tok_20_w" auth1
      = Return (auth2, true) ∧
    ∃ s2,
      disconnect s1 = Return (s2, true) ∧
      getWalletInfo s2 = Return None ∧
      getStatus s2
        = mkStatus true false None None zero None ∧
      authService s2 = Some auth1.
Proof.
  intros s address.
  apply (connect_signs_in_and_disconnect_does_not_sign_out 10
           Scenarios.counting (QArith_base.Qmake 5 2) Scenarios.counting
           20 "usr_20_w" "tok_20_w" "ff" "Ledger" s Scenarios.auth
           (TokenService.initialize TokenService.new).1);
    [reflexivity..|done].
Defined.

(** X28. When the attached session coordinator has not been
    initialized, [connect] reports a failure with the coordinator's
    "Not initialized" message, but the wallet it has set up by then
    stays: the service is connected, with the mock address and the
    balance it fetched. *)
Theorem connect_failure_leaves_wallet_connected (now : Z)
    (addressDraw : nat → nat) (mockBalance : Number)
    (signatureDraw : nat → nat) (authNow : Z)
    (userId tokenId tokenValue walletType : string) (s : t)
    (auth : AuthService.t) :
  initialized s = true →
  authService s = Some auth →
  AuthService.initialized auth = false →
  walletType ≠ "MetaMask" →
  let address := _generateMockAddress addressDraw in
  ∃ s1,
    connect now addressDraw mockBalance signatureDraw authNow userId
        tokenId tokenValue walletType s
      = Return (s1, ConnectFailed AuthService.not_initialized) ∧
    getWalletInfo s1
      = Return (Some (mkInfo walletType address mockBalance (network s)
                        now)) ∧
    status_connected (getStatus s1) = true ∧
    authService s1 = Some auth.
Proof.
  intros Hi Hauth Hai Hne address. subst address.
  unfold connect. rewrite Hi. simpl negb. cbv iota.
  rewrite bool_decide_eq_false_2 by done.
  rewrite bool_decide_eq_false_2 by done.
  unfold updateBalance. simpl. rewrite ?Hi. simpl. rewrite ?Hauth.
  unfold AuthService.authenticate. rewrite Hai. simpl.
  eexists. split; [done|].
  split; [unfold getWalletInfo; simpl; by rewrite ?Hi|].
  done.
Qed.

Lemma connect_failure_leaves_wallet_connected_witness :
  let s := Scenarios.wallet Scenarios.auth_new in
  let address := _generateMockAddress Scenarios.counting in
  ∃ s1,
    connect 10 Scenarios.counting (QArith_base.Qmake 5 2)
        Scenarios.counting 20 "usr_20_w" "tok_20_w" "ff" "Generic" s
      = Return (s1, ConnectFailed AuthService.not_initialized) ∧
    getWalletInfo s1
      = Return (Some (mkInfo "Generic" address (QArith_base.Qmake 5 2)
                        (network s) 10)) ∧
    status_connected (getStatus s1) = true ∧
    authService s1 = Some Scenarios.auth_new.
Proof.
  intros s address.
  apply (connect_failure_leaves_wallet_connected 10 Scenarios.counting
           (QArith_base.Qmake 5 2) Scenarios.counting 20 "usr_20_w"
           "tok_20_w" "ff" "Generic" s Scenarios.auth_new);
    [reflexivity..|done].
Defined.

(** X29. [connect] does not look at the result of the sign-in: with
    an initialized session coordinator whose token store is missing
    or not initialized, the sign-in fails and leaves the coordinator
    as it was (nobody is signed in by it), and [connect] still reports
    success. *)
Theorem connect_succeeds_without_sign_in (now : Z)
    (addressDraw : nat → nat) (mockBalance : Number)
    (signatureDraw : nat → nat) (authNow : Z)
    (userId tokenId tokenValue walletType : string) (s : t)
    (auth : AuthService.t) :
  initialized s = true →
  authService s = Some auth →
  AuthService.initialized auth = true →
  match AuthService.tokenService auth with
  | Some store => TokenService.initialized store = false
  | None => True
  end →
  walletType ≠ "MetaMask" →
  ∃ s1,
    connect now addressDraw mockBalance signatureDraw authNow userId
        tokenId tokenValue walletType s
      = Return (s1, Connected walletType
                      (_generateMockAddress addressDraw) mockBalance) ∧
    authService s1 = Some auth.
Proof.
  intros Hi Hauth Hai Hstore Hne.
  unfold connect. rewrite Hi. simpl negb. cbv iota.
  rewrite bool_decide_eq_false_2 by done.
  rewrite bool_decide_eq_false_2 by done.
  unfold updateBalance. simpl. rewrite ?Hi. simpl. rewrite ?Hauth.
  unfold AuthService.authenticate.
  rewrite Hai, mock_credentials_accepted. simpl.
  destruct (AuthService.tokenService auth) as [store|].
  - unfold TokenService.createToken. rewrite Hstore. simpl.
    eexists. split; [done|]. simpl. by destruct auth.
  - eexists. split; [done|]. simpl. by destruct auth.
Qed.

Lemma connect_succeeds_without_sign_in_witness :
  let s := Scenarios.wallet Scenarios.auth_storeless in
  ∃ s1,
    connect 10 Scenarios.counting (QArith_base.Qmake 5 2)
        Scenarios.counting 20 "usr_20_w" "tok_20_w" "ff" "Phantom" s
      = Return (s1, Connected "Phantom"
                      (_generateMockAddress Scenarios.counting)
                      (QArith_base.Qmake 5 2)) ∧
    authService s1 = Some Scenarios.auth_storeless.
Proof.
  intros s.
  apply (connect_succeeds_without_sign_in 10 Scenarios.counting
           (QArith_base.Qmake 5 2) Scenarios.counting 20 "usr_20_w"
           "tok_20_w" "ff" "Phantom" s Scenarios.auth_storeless);
    [reflexivity..|done].
Defined.

End WalletLifecycle.
